(** * DSO immature points: epipolar tracing and residual evaluation

    A shallow embedding of [src/FullSystem/ImmaturePoint.cpp] (namespace
    [dso]) and the properties of its member functions [traceOn],
    [calcResidual], [linearizeResidual] and [getdPixdd].

    Numbers.  The C++ type [float] is IEEE 754 binary32.  It is modelled by
    [spec_float] of the standard library with precision 24 and maximal
    exponent 128, so that every operation rounds to nearest-even exactly as
    the hardware does, NaN and the infinities included.  [int] is [Z].
    An [int] converted to [float] goes through [of_int].  The one place
    where the usual arithmetic conversions make the code compute in
    [double] and round back ([energy += 1e5]) is modelled with binary64
    ([fadd_dbl]); [fabs] is taken at its [float] overload.  Eigen products
    are unfolded coefficient by coefficient, summed left to right.

    What the file does not have.  The image interpolation helpers
    ([getInterpolatedElement31], [getInterpolatedElement33]) and the
    projection helpers of [ResidualProjections.h] ([projectPoint],
    [derive_idepth]) are not part of the source file; they enter as
    fields of the frame and as section variables.  The settings
    ([setting_...], [wG], [hG]) are fields of the record [Globals]. *)

From Stdlib Require Import ZArith List Bool Lia.
From Stdlib Require Import Floats.SpecFloat.
Import ListNotations.

Local Open Scope Z_scope.

(** ** Binary32 arithmetic *)

Module F32.

Definition prec : Z := 24.
Definition emax : Z := 128.

Definition float := spec_float.

Definition add : float -> float -> float := SFadd prec emax.
Definition sub : float -> float -> float := SFsub prec emax.
Definition mul : float -> float -> float := SFmul prec emax.
Definition div : float -> float -> float := SFdiv prec emax.
Definition sqrtf : float -> float := SFsqrt prec emax.
Definition neg : float -> float := SFopp.
Definition fabsf : float -> float := SFabs.

(** [x < y], [x > y]: false as soon as one side is NaN. *)
Definition ltb (x y : float) : bool := SFltb x y.
Definition gtb (x y : float) : bool := SFltb y x.
Definition leb (x y : float) : bool := SFleb x y.

(** [std::isfinite] *)
Definition isfinite (x : float) : bool :=
  match x with
  | S754_zero _ | S754_finite _ _ _ => true
  | S754_infinity _ | S754_nan => false
  end.

Definition NAN : float := S754_nan.

(** The value [m * 2^e], rounded to binary32. *)
Definition dyadic (m e : Z) : float := binary_normalize prec emax m e false.

(** Conversion of an [int] to [float]. *)
Definition of_int (z : Z) : float := dyadic z 0.

(** Decimal literal [n / d] (as [0.2f] is [2/10]): both parts are exact
    in binary32, so the correctly rounded quotient is the literal. *)
Definition lit (n d : Z) : float := div (of_int n) (of_int d).

(** Binary64, for the expressions C++ evaluates in [double]. *)
Definition to_double (x : float) : spec_float :=
  match x with
  | S754_finite s m e => binary_normalize 53 1024 (cond_Zopp s (Zpos m)) e s
  | _ => x
  end.

Definition of_double (x : spec_float) : float :=
  match x with
  | S754_finite s m e => binary_normalize prec emax (cond_Zopp s (Zpos m)) e s
  | _ => x
  end.

(** [x += c] with [x] a [float] and [c] a [double] literal: the sum is
    taken in binary64 and the result rounded to binary32. *)
Definition fadd_dbl (x : float) (c : spec_float) : float :=
  of_double (SFadd 53 1024 (to_double x) c).

(** [floorf] *)
Definition floorf (x : float) : float :=
  match x with
  | S754_finite s m e =>
      if 0 <=? e then x
      else
        let q := Z.shiftr (Zpos m) (- e) in
        if s then
          if Zpos m =? Z.shiftl q (- e) then of_int (- q) else of_int (- (q + 1))
        else of_int q
  | _ => x
  end.

(** Conversion of a [float] to [int]: truncation towards zero.  Outside
    the range of [int] (and for NaN) C++ leaves the result undefined; the
    model takes the value the x86 conversion instruction gives. *)
Definition INT_MIN : Z := - 2 ^ 31.

Definition to_int (x : float) : Z :=
  match x with
  | S754_zero _ => 0
  | S754_finite s m e =>
      let a := if 0 <=? e then Z.shiftl (Zpos m) e else Z.shiftr (Zpos m) (- e) in
      let v := cond_Zopp s a in
      if (INT_MIN <=? v) && (v <? 2 ^ 31) then v else INT_MIN
  | _ => INT_MIN
  end.

Definition zero : float := S754_zero false.
Definition one : float := of_int 1.

End F32.

Import F32.

Declare Scope f32_scope.
Delimit Scope f32_scope with f32.
Infix "+" := F32.add : f32_scope.
Infix "-" := F32.sub : f32_scope.
Infix "*" := F32.mul : f32_scope.
Infix "/" := F32.div : f32_scope.
Infix "<?" := F32.ltb : f32_scope.
Infix ">?" := F32.gtb : f32_scope.
Notation "- x" := (F32.neg x) : f32_scope.

Local Open Scope f32_scope.

(** ** Data model *)

Record Vec2f := V2 { v2x : float; v2y : float }.
Record Vec3f := V3 { v3x : float; v3y : float; v3z : float }.

(** Matrices are stored by rows. *)
Record Mat22f := M22 { m22_r0 : Vec2f; m22_r1 : Vec2f }.
Record Mat33f := M33 { m33_r0 : Vec3f; m33_r1 : Vec3f; m33_r2 : Vec3f }.

Definition dot2 (a b : Vec2f) : float := v2x a * v2x b + v2y a * v2y b.
Definition dot3 (a b : Vec3f) : float := v3x a * v3x b + v3y a * v3y b + v3z a * v3z b.

Definition mat22_mul_vec (m : Mat22f) (x : Vec2f) : Vec2f :=
  V2 (dot2 (m22_r0 m) x) (dot2 (m22_r1 m) x).

Definition mat33_mul_vec (m : Mat33f) (x : Vec3f) : Vec3f :=
  V3 (dot3 (m33_r0 m) x) (dot3 (m33_r1 m) x) (dot3 (m33_r2 m) x).

(** [x.transpose() * m] *)
Definition vec_mul_mat22 (x : Vec2f) (m : Mat22f) : Vec2f :=
  V2 (v2x x * v2x (m22_r0 m) + v2y x * v2x (m22_r1 m))
     (v2x x * v2y (m22_r0 m) + v2y x * v2y (m22_r1 m)).

(** [x.transpose() * m * x] *)
Definition quad_form (m : Mat22f) (x : Vec2f) : float := dot2 (vec_mul_mat22 x m) x.

Definition vec3_add (a b : Vec3f) : Vec3f :=
  V3 (v3x a + v3x b) (v3y a + v3y b) (v3z a + v3z b).
Definition vec3_scale (a : Vec3f) (k : float) : Vec3f :=
  V3 (v3x a * k) (v3y a * k) (v3z a * k).
Definition vec2_scale (a : Vec2f) (k : float) : Vec2f :=
  V2 (v2x a * k) (v2y a * k).

(** [m.topLeftCorner<2,2>()] *)
Definition topLeftCorner22 (m : Mat33f) : Mat22f :=
  M22 (V2 (v3x (m33_r0 m)) (v3y (m33_r0 m))) (V2 (v3x (m33_r1 m)) (v3y (m33_r1 m))).

Inductive ImmaturePointStatus :=
| IPS_GOOD | IPS_OOB | IPS_OUTLIER | IPS_SKIPPED | IPS_BADCONDITION | IPS_UNINITIALIZED.

Definition status_eqb (a b : ImmaturePointStatus) : bool :=
  match a, b with
  | IPS_GOOD, IPS_GOOD | IPS_OOB, IPS_OOB | IPS_OUTLIER, IPS_OUTLIER
  | IPS_SKIPPED, IPS_SKIPPED | IPS_BADCONDITION, IPS_BADCONDITION
  | IPS_UNINITIALIZED, IPS_UNINITIALIZED => true
  | _, _ => false
  end.

Inductive ResState := ResState_IN | ResState_OOB | ResState_OUTLIER.

(** Process-wide constants read by the file. *)
Record Globals := {
  wG0 : Z;                                  (* wG[0] *)
  hG0 : Z;                                  (* hG[0] *)
  setting_maxPixSearch : float;
  setting_trace_stepsize : float;
  setting_trace_GNIterations : Z;
  setting_trace_GNThreshold : float;
  setting_trace_extraSlackOnTH : float;
  setting_trace_slackInterval : float;
  setting_trace_minImprovementFactor : float;
  setting_minTraceTestRadius : Z;
  setting_huberTH : float
}.

(** The residual pattern, as listed in the constructor. *)
Definition patternNum : nat := 8.
Definition patternP : list (Z * Z) :=
  [(0, -2); (-1, -1); (1, -1); (-2, 0); (0, 0); (2, 0); (-1, 1); (0, 2)].

(** Precomputed host-to-target quantities ([host->targetPrecalc[i]]). *)
Record FrameFramePrecalc := {
  PRE_RTll : Mat33f;
  PRE_tTll : Vec3f;
  PRE_KRKiTll : Mat33f;
  PRE_KtTll : Vec3f;
  PRE_aff_mode : Vec2f
}.

(** A frame as this file sees it: its index, its image [dI] through the
    two interpolation helpers (at width [wG[0]]), and its table of
    precomputed transforms towards the other frames. *)
Record FrameHessian := {
  idx : Z;
  getInterpolatedElement31 : float -> float -> float;
  getInterpolatedElement33 : float -> float -> Vec3f;
  targetPrecalc : Z -> FrameFramePrecalc
}.

Record CalibHessian := { fxl : float; fyl : float; cxl : float; cyl : float }.

Record ImmaturePoint := {
  color : list float;
  weights : list float;
  gradH : Mat22f;
  energyTH : float;
  u : float;
  v : float;
  host : FrameHessian;
  quality : float;
  my_type : float;
  idepth_min : float;
  idepth_max : float;
  lastTraceStatus : ImmaturePointStatus;
  lastTraceUV : Vec2f;
  lastTracePixelInterval : float;
  idepth_GT : float
}.

(** The energies of a candidate residual are [double] in the class
    declaration; [linearizeResidual] returns them as [double]. *)
Definition double := spec_float.

Record ImmaturePointTemporaryResidual := {
  state_state : ResState;
  state_energy : double;
  state_NewState : ResState;
  state_NewEnergy : double;
  target : FrameHessian
}.

(** Field updates. *)
Definition set_trace (p : ImmaturePoint) (uv : Vec2f) (interval : float)
    (st : ImmaturePointStatus) : ImmaturePoint :=
  {| color := color p; weights := weights p; gradH := gradH p; energyTH := energyTH p;
     u := u p; v := v p; host := host p; quality := quality p; my_type := my_type p;
     idepth_min := idepth_min p; idepth_max := idepth_max p;
     lastTraceStatus := st; lastTraceUV := uv; lastTracePixelInterval := interval;
     idepth_GT := idepth_GT p |}.

Definition set_quality (p : ImmaturePoint) (q : float) : ImmaturePoint :=
  {| color := color p; weights := weights p; gradH := gradH p; energyTH := energyTH p;
     u := u p; v := v p; host := host p; quality := q; my_type := my_type p;
     idepth_min := idepth_min p; idepth_max := idepth_max p;
     lastTraceStatus := lastTraceStatus p; lastTraceUV := lastTraceUV p;
     lastTracePixelInterval := lastTracePixelInterval p; idepth_GT := idepth_GT p |}.

Definition set_idepth (p : ImmaturePoint) (lo hi : float) : ImmaturePoint :=
  {| color := color p; weights := weights p; gradH := gradH p; energyTH := energyTH p;
     u := u p; v := v p; host := host p; quality := quality p; my_type := my_type p;
     idepth_min := lo; idepth_max := hi;
     lastTraceStatus := lastTraceStatus p; lastTraceUV := lastTraceUV p;
     lastTracePixelInterval := lastTracePixelInterval p; idepth_GT := idepth_GT p |}.

Definition set_NewState (r : ImmaturePointTemporaryResidual) (s : ResState)
    : ImmaturePointTemporaryResidual :=
  {| state_state := state_state r; state_energy := state_energy r;
     state_NewState := s; state_NewEnergy := state_NewEnergy r; target := target r |}.

Definition set_New (r : ImmaturePointTemporaryResidual) (s : ResState) (e : double)
    : ImmaturePointTemporaryResidual :=
  {| state_state := state_state r; state_energy := state_energy r;
     state_NewState := s; state_NewEnergy := e; target := target r |}.

(** Literals of the source. *)
Definition f_1e10 : float := of_int 10000000000.
Definition f_1e5 : float := of_int 100000.
Definition d_1e5 : spec_float := binary_normalize 53 1024 100000 0 false.
Definition f_half : float := lit 1 2.
Definition f_0_01 : float := of_double (SFdiv 53 1024 (binary_normalize 53 1024 1 0 false)
                                                      (binary_normalize 53 1024 100 0 false)).
Definition f_0_2 : float := lit 2 10.
Definition f_0_75 : float := lit 3 4.
Definition f_1_5 : float := lit 3 2.
Definition f_1_9999 : float := lit 19999 10000.
Definition uv_invalid : Vec2f := V2 (of_int (-1)) (of_int (-1)).

(** The Huber weight [fabs(r) < th ? 1 : th / fabs(r)]; [fabs] and
    [fabsf] are both taken at their [float] overload. *)
Definition huber_weight (G : Globals) (residual : float) : float :=
  if fabsf residual <? setting_huberTH G then one
  else setting_huberTH G / fabsf residual.

(** ** [ImmaturePoint::traceOn] *)

(** The border test [x > 4 && y > 4 && x < wG[0]-5 && y < hG[0]-5]. *)
Definition in_image (G : Globals) (x y : float) : bool :=
  (x >? of_int 4) && (y >? of_int 4) &&
  (x <? of_int (wG0 G - 5)%Z) && (y <? of_int (hG0 G - 5)%Z).

(** What every failing exit writes before it returns. *)
Definition fail_with (p : ImmaturePoint) (st : ImmaturePointStatus)
    : ImmaturePointStatus * ImmaturePoint :=
  (st, set_trace p uv_invalid zero st).

(** The values that are live after the geometric part of [traceOn]
    (the source up to the test of [dx], [dy] for finiteness). *)
Record TraceLine := {
  tl_pr : Vec3f;
  tl_uMin : float;
  tl_vMin : float;
  tl_uMax : float;
  tl_vMax : float;
  tl_dist : float;
  tl_dx : float;
  tl_dy : float;
  tl_errorInPixel : float;
  tl_maxPixSearch : float
}.

Definition pr_of (KRKi : Mat33f) (p : ImmaturePoint) : Vec3f :=
  mat33_mul_vec KRKi (V3 (u p) (v p) one).

Definition ptpMin_of (KRKi : Mat33f) (Kt : Vec3f) (p : ImmaturePoint) : Vec3f :=
  vec3_add (pr_of KRKi p) (vec3_scale Kt (idepth_min p)).

Definition ptpMax_of (KRKi : Mat33f) (Kt : Vec3f) (p : ImmaturePoint) : Vec3f :=
  vec3_add (pr_of KRKi p) (vec3_scale Kt (idepth_max p)).

Definition uMin_of KRKi Kt p : float := v3x (ptpMin_of KRKi Kt p) / v3z (ptpMin_of KRKi Kt p).
Definition vMin_of KRKi Kt p : float := v3y (ptpMin_of KRKi Kt p) / v3z (ptpMin_of KRKi Kt p).
Definition uMax_of KRKi Kt p : float := v3x (ptpMax_of KRKi Kt p) / v3z (ptpMax_of KRKi Kt p).
Definition vMax_of KRKi Kt p : float := v3y (ptpMax_of KRKi Kt p) / v3z (ptpMax_of KRKi Kt p).

(** Pixel distance between the two projected end points. *)
Definition endpoint_dist KRKi Kt p : float :=
  let uMin := uMin_of KRKi Kt p in
  let vMin := vMin_of KRKi Kt p in
  let uMax := uMax_of KRKi Kt p in
  let vMax := vMax_of KRKi Kt p in
  sqrtf ((uMin - uMax) * (uMin - uMax) + (vMin - vMax) * (vMin - vMax)).

(** The test "scale change too big", negated as in the source. *)
Definition scale_ok KRKi Kt p : bool :=
  (idepth_min p <? zero) ||
  ((v3z (ptpMin_of KRKi Kt p) >? f_0_75) && (v3z (ptpMin_of KRKi Kt p) <? f_1_5)).

(** End of the search segment: the projection at [idepth_max] when it is
    finite, else a point at [maxPixSearch] along the epipolar direction.
    [inl] is an early return. *)
Definition trace_endpoint (G : Globals) (KRKi : Mat33f) (Kt : Vec3f) (p : ImmaturePoint)
    : (ImmaturePointStatus * ImmaturePoint) + (float * float * float) :=
  let maxPixSearch := of_int (wG0 G + hG0 G)%Z * setting_maxPixSearch G in
  let pr := pr_of KRKi p in
  let uMin := uMin_of KRKi Kt p in
  let vMin := vMin_of KRKi Kt p in
  if isfinite (idepth_max p) then
    let uMax := uMax_of KRKi Kt p in
    let vMax := vMax_of KRKi Kt p in
    if negb (in_image G uMax vMax) then inl (fail_with p IPS_OOB)
    else
      let dist := endpoint_dist KRKi Kt p in
      if dist <? setting_trace_slackInterval G then
        inl (IPS_SKIPPED,
             set_trace p (vec2_scale (V2 (uMax + uMin) (vMax + vMin)) f_half) dist IPS_SKIPPED)
      else inr (dist, uMax, vMax)
  else
    let dist := maxPixSearch in
    let ptpMax := vec3_add pr (vec3_scale Kt f_0_01) in
    let uMax := v3x ptpMax / v3z ptpMax in
    let vMax := v3y ptpMax / v3z ptpMax in
    let dx := uMax - uMin in
    let dy := vMax - vMin in
    let d := one / sqrtf (dx * dx + dy * dy) in
    let uMax := uMin + dist * dx * d in
    let vMax := vMin + dist * dy * d in
    if negb (in_image G uMax vMax) then inl (fail_with p IPS_OOB)
    else inr (dist, uMax, vMax).

(** The geometric part of [traceOn], after the test on the terminal
    status: projections, border tests, skip, scale test, error bound,
    bad-condition exit, clamping of the segment, test of the direction. *)
Definition trace_line (G : Globals) (KRKi : Mat33f) (Kt : Vec3f) (p : ImmaturePoint)
    : (ImmaturePointStatus * ImmaturePoint) + TraceLine :=
  let maxPixSearch := of_int (wG0 G + hG0 G)%Z * setting_maxPixSearch G in
  let uMin := uMin_of KRKi Kt p in
  let vMin := vMin_of KRKi Kt p in
  if negb (in_image G uMin vMin) then inl (fail_with p IPS_OOB)
  else
    match trace_endpoint G KRKi Kt p with
    | inl r => inl r
    | inr (dist, uMax, vMax) =>
        if negb (scale_ok KRKi Kt p) then inl (fail_with p IPS_OOB)
        else
          let dx := setting_trace_stepsize G * (uMax - uMin) in
          let dy := setting_trace_stepsize G * (vMax - vMin) in
          let a := quad_form (gradH p) (V2 dx dy) in
          let b := quad_form (gradH p) (V2 dy (- dx)) in
          let errorInPixel := f_0_2 + f_0_2 * (a + b) / a in
          if (errorInPixel * setting_trace_minImprovementFactor G >? dist)
             && isfinite (idepth_max p) then
            inl (IPS_BADCONDITION,
                 set_trace p (vec2_scale (V2 (uMax + uMin) (vMax + vMin)) f_half) dist
                           IPS_BADCONDITION)
          else
            let errorInPixel := if errorInPixel >? of_int 10 then of_int 10 else errorInPixel in
            let dx := dx / dist in
            let dy := dy / dist in
            let '(uMax, vMax, dist) :=
              if dist >? maxPixSearch
              then (uMin + maxPixSearch * dx, vMin + maxPixSearch * dy, maxPixSearch)
              else (uMax, vMax, dist) in
            if negb (isfinite dx) || negb (isfinite dy) then inl (fail_with p IPS_OOB)
            else
              inr {| tl_pr := pr_of KRKi p; tl_uMin := uMin; tl_vMin := vMin;
                     tl_uMax := uMax; tl_vMax := vMax; tl_dist := dist;
                     tl_dx := dx; tl_dy := dy; tl_errorInPixel := errorInPixel;
                     tl_maxPixSearch := maxPixSearch |}
    end.

(** [rotatetPattern[idx] = Rplane * Vec2f(patternP[idx][0], patternP[idx][1])] *)
Definition rotatetPattern (KRKi : Mat33f) : list Vec2f :=
  map (fun d : Z * Z => mat22_mul_vec (topLeftCorner22 KRKi) (V2 (of_int (fst d)) (of_int (snd d))))
      patternP.

Definition nth_f (l : list float) (i : nat) : float := nth i l zero.
Definition nth_v2 (l : list Vec2f) (i : nat) : Vec2f := nth i l (V2 zero zero).

(** [hw*residual*residual*(2-hw)] *)
Definition huber_energy (G : Globals) (residual : float) : float :=
  let hw := huber_weight G residual in
  hw * residual * residual * (of_int 2 - hw).

(** One pass of the inner loop of the discrete search at [(ptx, pty)]. *)
Definition step_energy (G : Globals) (frame : FrameHessian) (KRKi : Mat33f) (aff : Vec2f)
    (p : ImmaturePoint) (ptx pty : float) : float :=
  fold_left
    (fun energy i =>
       let hitColor := getInterpolatedElement31 frame
                         (ptx + v2x (nth_v2 (rotatetPattern KRKi) i))
                         (pty + v2y (nth_v2 (rotatetPattern KRKi) i)) in
       if negb (isfinite hitColor) then fadd_dbl energy d_1e5
       else
         let residual := hitColor - (v2x aff * nth_f (color p) i + v2y aff) in
         energy + huber_energy G residual)
    (seq 0 patternNum) zero.

(** State of the discrete search loop. *)
Record SearchState := {
  ss_ptx : float;
  ss_pty : float;
  ss_bestU : float;
  ss_bestV : float;
  ss_bestEnergy : float;
  ss_bestIdx : Z;
  ss_errors : list float        (* errors[0..i-1] *)
}.

Definition search_step (G : Globals) (frame : FrameHessian) (KRKi : Mat33f) (aff : Vec2f)
    (p : ImmaturePoint) (dx dy : float) (s : SearchState) (i : nat) : SearchState :=
  let energy := step_energy G frame KRKi aff p (ss_ptx s) (ss_pty s) in
  let better := energy <? ss_bestEnergy s in
  {| ss_ptx := ss_ptx s + dx;
     ss_pty := ss_pty s + dy;
     ss_bestU := if better then ss_ptx s else ss_bestU s;
     ss_bestV := if better then ss_pty s else ss_bestV s;
     ss_bestEnergy := if better then energy else ss_bestEnergy s;
     ss_bestIdx := if better then Z.of_nat i else ss_bestIdx s;
     ss_errors := ss_errors s ++ [energy] |}.

(** [numSteps], with the cap at 99. *)
Definition numSteps_of (G : Globals) (dist : float) : Z :=
  let n := to_int (f_1_9999 + dist / setting_trace_stepsize G) in
  if (100 <=? n)%Z then 99%Z else n.

Definition discrete_search (G : Globals) (frame : FrameHessian) (KRKi : Mat33f) (aff : Vec2f)
    (p : ImmaturePoint) (l : TraceLine) : SearchState :=
  let randShift := tl_uMin l * of_int 1000 - floorf (tl_uMin l * of_int 1000) in
  fold_left (search_step G frame KRKi aff p (tl_dx l) (tl_dy l))
    (seq 0 (Z.to_nat (numSteps_of G (tl_dist l))))
    {| ss_ptx := tl_uMin l - randShift * tl_dx l;
       ss_pty := tl_vMin l - randShift * tl_dy l;
       ss_bestU := zero; ss_bestV := zero; ss_bestEnergy := f_1e10;
       ss_bestIdx := (-1)%Z; ss_errors := [] |}.

(** Best score outside the radius around [bestIdx]. *)
Definition secondBest_of (G : Globals) (bestIdx : Z) (errors : list float) (numSteps : Z) : float :=
  fold_left
    (fun secondBest i =>
       if ((Z.of_nat i <? bestIdx - setting_minTraceTestRadius G)%Z
           || (Z.of_nat i >? bestIdx + setting_minTraceTestRadius G)%Z)
          && (nth_f errors i <? secondBest)
       then nth_f errors i else secondBest)
    (seq 0 (Z.to_nat numSteps)) f_1e10.

Definition newQuality_of (G : Globals) (frame : FrameHessian) (KRKi : Mat33f) (aff : Vec2f)
    (p : ImmaturePoint) (l : TraceLine) : float :=
  let s := discrete_search G frame KRKi aff p l in
  secondBest_of G (ss_bestIdx s) (ss_errors s) (numSteps_of G (tl_dist l)) / ss_bestEnergy s.

(** [if (newQuality < quality || numSteps > 10) quality = newQuality] *)
Definition quality_update (quality newQuality : float) (numSteps : Z) : float :=
  if (newQuality <? quality) || (numSteps >? 10)%Z then newQuality else quality.

(** State of the Gauss-Newton loop. *)
Record GNState := {
  gn_bestU : float;
  gn_bestV : float;
  gn_bestEnergy : float;
  gn_uBak : float;
  gn_vBak : float;
  gn_stepBack : float
}.

(** The inner loop of one Gauss-Newton iteration: [(H, b, energy)]. *)
Definition gn_accumulate (G : Globals) (frame : FrameHessian) (KRKi : Mat33f) (aff : Vec2f)
    (p : ImmaturePoint) (dx dy bestU bestV : float) : float * float * float :=
  fold_left
    (fun (acc : float * float * float) i =>
       let '(H, b, energy) := acc in
       let hitColor := getInterpolatedElement33 frame
                         (bestU + v2x (nth_v2 (rotatetPattern KRKi) i))
                         (bestV + v2y (nth_v2 (rotatetPattern KRKi) i)) in
       if negb (isfinite (v3x hitColor)) then (H, b, fadd_dbl energy d_1e5)
       else
         let residual := v3x hitColor - (v2x aff * nth_f (color p) i + v2y aff) in
         let dResdDist := dx * v3y hitColor + dy * v3z hitColor in
         let hw := huber_weight G residual in
         (H + hw * dResdDist * dResdDist,
          b + hw * residual * dResdDist,
          energy + nth_f (weights p) i * nth_f (weights p) i * hw * residual * residual
                   * (of_int 2 - hw)))
    (seq 0 patternNum) (one, zero, zero).

Definition gn_step (G : Globals) (frame : FrameHessian) (KRKi : Mat33f) (aff : Vec2f)
    (p : ImmaturePoint) (dx dy : float) (s : GNState) : GNState :=
  let '(H, b, energy) := gn_accumulate G frame KRKi aff p dx dy (gn_bestU s) (gn_bestV s) in
  if energy >? gn_bestEnergy s then
    let stepBack := gn_stepBack s * f_half in
    {| gn_bestU := gn_uBak s + stepBack * dx;
       gn_bestV := gn_vBak s + stepBack * dy;
       gn_bestEnergy := gn_bestEnergy s;
       gn_uBak := gn_uBak s; gn_vBak := gn_vBak s;
       gn_stepBack := stepBack |}
  else
    let step := (- one) * b / H in
    let step := if step <? - f_half then - f_half
                else if step >? f_half then f_half else step in
    let step := if negb (isfinite step) then zero else step in
    {| gn_bestU := gn_bestU s + step * dx;
       gn_bestV := gn_bestV s + step * dy;
       gn_bestEnergy := energy;
       gn_uBak := gn_bestU s; gn_vBak := gn_bestV s;
       gn_stepBack := step |}.

(** [for (it = 0; it < n; it++) { ...; if (fabsf(stepBack) < GNThreshold) break; }] *)
Fixpoint gn_loop (G : Globals) (frame : FrameHessian) (KRKi : Mat33f) (aff : Vec2f)
    (p : ImmaturePoint) (dx dy : float) (n : nat) (s : GNState) : GNState :=
  match n with
  | O => s
  | S n' =>
      let s' := gn_step G frame KRKi aff p dx dy s in
      if fabsf (gn_stepBack s') <? setting_trace_GNThreshold G then s'
      else gn_loop G frame KRKi aff p dx dy n' s'
  end.

Definition gn_refine (G : Globals) (frame : FrameHessian) (KRKi : Mat33f) (aff : Vec2f)
    (p : ImmaturePoint) (l : TraceLine) : GNState :=
  let s := discrete_search G frame KRKi aff p l in
  gn_loop G frame KRKi aff p (tl_dx l) (tl_dy l)
    (Z.to_nat (setting_trace_GNIterations G))
    {| gn_bestU := ss_bestU s; gn_bestV := ss_bestV s;
       gn_bestEnergy := if (setting_trace_GNIterations G >? 0)%Z then f_1e5 else ss_bestEnergy s;
       gn_uBak := ss_bestU s; gn_vBak := ss_bestV s;
       gn_stepBack := zero |}.

(** The interval computed from the refined position: the dominant axis
    decides which coordinate is inverted; the bounds are swapped when
    they come out in the wrong order. *)
Definition new_interval (Kt : Vec3f) (l : TraceLine) (bestU bestV : float) : float * float :=
  let pr := tl_pr l in
  let dx := tl_dx l in
  let dy := tl_dy l in
  let e := tl_errorInPixel l in
  let '(lo, hi) :=
    if dx * dx >? dy * dy then
      ((v3z pr * (bestU - e * dx) - v3x pr) / (v3x Kt - v3z Kt * (bestU - e * dx)),
       (v3z pr * (bestU + e * dx) - v3x pr) / (v3x Kt - v3z Kt * (bestU + e * dx)))
    else
      ((v3z pr * (bestV - e * dy) - v3y pr) / (v3y Kt - v3z Kt * (bestV - e * dy)),
       (v3z pr * (bestV + e * dy) - v3y pr) / (v3y Kt - v3z Kt * (bestV + e * dy))) in
  if lo >? hi then (hi, lo) else (lo, hi).

(** The test that rejects the new interval. *)
Definition interval_invalid (lo hi : float) : bool :=
  negb (isfinite lo) || negb (isfinite hi) || (hi <? zero).

(** The end of [traceOn]: energy test, new interval, final status.  [p] is
    the point with its quality already updated. *)
Definition trace_finish (G : Globals) (Kt : Vec3f) (p : ImmaturePoint) (l : TraceLine)
    (g : GNState) : ImmaturePointStatus * ImmaturePoint :=
  if negb (gn_bestEnergy g <? energyTH p * setting_trace_extraSlackOnTH G) then
    if status_eqb (lastTraceStatus p) IPS_OUTLIER
    then fail_with p IPS_OOB
    else fail_with p IPS_OUTLIER
  else
    let '(lo, hi) := new_interval Kt l (gn_bestU g) (gn_bestV g) in
    let p' := set_idepth p lo hi in
    if interval_invalid lo hi then fail_with p' IPS_OUTLIER
    else
      (IPS_GOOD,
       set_trace p' (V2 (gn_bestU g) (gn_bestV g)) (of_int 2 * tl_errorInPixel l) IPS_GOOD).

(** The point as [traceOn] has it when it reaches the energy test: the
    quality is already updated. *)
Definition with_quality (G : Globals) (frame : FrameHessian) (KRKi : Mat33f) (aff : Vec2f)
    (p : ImmaturePoint) (l : TraceLine) : ImmaturePoint :=
  set_quality p (quality_update (quality p) (newQuality_of G frame KRKi aff p l)
                   (numSteps_of G (tl_dist l))).

Definition traceOn (G : Globals) (frame : FrameHessian) (hostToFrame_KRKi : Mat33f)
    (hostToFrame_Kt : Vec3f) (hostToFrame_affine : Vec2f) (p : ImmaturePoint)
    : ImmaturePointStatus * ImmaturePoint :=
  if status_eqb (lastTraceStatus p) IPS_OOB then (lastTraceStatus p, p)
  else
    match trace_line G hostToFrame_KRKi hostToFrame_Kt p with
    | inl r => r
    | inr l =>
        trace_finish G hostToFrame_Kt
          (with_quality G frame hostToFrame_KRKi hostToFrame_affine p l) l
          (gn_refine G frame hostToFrame_KRKi hostToFrame_affine p l)
    end.

(** ** Residual evaluation: [getdPixdd], [calcResidual], [linearizeResidual] *)

(** The reference parameters [projectPoint] writes. *)
Record ProjOut := {
  po_drescale : float;
  po_u : float;
  po_v : float;
  po_Ku : float;
  po_Kv : float;
  po_KliP : Vec3f;
  po_new_idepth : float
}.

(** A local declared without initialiser; the model gives it NaN. *)
Definition uninit : float := NAN.

Definition nth_pat (i : nat) : Z * Z := nth i patternP (0%Z, 0%Z).

Section Residuals.

(** [projectPoint(u_pt, v_pt, idepth, KRKi, Kt, Ku, Kv)]: success flag
    and the two coordinates written. *)
Variable projectPoint_K : float -> float -> float -> Mat33f -> Vec3f -> bool * float * float.

(** [projectPoint(u_pt, v_pt, idepth, dx, dy, HCalib, R, t, drescale, u,
    v, Ku, Kv, KliP, new_idepth)]: the last argument holds the reference
    parameters as they are on entry, the result as they are on exit. *)
Variable projectPoint :
  float -> float -> float -> Z -> Z -> CalibHessian -> Mat33f -> Vec3f ->
  ProjOut -> bool * ProjOut.

(** [derive_idepth(t, u, v, dx, dy, dxInterp, dyInterp, drescale)] *)
Variable derive_idepth :
  Vec3f -> float -> float -> Z -> Z -> float -> float -> float -> float.

Definition precalc_of (p : ImmaturePoint) (tmpRes : ImmaturePointTemporaryResidual) : FrameFramePrecalc :=
  targetPrecalc (host p) (idx (target tmpRes)).

(** The two functions below only read the objects they can reach, the
    point itself ([this]) and the candidate residual they are handed.
    They are written in a state monad over these objects, so that "reads
    only" is a property of the model and not of its type. *)
Definition Objects : Type := ImmaturePoint * ImmaturePointTemporaryResidual.

Definition Method (A : Type) : Type := Objects -> A * Objects.

Definition ret {A : Type} (a : A) : Method A := fun s => (a, s).

Definition bind {A B : Type} (m : Method A) (k : A -> Method B) : Method B :=
  fun s => let '(a, s') := m s in k a s'.

(** [*this] and [*tmpRes] *)
Definition this : Method ImmaturePoint := fun s => (fst s, s).
Definition the_tmpRes : Method ImmaturePointTemporaryResidual := fun s => (snd s, s).

Notation "x <- m ;; k" := (bind m (fun x => k))
  (at level 61, m at next level, right associativity).

(** The reference parameters as [projectPoint] leaves them in
    [getdPixdd]: [u] and [v] start at 0, the others are not initialised. *)
Definition getdPixdd_projection (HCalib : CalibHessian) (p : ImmaturePoint)
    (tmpRes : ImmaturePointTemporaryResidual) (idepth : float) : ProjOut :=
  let precalc := precalc_of p tmpRes in
  snd (projectPoint (u p) (v p) idepth 0 0 HCalib (PRE_RTll precalc) (PRE_tTll precalc)
         {| po_drescale := uninit; po_u := zero; po_v := zero;
            po_Ku := uninit; po_Kv := uninit;
            po_KliP := V3 uninit uninit uninit; po_new_idepth := uninit |}).

Definition getdPixdd (HCalib : CalibHessian) (idepth : float) : Method float :=
  p <- this ;;
  tmpRes <- the_tmpRes ;;
  let t := PRE_tTll (precalc_of p tmpRes) in
  let out := getdPixdd_projection HCalib p tmpRes idepth in
  let dxdd := (v3x t - v3z t * po_u out) * fxl HCalib in
  let dydd := (v3y t - v3z t * po_v out) * fyl HCalib in
  ret (po_drescale out * sqrtf (dxdd * dxdd + dydd * dydd)).

(** The loop of [calcResidual] over the pattern indices still to do;
    [None] is the early [return 1e10]. *)
Fixpoint calcResidual_loop (HCalib : CalibHessian) (G : Globals) (idepth : float)
    (idxs : list nat) (energyLeft : float) : Method (option float) :=
  match idxs with
  | [] => ret (Some energyLeft)
  | i :: rest =>
      p <- this ;;
      tmpRes <- the_tmpRes ;;
      let precalc := precalc_of p tmpRes in
      let affLL := PRE_aff_mode precalc in
      let '(ok, Ku, Kv) :=
        projectPoint_K (u p + of_int (fst (nth_pat i))) (v p + of_int (snd (nth_pat i)))
                       idepth (PRE_KRKiTll precalc) (PRE_KtTll precalc) in
      if negb ok then ret None
      else
        let hitColor := getInterpolatedElement33 (target tmpRes) Ku Kv in
        if negb (isfinite (v3x hitColor)) then ret None
        else
          let residual := v3x hitColor - (v2x affLL * nth_f (color p) i + v2y affLL) in
          let hw := huber_weight G residual in
          calcResidual_loop HCalib G idepth rest
            (energyLeft + nth_f (weights p) i * nth_f (weights p) i * hw * residual * residual
                          * (of_int 2 - hw))
  end.

Definition calcResidual (HCalib : CalibHessian) (G : Globals) (outlierTHSlack : float)
    (idepth : float) : Method float :=
  r <- calcResidual_loop HCalib G idepth (seq 0 patternNum) zero ;;
  p <- this ;;
  match r with
  | None => ret f_1e10
  | Some energyLeft =>
      ret (if energyLeft >? energyTH p * outlierTHSlack
           then energyTH p * outlierTHSlack
           else energyLeft)
  end.

(** The accumulators of [linearizeResidual]: the local [energyLeft] and
    the two reference parameters. *)
Record LinAcc := { la_energyLeft : float; la_Hdd : float; la_bd : float }.

(** The loop of [linearizeResidual]; [inl] is the early return, with the
    accumulators as they are at that moment. *)
Fixpoint linearize_loop (HCalib : CalibHessian) (G : Globals) (p : ImmaturePoint)
    (tmpRes : ImmaturePointTemporaryResidual) (idepth : float) (idxs : list nat) (acc : LinAcc)
    : LinAcc + LinAcc :=
  match idxs with
  | [] => inr acc
  | i :: rest =>
      let precalc := precalc_of p tmpRes in
      let affLL := PRE_aff_mode precalc in
      let dx := fst (nth_pat i) in
      let dy := snd (nth_pat i) in
      let '(ok, out) :=
        projectPoint (u p) (v p) idepth dx dy HCalib (PRE_RTll precalc) (PRE_tTll precalc)
          {| po_drescale := uninit; po_u := uninit; po_v := uninit;
             po_Ku := uninit; po_Kv := uninit;
             po_KliP := V3 uninit uninit uninit; po_new_idepth := uninit |} in
      if negb ok then inl acc
      else
        let hitColor := getInterpolatedElement33 (target tmpRes) (po_Ku out) (po_Kv out) in
        if negb (isfinite (v3x hitColor)) then inl acc
        else
          let residual := v3x hitColor - (v2x affLL * nth_f (color p) i + v2y affLL) in
          let hw := huber_weight G residual in
          let energyLeft :=
            la_energyLeft acc
            + nth_f (weights p) i * nth_f (weights p) i * hw * residual * residual
              * (of_int 2 - hw) in
          let dxInterp := v3y hitColor * fxl HCalib in
          let dyInterp := v3z hitColor * fyl HCalib in
          let d_idepth := derive_idepth (PRE_tTll precalc) (po_u out) (po_v out) dx dy
                            dxInterp dyInterp (po_drescale out) in
          let hw := hw * (nth_f (weights p) i * nth_f (weights p) i) in
          linearize_loop HCalib G p tmpRes idepth rest
            {| la_energyLeft := energyLeft;
               la_Hdd := la_Hdd acc + (hw * d_idepth) * d_idepth;
               la_bd := la_bd acc + (hw * residual) * d_idepth |}
  end.

(** The result of a call: the value returned, the candidate residual
    and the two reference parameters as the call leaves them. *)
Record LinResult := {
  lr_ret : double;
  lr_tmpRes : ImmaturePointTemporaryResidual;
  lr_Hdd : float;
  lr_bd : float
}.

Definition linearizeResidual (HCalib : CalibHessian) (G : Globals) (outlierTHSlack : float)
    (p : ImmaturePoint) (tmpRes : ImmaturePointTemporaryResidual) (Hdd bd : float) (idepth : float) : LinResult :=
  match state_state tmpRes with
  | ResState_OOB =>
      {| lr_ret := state_energy tmpRes;
         lr_tmpRes := set_NewState tmpRes ResState_OOB;
         lr_Hdd := Hdd; lr_bd := bd |}
  | _ =>
      match linearize_loop HCalib G p tmpRes idepth (seq 0 patternNum)
              {| la_energyLeft := zero; la_Hdd := Hdd; la_bd := bd |} with
      | inl acc =>
          {| lr_ret := state_energy tmpRes;
             lr_tmpRes := set_NewState tmpRes ResState_OOB;
             lr_Hdd := la_Hdd acc; lr_bd := la_bd acc |}
      | inr acc =>
          let over := la_energyLeft acc >? energyTH p * outlierTHSlack in
          let energyLeft := if over then energyTH p * outlierTHSlack else la_energyLeft acc in
          {| lr_ret := to_double energyLeft;
             lr_tmpRes := set_New tmpRes (if over then ResState_OUTLIER else ResState_IN)
                                     (to_double energyLeft);
             lr_Hdd := la_Hdd acc; lr_bd := la_bd acc |}
      end
  end.

(** Whether offset [i] goes through in [linearizeResidual]: the
    projection succeeds and the sampled intensity is finite. *)
Definition offset_ok (HCalib : CalibHessian) (p : ImmaturePoint)
    (tmpRes : ImmaturePointTemporaryResidual) (idepth : float) (i : nat) : bool :=
  let precalc := precalc_of p tmpRes in
  let '(ok, out) :=
    projectPoint (u p) (v p) idepth (fst (nth_pat i)) (snd (nth_pat i)) HCalib
      (PRE_RTll precalc) (PRE_tTll precalc)
      {| po_drescale := uninit; po_u := uninit; po_v := uninit;
         po_Ku := uninit; po_Kv := uninit;
         po_KliP := V3 uninit uninit uninit; po_new_idepth := uninit |} in
  ok && isfinite (v3x (getInterpolatedElement33 (target tmpRes) (po_Ku out) (po_Kv out))).

(** The projection of the pixel "centre plus offset [i]" in
    [calcResidual] fails. *)
Definition offset_projection_fails (p : ImmaturePoint)
    (tmpRes : ImmaturePointTemporaryResidual) (idepth : float) (i : nat) : Prop :=
  fst (fst (projectPoint_K (u p + of_int (fst (nth_pat i))) (v p + of_int (snd (nth_pat i)))
              idepth (PRE_KRKiTll (precalc_of p tmpRes)) (PRE_KtTll (precalc_of p tmpRes))))
  = false.

End Residuals.

(** ** A concrete scene

    The inputs on which the statements below are exercised: a 640 x 480
    image, the settings with the values the comments of the source give
    them (and a Huber threshold of 9), target frames of constant
    intensity, and a point at pixel (100, 100) whose fingerprint is the
    constant 50. *)

Module Scene.

Definition G0 : Globals := {|
  wG0 := 640; hG0 := 480;
  setting_maxPixSearch := lit 27 1000;
  setting_trace_stepsize := of_int 1;
  setting_trace_GNIterations := 3;
  setting_trace_GNThreshold := lit 1 10;
  setting_trace_extraSlackOnTH := lit 12 10;
  setting_trace_slackInterval := lit 8 10;
  setting_trace_minImprovementFactor := of_int 2;
  setting_minTraceTestRadius := 2;
  setting_huberTH := of_int 9 |}.

Definition Id33 : Mat33f := M33 (V3 one zero zero) (V3 zero one zero) (V3 zero zero one).
Definition Id22 : Mat22f := M22 (V2 one zero) (V2 zero one).
Definition Zero22 : Mat22f := M22 (V2 zero zero) (V2 zero zero).

(** A translation along the optical axis (and slightly sideways),
    premultiplied by a calibration with principal point (100, 100): a
    point at inverse depth 1 ends at depth component 2. *)
Definition Kt_backward : Vec3f := V3 (of_int 101) (of_int 100) one.

Definition precalc0 (t : Vec3f) : FrameFramePrecalc :=
  {| PRE_RTll := Id33; PRE_tTll := t; PRE_KRKiTll := Id33; PRE_KtTll := t;
     PRE_aff_mode := V2 one zero |}.

(** A frame of constant intensity [c] and constant gradient [(gx, gy)];
    [t] is the translation of its precomputed transforms. *)
Definition flat (c gx gy : float) (t : Vec3f) : FrameHessian :=
  {| idx := 1;
     getInterpolatedElement31 := fun _ _ => c;
     getInterpolatedElement33 := fun _ _ => V3 c gx gy;
     targetPrecalc := fun _ => precalc0 t |}.

Definition tx : Vec3f := V3 one zero zero.
Definition t0 : Vec3f := V3 zero zero zero.

Definition point_at (x y : Z) (g : Mat22f) (lo hi : float) (st : ImmaturePointStatus)
    : ImmaturePoint :=
  {| color := repeat (of_int 50) 8; weights := repeat one 8; gradH := g;
     energyTH := of_int 1152; u := of_int x; v := of_int y;
     host := flat (of_int 50) zero zero tx;
     quality := of_int 10000; my_type := one; idepth_min := lo; idepth_max := hi;
     lastTraceStatus := st; lastTraceUV := V2 zero zero;
     lastTracePixelInterval := zero; idepth_GT := zero |}.

Definition fresh_point : ImmaturePoint := point_at 100 100 Id22 zero NAN IPS_UNINITIALIZED.

Definition set_host (p : ImmaturePoint) (h : FrameHessian) : ImmaturePoint :=
  {| color := color p; weights := weights p; gradH := gradH p; energyTH := energyTH p;
     u := u p; v := v p; host := h; quality := quality p; my_type := my_type p;
     idepth_min := idepth_min p; idepth_max := idepth_max p;
     lastTraceStatus := lastTraceStatus p; lastTraceUV := lastTraceUV p;
     lastTracePixelInterval := lastTracePixelInterval p; idepth_GT := idepth_GT p |}.

(** The same point when host and target have the same pose. *)
Definition still_point : ImmaturePoint := set_host fresh_point (flat (of_int 50) zero zero t0).

(** The same point when the target camera has moved two units forward
    (and one sideways): at inverse depth 1 the point lies behind it. *)
Definition t_passed : Vec3f := V3 one zero (of_int (-2)).
Definition passed_point : ImmaturePoint :=
  set_host fresh_point (flat (of_int 50) zero zero t_passed).

(** A point two pixels from the border region: the offset (-2, 0),
    fourth in the pattern, projects onto the border. *)
Definition border_point : ImmaturePoint := point_at 6 100 Id22 zero NAN IPS_UNINITIALIZED.

Definition aff0 : Vec2f := V2 one zero.

Definition calib0 : CalibHessian :=
  {| fxl := one; fyl := one; cxl := zero; cyl := zero |}.

Definition tmpRes0 (fr : FrameHessian) : ImmaturePointTemporaryResidual :=
  {| state_state := ResState_IN; state_energy := zero;
     state_NewState := ResState_IN; state_NewEnergy := zero; target := fr |}.

(** Modelled from the spec: the seven-argument [projectPoint] of
    [ResidualProjections.h] is not in the source file.  The target point
    is [KRKi * [u, v, 1] + Kt * idepth] divided by its depth; the
    projection fails when it leaves the valid image region. *)
Definition pinhole_K (u_pt v_pt idepth : float) (KRKi : Mat33f) (Kt : Vec3f)
    : bool * float * float :=
  let ptp := vec3_add (mat33_mul_vec KRKi (V3 u_pt v_pt one)) (vec3_scale Kt idepth) in
  let Ku := v3x ptp / v3z ptp in
  let Kv := v3y ptp / v3z ptp in
  (in_image G0 Ku Kv, Ku, Kv).

(** Modelled from the spec: the thirteen-argument [projectPoint] is not
    in the source file.  The pixel plus offset is taken to the image
    plane, transformed by [R] and [t * idepth], rescaled by the inverse of
    its depth and taken back to pixels; every reference parameter is
    written. *)
Definition pinhole (u_pt v_pt idepth : float) (dx dy : Z) (HCalib : CalibHessian)
    (R : Mat33f) (t : Vec3f) (out : ProjOut) : bool * ProjOut :=
  let KliP := V3 ((u_pt + of_int dx - cxl HCalib) / fxl HCalib)
                 ((v_pt + of_int dy - cyl HCalib) / fyl HCalib) one in
  let ptp := vec3_add (mat33_mul_vec R KliP) (vec3_scale t idepth) in
  let drescale := one / v3z ptp in
  let pu := v3x ptp * drescale in
  let pv := v3y ptp * drescale in
  let Ku := pu * fxl HCalib + cxl HCalib in
  let Kv := pv * fyl HCalib + cyl HCalib in
  ((drescale >? zero) && in_image G0 Ku Kv,
   {| po_drescale := drescale; po_u := pu; po_v := pv; po_Ku := Ku; po_Kv := Kv;
      po_KliP := KliP; po_new_idepth := idepth * drescale |}).

(** Modelled from the spec: [derive_idepth] is not in the source file.
    The image-plane gradient is combined with the rescale factor and the
    sensitivities of the projection to the inverse depth. *)
Definition derive_idepth0 (t : Vec3f) (pu pv : float) (dx dy : Z)
    (dxInterp dyInterp drescale : float) : float :=
  dxInterp * drescale * (v3x t - v3z t * pu) + dyInterp * drescale * (v3y t - v3z t * pv).

End Scene.

(** ** Signs

    [nonneg x]: [x] is NaN or its sign bit is clear.  A number with
    [nonneg x] is not below zero. *)
Definition nonneg (x : spec_float) : bool :=
  match x with
  | S754_nan => true
  | S754_zero s | S754_infinity s | S754_finite s _ _ => negb s
  end.

(** The sign bit, when there is one. *)
Definition sign_of (x : spec_float) : option bool :=
  match x with
  | S754_nan => None
  | S754_zero s | S754_infinity s | S754_finite s _ _ => Some s
  end.

(** [is_zero x]: [x] is one of the two zeros; [zero_or_nan x]: [x] is a
    zero or NaN. *)
Definition is_zero (x : spec_float) : bool :=
  match x with
  | S754_zero _ => true
  | _ => false
  end.

Definition zero_or_nan (x : spec_float) : bool :=
  match x with
  | S754_zero _ | S754_nan => true
  | _ => false
  end.

(** The translation between host and target is zero. *)
Definition at_rest (t : Vec3f) : bool :=
  is_zero (v3x t) && is_zero (v3y t) && is_zero (v3z t).

(** ** Canonical numbers and sequences of calls

    [valid x]: [x] is a binary32 number in canonical form (24 bits of
    mantissa at most, exponent in range), as every number stored in a
    [float] is. *)
Definition valid (x : float) : bool := valid_binary prec emax x.

(** One call of [traceOn]: the target frame and the transform given. *)
Record TraceCall := {
  tc_frame : FrameHessian;
  tc_KRKi : Mat33f;
  tc_Kt : Vec3f;
  tc_affine : Vec2f
}.

Definition trace_call (G : Globals) (c : TraceCall) (p : ImmaturePoint)
    : ImmaturePointStatus * ImmaturePoint :=
  traceOn G (tc_frame c) (tc_KRKi c) (tc_Kt c) (tc_affine c) p.

(** The point after a sequence of calls, in order. *)
Definition trace_run (G : Globals) (calls : list TraceCall) (p : ImmaturePoint) : ImmaturePoint :=
  fold_left (fun q c => snd (trace_call G c q)) calls p.

(** The data of a call are canonical numbers: the intensities the target
    image returns and the two brightness parameters. *)
Definition call_valid (c : TraceCall) : Prop :=
  (forall x y, valid (getInterpolatedElement31 (tc_frame c) x y) = true) /\
  valid (v2x (tc_affine c)) = true /\ valid (v2y (tc_affine c)) = true.

(** The fingerprint of a point is made of canonical numbers. *)
Definition colors_valid (p : ImmaturePoint) : Prop :=
  forall i, valid (nth_f (color p) i) = true.

(** The Huber threshold is a canonical positive number. *)
Definition huber_valid (G : Globals) : Prop :=
  valid (setting_huberTH G) = true /\ (setting_huberTH G >? zero) = true.

(** Further inputs: a target image whose intensity is the column
    number, and calls on it. *)
Definition ramp_intensity (x : float) : float := if valid x then x else zero.

Definition ramp : FrameHessian :=
  {| idx := 2;
     getInterpolatedElement31 := fun x _ => ramp_intensity x;
     getInterpolatedElement33 := fun x _ => V3 (ramp_intensity x) one zero;
     targetPrecalc := fun _ => Scene.precalc0 Scene.tx |}.

Definition ramp_call : TraceCall :=
  {| tc_frame := ramp; tc_KRKi := Scene.Id33; tc_Kt := Scene.tx; tc_affine := Scene.aff0 |}.

(** ** The constructor [ImmaturePoint::ImmaturePoint] *)

(** The three settings the constructor reads. *)
Record PointSettings := {
  setting_outlierTHSumComponent : float;
  setting_outlierTH : float;
  setting_overallEnergyTHWeight : float
}.

(** [a[i] = x] on an array held as a list.  The constructor writes only
    at indices below [patternNum], inside the arrays. *)
Fixpoint set_nth {A : Type} (l : list A) (i : nat) (x : A) : list A :=
  match l, i with
  | [], _ => []
  | _ :: t, O => x :: t
  | h :: t, S j => h :: set_nth t j x
  end.

(** What the loop of the constructor has written so far. *)
Record CtorAcc := {
  ca_color : list float;
  ca_weights : list float;
  ca_gradH : Mat22f
}.

(** [gradH += g * g.transpose()] for [g = (gx, gy)] *)
Definition outer_add (m : Mat22f) (gx gy : float) : Mat22f :=
  M22 (V2 (v2x (m22_r0 m) + gx * gx) (v2y (m22_r0 m) + gx * gy))
      (V2 (v2x (m22_r1 m) + gy * gx) (v2y (m22_r1 m) + gy * gy)).

Section Constructor.

(** [getInterpolatedElement33BiLin(host->dI, x, y, wG[0])], a helper that
    is not in the source file. *)
Variable getInterpolatedElement33BiLin : FrameHessian -> float -> float -> Vec3f.

Variable PS : PointSettings.

(** The sample taken for pattern index [i] around pixel [(u, v)]. *)
Definition ctor_sample (host_ : FrameHessian) (u_ v_ : float) (i : nat) : Vec3f :=
  getInterpolatedElement33BiLin host_ (u_ + of_int (fst (nth_pat i)))
                                      (v_ + of_int (snd (nth_pat i))).

(** [sqrtf(c / (c + g.squaredNorm()))] with [c] the outlier sum component *)
Definition ctor_weight (gx gy : float) : float :=
  sqrtf (setting_outlierTHSumComponent PS
         / (setting_outlierTHSumComponent PS + (gx * gx + gy * gy))).

(** The loop of the constructor; [inl] is the early return on a sample
    that is not finite (its colour is already stored). *)
Fixpoint ctor_loop (host_ : FrameHessian) (u_ v_ : float) (idxs : list nat) (acc : CtorAcc)
    : CtorAcc + CtorAcc :=
  match idxs with
  | [] => inr acc
  | i :: rest =>
      let ptc := ctor_sample host_ u_ v_ i in
      let color1 := set_nth (ca_color acc) i (v3x ptc) in
      if negb (isfinite (v3x ptc)) then
        inl {| ca_color := color1; ca_weights := ca_weights acc; ca_gradH := ca_gradH acc |}
      else
        ctor_loop host_ u_ v_ rest
          {| ca_color := color1;
             ca_weights := set_nth (ca_weights acc) i (ctor_weight (v3y ptc) (v3z ptc));
             ca_gradH := outer_add (ca_gradH acc) (v3y ptc) (v3z ptc) |}
  end.

Definition ctor_start : CtorAcc :=
  {| ca_color := repeat uninit patternNum; ca_weights := repeat uninit patternNum;
     ca_gradH := M22 (V2 zero zero) (V2 zero zero) |}.

(** The point the constructor leaves.  Members it does not assign on a
    path are [uninit]. *)
Definition ImmaturePoint_ctor (u_ v_ : Z) (host_ : FrameHessian) (type : float)
    : ImmaturePoint :=
  match ctor_loop host_ (of_int u_) (of_int v_) (seq 0 patternNum) ctor_start with
  | inl acc =>
      {| color := ca_color acc; weights := ca_weights acc; gradH := ca_gradH acc;
         energyTH := NAN; u := of_int u_; v := of_int v_; host := host_;
         quality := uninit; my_type := type; idepth_min := zero; idepth_max := NAN;
         lastTraceStatus := IPS_UNINITIALIZED; lastTraceUV := V2 uninit uninit;
         lastTracePixelInterval := uninit; idepth_GT := uninit |}
  | inr acc =>
      {| color := ca_color acc; weights := ca_weights acc; gradH := ca_gradH acc;
         energyTH := of_int (Z.of_nat patternNum) * setting_outlierTH PS
                     * (setting_overallEnergyTHWeight PS * setting_overallEnergyTHWeight PS);
         u := of_int u_; v := of_int v_; host := host_;
         quality := of_int 10000; my_type := type; idepth_min := zero; idepth_max := NAN;
         lastTraceStatus := IPS_UNINITIALIZED; lastTraceUV := V2 uninit uninit;
         lastTracePixelInterval := uninit; idepth_GT := zero |}
  end.

End Constructor.

(** Inputs for the constructor: the settings 50*50, 12*12 and 1, and a
    host image whose samples are not finite outside the border region. *)
Definition S0 : PointSettings :=
  {| setting_outlierTHSumComponent := of_int 2500; setting_outlierTH := of_int 144;
     setting_overallEnergyTHWeight := one |}.

Definition bordered_sampler (h : FrameHessian) (x y : float) : Vec3f :=
  if in_image Scene.G0 x y then getInterpolatedElement33 h x y else V3 NAN NAN NAN.

Definition host0 : FrameHessian := Scene.flat (of_int 50) one zero Scene.tx.

(** A call after a backward move of the camera, and two points at
    inverse depth 1: one with an unbounded interval, one with the
    interval [1, 1.01]. *)
Definition backward_call : TraceCall :=
  {| tc_frame := Scene.flat (of_int 50) zero zero Scene.tx; tc_KRKi := Scene.Id33;
     tc_Kt := Scene.Kt_backward; tc_affine := Scene.aff0 |}.

Definition near_point : ImmaturePoint :=
  Scene.point_at 100 100 Scene.Id22 one NAN IPS_UNINITIALIZED.

Definition tight_point : ImmaturePoint :=
  Scene.point_at 100 100 Scene.Id22 one (lit 101 100) IPS_UNINITIALIZED.

(** A candidate residual towards a frame of intensity 51 and gradient
    (1, 0). *)
Definition tmpRes1 : ImmaturePointTemporaryResidual :=
  Scene.tmpRes0 (Scene.flat (of_int 51) one zero Scene.tx).

(** ** Invariants of the discrete search

    After [k] steps of the first loop: [errors] has [k] entries, none of
    them (nor the start value 1e10) is below [bestEnergy], and
    [bestEnergy] is the start value (with [bestIdx = -1]) or the entry at
    [bestIdx]. *)
Definition search_inv (k : nat) (s : SearchState) : Prop :=
  length (ss_errors s) = k /\
  (forall i, (i < k)%nat -> (nth_f (ss_errors s) i <? ss_bestEnergy s) = false) /\
  (f_1e10 <? ss_bestEnergy s) = false /\
  ((ss_bestIdx s = (-1)%Z /\ ss_bestEnergy s = f_1e10) \/
   ((0 <= ss_bestIdx s < Z.of_nat k)%Z /\
    nth_f (ss_errors s) (Z.to_nat (ss_bestIdx s)) = ss_bestEnergy s)).

(** The test of the second loop: index [i] is outside the radius around
    [bestIdx]. *)
Definition outside_radius (G : Globals) (bestIdx : Z) (i : nat) : bool :=
  (Z.of_nat i <? bestIdx - setting_minTraceTestRadius G)%Z
  || (Z.of_nat i >? bestIdx + setting_minTraceTestRadius G)%Z.

(** After [k] steps of the second loop: [secondBest] is the start value
    1e10 or an entry outside the radius, and no entry outside the radius
    seen so far is below it. *)
Definition second_inv (G : Globals) (bestIdx : Z) (errors : list float) (k : nat)
    (sb : float) : Prop :=
  (sb = f_1e10 \/
   exists i, (i < k)%nat /\ outside_radius G bestIdx i = true /\ sb = nth_f errors i) /\
  (f_1e10 <? sb) = false /\
  (forall i, (i < k)%nat -> outside_radius G bestIdx i = true ->
             (nth_f errors i <? sb) = false).

(** The numbers [calcResidual] and [linearizeResidual] read are
    canonical: the intensities of the target image, the two brightness
    parameters of the precomputed transform, the fingerprint. *)
Definition residual_inputs_valid (p : ImmaturePoint) (tmpRes : ImmaturePointTemporaryResidual)
    : Prop :=
  (forall x y, valid (v3x (getInterpolatedElement33 (target tmpRes) x y)) = true) /\
  valid (v2x (PRE_aff_mode (precalc_of p tmpRes))) = true /\
  valid (v2y (PRE_aff_mode (precalc_of p tmpRes))) = true /\
  colors_valid p.

(** ** Facts on binary32 comparisons *)

Lemma SFcompare_antisym (x y : float) :
  SFcompare y x = option_map CompOpp (SFcompare x y).
Proof.
  destruct x as [sx|sx| |sx mx ex], y as [sy|sy| |sy my ey]; simpl;
    try reflexivity;
    try (destruct sx; reflexivity); try (destruct sy; reflexivity);
    try (destruct sx, sy; reflexivity).
  destruct sx, sy; simpl; try reflexivity;
    rewrite (Z.compare_antisym ex ey); destruct (ex ?= ey)%Z; simpl; try reflexivity;
    rewrite <- (Pos.compare_cont_antisym mx my Eq
                  : CompOpp (PosDef.Pos.compare_cont Eq mx my)
                    = PosDef.Pos.compare_cont Eq my mx);
    destruct (PosDef.Pos.compare_cont Eq mx my); reflexivity.
Qed.

Lemma ltb_asym (x y : float) : (x <? y) = true -> (y <? x) = false.
Proof.
  unfold ltb, SFltb. rewrite (SFcompare_antisym x y).
  destruct (SFcompare x y) as [[]|]; simpl; congruence.
Qed.

Lemma isfinite_compare (x y : float) :
  isfinite x = true -> isfinite y = true -> exists c, SFcompare x y = Some c.
Proof.
  destruct x, y; simpl; intros; try discriminate; eauto.
Qed.

(** Between finite numbers, "not greater" is "less or equal". *)
Lemma not_gtb_leb (x y : float) :
  isfinite x = true -> isfinite y = true -> (x >? y) = false -> leb x y = true.
Proof.
  intros Hx Hy. unfold gtb, leb, SFltb, SFleb. rewrite (SFcompare_antisym x y).
  destruct (isfinite_compare x y Hx Hy) as [c ->]. destruct c; simpl; congruence.
Qed.

Lemma gtb_leb (x y : float) : (x >? y) = true -> leb y x = true.
Proof.
  unfold gtb, leb, SFltb, SFleb. destruct (SFcompare y x) as [[]|]; congruence.
Qed.

Lemma status_eqb_eq (a b : ImmaturePointStatus) : status_eqb a b = true <-> a = b.
Proof. destruct a, b; simpl; split; congruence. Qed.

(** ** The exits of [traceOn] *)

Lemma trace_endpoint_early G KRKi Kt p r :
  trace_endpoint G KRKi Kt p = inl r ->
  r = fail_with p IPS_OOB \/
  (fst r = IPS_SKIPPED /\ isfinite (idepth_max p) = true /\
   in_image G (uMax_of KRKi Kt p) (vMax_of KRKi Kt p) = true /\
   (endpoint_dist KRKi Kt p <? setting_trace_slackInterval G) = true).
Proof.
  unfold trace_endpoint.
  destruct (isfinite (idepth_max p)) eqn:Hfin.
  - destruct (in_image G (uMax_of KRKi Kt p) (vMax_of KRKi Kt p)) eqn:Hin; cbn [negb].
    + destruct (endpoint_dist KRKi Kt p <? setting_trace_slackInterval G) eqn:Hd.
      * intros [= <-]. right. simpl. auto.
      * discriminate.
    + intros [= <-]. now left.
  - match goal with |- context [negb ?b] => destruct b end; cbn [negb].
    + discriminate.
    + intros [= <-]. now left.
Qed.

Lemma trace_line_early G KRKi Kt p r :
  trace_line G KRKi Kt p = inl r ->
  fst r = IPS_OOB \/ fst r = IPS_SKIPPED \/ fst r = IPS_BADCONDITION.
Proof.
  unfold trace_line.
  destruct (in_image G (uMin_of KRKi Kt p) (vMin_of KRKi Kt p)); cbn [negb];
    [|intros [= <-]; now left].
  destruct (trace_endpoint G KRKi Kt p) as [r'|[[dist uMax] vMax]] eqn:He.
  - intros [= <-]. destruct (trace_endpoint_early _ _ _ _ _ He) as [->|[H _]]; auto.
  - destruct (scale_ok KRKi Kt p); cbn [negb]; [|intros [= <-]; now left].
    match goal with |- context [if ?c && isfinite (idepth_max p) then _ else _] =>
      destruct (c && isfinite (idepth_max p)) end.
    + intros [= <-]. auto.
    + match goal with |- context [if dist >? ?m then _ else _] => destruct (dist >? m) end;
        match goal with |- context [if ?c then inl _ else inr _] => destruct c end;
        try discriminate; intros [= <-]; now left.
Qed.

(** The interval [new_interval] returns is ordered as soon as it is finite. *)
Lemma new_interval_ordered Kt l bestU bestV lo hi :
  new_interval Kt l bestU bestV = (lo, hi) ->
  isfinite lo = true -> isfinite hi = true -> leb lo hi = true.
Proof.
  unfold new_interval.
  destruct (tl_dx l * tl_dx l >? tl_dy l * tl_dy l);
    match goal with |- context [if ?a >? ?b then _ else _] =>
      destruct (a >? b) eqn:Hgt end;
    intros [= <- <-] Hlo Hhi;
    solve [ apply gtb_leb; assumption | apply not_gtb_leb; assumption ].
Qed.

Lemma interval_valid_inv lo hi :
  interval_invalid lo hi = false ->
  isfinite lo = true /\ isfinite hi = true /\ leb zero hi = true.
Proof.
  unfold interval_invalid. intros H.
  apply orb_false_iff in H as [H Hneg]. apply orb_false_iff in H as [Hlo Hhi].
  apply negb_false_iff in Hlo, Hhi. repeat split; try assumption.
  apply not_gtb_leb; [reflexivity | assumption | exact Hneg].
Qed.

(** What a [good] exit of the last part of [traceOn] leaves in the point. *)
Lemma trace_finish_good G Kt p l g p' :
  trace_finish G Kt p l g = (IPS_GOOD, p') ->
  new_interval Kt l (gn_bestU g) (gn_bestV g) = (idepth_min p', idepth_max p') /\
  interval_invalid (idepth_min p') (idepth_max p') = false.
Proof.
  unfold trace_finish, fail_with.
  destruct (gn_bestEnergy g <? energyTH p * setting_trace_extraSlackOnTH G); simpl.
  - destruct (new_interval Kt l (gn_bestU g) (gn_bestV g)) as [lo hi].
    destruct (interval_invalid lo hi) eqn:Hinv; [discriminate|].
    intros [= <-]. simpl. auto.
  - destruct (status_eqb (lastTraceStatus p) IPS_OUTLIER); discriminate.
Qed.

(** C1.  Whenever [traceOn] returns [IPS_GOOD], the interval it leaves in
    the point is ordered ([idepth_min <= idepth_max]), both bounds are
    finite, and [idepth_max >= 0]. *)
Theorem traceOn_good_interval G frame KRKi Kt aff p p' :
  traceOn G frame KRKi Kt aff p = (IPS_GOOD, p') ->
  leb (idepth_min p') (idepth_max p') = true /\
  isfinite (idepth_min p') = true /\
  isfinite (idepth_max p') = true /\
  leb zero (idepth_max p') = true.
Proof.
  unfold traceOn.
  destruct (status_eqb (lastTraceStatus p) IPS_OOB) eqn:Hoob.
  - apply status_eqb_eq in Hoob. rewrite Hoob. discriminate.
  - destruct (trace_line G KRKi Kt p) as [r|l] eqn:Hl.
    + intros ->. apply trace_line_early in Hl. simpl in Hl.
      destruct Hl as [H|[H|H]]; discriminate.
    + intros H. apply trace_finish_good in H as [Hi Hv].
      apply interval_valid_inv in Hv as (Hlo & Hhi & Hpos).
      pose proof (new_interval_ordered _ _ _ _ _ _ Hi Hlo Hhi). auto.
Qed.

(** C4.  On a point whose status is already [IPS_OOB], [traceOn] returns
    [IPS_OOB] and leaves every field of the point as it was. *)
Theorem traceOn_oob_noop G frame KRKi Kt aff p :
  lastTraceStatus p = IPS_OOB ->
  traceOn G frame KRKi Kt aff p = (IPS_OOB, p).
Proof.
  intros H. unfold traceOn. rewrite H. reflexivity.
Qed.

Lemma traceOn_good_interval_witness :
  let r := traceOn Scene.G0 (Scene.flat (of_int 50) zero zero Scene.tx) Scene.Id33 Scene.tx
             Scene.aff0 Scene.fresh_point in
  r = (IPS_GOOD, snd r) /\
  leb (idepth_min (snd r)) (idepth_max (snd r)) = true /\
  isfinite (idepth_min (snd r)) = true /\
  isfinite (idepth_max (snd r)) = true /\
  leb zero (idepth_max (snd r)) = true.
Proof.
  assert (H : traceOn Scene.G0 (Scene.flat (of_int 50) zero zero Scene.tx) Scene.Id33 Scene.tx
                Scene.aff0 Scene.fresh_point
              = (IPS_GOOD, snd (traceOn Scene.G0 (Scene.flat (of_int 50) zero zero Scene.tx)
                                  Scene.Id33 Scene.tx Scene.aff0 Scene.fresh_point)))
    by (vm_compute; reflexivity).
  split; [exact H | exact (traceOn_good_interval _ _ _ _ _ _ _ H)].
Defined.

Lemma traceOn_oob_noop_witness :
  let p := Scene.point_at 100 100 Scene.Id22 zero NAN IPS_OOB in
  lastTraceStatus p = IPS_OOB /\
  traceOn Scene.G0 (Scene.flat (of_int 50) zero zero Scene.tx) Scene.Id33 Scene.tx Scene.aff0 p
  = (IPS_OOB, p).
Proof.
  split; [reflexivity | apply traceOn_oob_noop; reflexivity].
Defined.

(** C2, as stated, fails.  The point below has the interval
    [1, 1.01]; the camera has moved back by one unit, so the projection
    at [idepth_min] lands on pixel (100.5, 100) with depth component 2,
    outside (0.75, 1.5).  The projection at [idepth_max] is 0.0025 pixel
    away, so the call leaves through the skip of step 2 and never reaches
    the scale test. *)
Lemma traceOn_scale_test_after_skip :
  let p := Scene.point_at 100 100 Scene.Id22 one (lit 101 100) IPS_UNINITIALIZED in
  in_image Scene.G0 (uMin_of Scene.Id33 Scene.Kt_backward p)
                    (vMin_of Scene.Id33 Scene.Kt_backward p) = true /\
  (idepth_min p <? zero) = false /\
  v3z (ptpMin_of Scene.Id33 Scene.Kt_backward p) = of_int 2 /\
  ((v3z (ptpMin_of Scene.Id33 Scene.Kt_backward p) >? f_0_75)
   && (v3z (ptpMin_of Scene.Id33 Scene.Kt_backward p) <? f_1_5)) = false /\
  fst (traceOn Scene.G0 (Scene.flat (of_int 50) zero zero Scene.tx) Scene.Id33 Scene.Kt_backward
         Scene.aff0 p) = IPS_SKIPPED.
Proof. vm_compute. repeat split; reflexivity. Qed.

(** C2, amended.  When the projection at [idepth_min] passes the border
    test, [idepth_min] is not negative and the depth component of that
    projection is outside (0.75, 1.5), [traceOn] returns [IPS_OOB] unless
    the skip of step 2 applies (finite [idepth_max], projection at
    [idepth_max] inside the border, end points closer than the slack
    interval): the scale test comes after that skip. *)
Theorem traceOn_scale_reject G frame KRKi Kt aff p :
  in_image G (uMin_of KRKi Kt p) (vMin_of KRKi Kt p) = true ->
  (idepth_min p <? zero) = false ->
  ((v3z (ptpMin_of KRKi Kt p) >? f_0_75) && (v3z (ptpMin_of KRKi Kt p) <? f_1_5)) = false ->
  (isfinite (idepth_max p)
   && in_image G (uMax_of KRKi Kt p) (vMax_of KRKi Kt p)
   && (endpoint_dist KRKi Kt p <? setting_trace_slackInterval G)) = false ->
  fst (traceOn G frame KRKi Kt aff p) = IPS_OOB.
Proof.
  intros Hin Hneg Hz Hskip. unfold traceOn.
  destruct (status_eqb (lastTraceStatus p) IPS_OOB) eqn:Hoob.
  - apply status_eqb_eq in Hoob. exact Hoob.
  - unfold trace_line. rewrite Hin. cbn [negb].
    destruct (trace_endpoint G KRKi Kt p) as [r|[[dist uMax] vMax]] eqn:He.
    + destruct (trace_endpoint_early _ _ _ _ _ He) as [->|(_ & Hf & Hi & Hd)].
      * reflexivity.
      * rewrite Hf, Hi, Hd in Hskip. discriminate.
    + unfold scale_ok. rewrite Hneg, Hz. reflexivity.
Qed.

Lemma traceOn_scale_reject_witness :
  let p := Scene.point_at 100 100 Scene.Id22 one NAN IPS_UNINITIALIZED in
  in_image Scene.G0 (uMin_of Scene.Id33 Scene.Kt_backward p)
                    (vMin_of Scene.Id33 Scene.Kt_backward p) = true /\
  (idepth_min p <? zero) = false /\
  ((v3z (ptpMin_of Scene.Id33 Scene.Kt_backward p) >? f_0_75)
   && (v3z (ptpMin_of Scene.Id33 Scene.Kt_backward p) <? f_1_5)) = false /\
  (isfinite (idepth_max p)
   && in_image Scene.G0 (uMax_of Scene.Id33 Scene.Kt_backward p)
                        (vMax_of Scene.Id33 Scene.Kt_backward p)
   && (endpoint_dist Scene.Id33 Scene.Kt_backward p <? setting_trace_slackInterval Scene.G0))
  = false /\
  fst (traceOn Scene.G0 (Scene.flat (of_int 50) zero zero Scene.tx) Scene.Id33 Scene.Kt_backward
         Scene.aff0 p) = IPS_OOB.
Proof.
  cbv zeta.
  split; [vm_compute; reflexivity|].
  split; [vm_compute; reflexivity|].
  split; [vm_compute; reflexivity|].
  split; [vm_compute; reflexivity|].
  apply traceOn_scale_reject; vm_compute; reflexivity.
Defined.

Lemma traceOn_reaches_finish G frame KRKi Kt aff p l :
  lastTraceStatus p <> IPS_OOB ->
  trace_line G KRKi Kt p = inr l ->
  traceOn G frame KRKi Kt aff p
  = trace_finish G Kt (with_quality G frame KRKi aff p l) l (gn_refine G frame KRKi aff p l).
Proof.
  intros Hst Hl. unfold traceOn.
  destruct (status_eqb (lastTraceStatus p) IPS_OOB) eqn:Hoob.
  - apply status_eqb_eq in Hoob. contradiction.
  - rewrite Hl. reflexivity.
Qed.

(** C3.  When [traceOn] reaches the energy test (the geometric part gives
    a search line [l]) and the refined energy exceeds
    [energyTH * setting_trace_extraSlackOnTH], the call returns [IPS_OOB]
    if the point's status on entry was [IPS_OUTLIER] and [IPS_OUTLIER]
    otherwise; in both cases the status is stored and the last traced
    location is reset to (-1, -1). *)
Theorem traceOn_energy_outlier G frame KRKi Kt aff p l :
  lastTraceStatus p <> IPS_OOB ->
  trace_line G KRKi Kt p = inr l ->
  (gn_bestEnergy (gn_refine G frame KRKi aff p l)
   >? energyTH p * setting_trace_extraSlackOnTH G) = true ->
  let r := traceOn G frame KRKi Kt aff p in
  fst r = (if status_eqb (lastTraceStatus p) IPS_OUTLIER then IPS_OOB else IPS_OUTLIER) /\
  lastTraceStatus (snd r) = fst r /\
  lastTraceUV (snd r) = V2 (of_int (-1)) (of_int (-1)).
Proof.
  intros Hst Hl He. cbv zeta.
  rewrite (traceOn_reaches_finish _ _ _ _ _ _ _ Hst Hl).
  unfold trace_finish.
  change (energyTH (with_quality G frame KRKi aff p l)) with (energyTH p).
  change (lastTraceStatus (with_quality G frame KRKi aff p l)) with (lastTraceStatus p).
  unfold gtb in He. rewrite (ltb_asym _ _ He). simpl.
  destruct (status_eqb (lastTraceStatus p) IPS_OUTLIER); simpl; auto.
Qed.

Lemma traceOn_energy_outlier_witness :
  let fr := Scene.flat (of_int 150) zero zero Scene.tx in
  let p := Scene.point_at 100 100 Scene.Id22 zero NAN IPS_OUTLIER in
  let r := traceOn Scene.G0 fr Scene.Id33 Scene.tx Scene.aff0 p in
  fst r = IPS_OOB /\ lastTraceStatus (snd r) = IPS_OOB /\
  lastTraceUV (snd r) = V2 (of_int (-1)) (of_int (-1)).
Proof.
  cbv zeta.
  destruct (trace_line Scene.G0 Scene.Id33 Scene.tx
              (Scene.point_at 100 100 Scene.Id22 zero NAN IPS_OUTLIER)) as [r|l] eqn:Hl;
    [vm_compute in Hl; discriminate|].
  refine (traceOn_energy_outlier Scene.G0 (Scene.flat (of_int 150) zero zero Scene.tx)
            Scene.Id33 Scene.tx Scene.aff0
            (Scene.point_at 100 100 Scene.Id22 zero NAN IPS_OUTLIER) l _ Hl _).
  - discriminate.
  - vm_compute in Hl. injection Hl as <-. vm_compute. reflexivity.
Defined.

(** C10.  When [traceOn] reaches the update of the interval (the energy
    test passes) and the newly computed bounds are rejected (one of them
    is not finite, or the upper one is negative), the call returns
    [IPS_OUTLIER] and the point keeps the rejected bounds in [idepth_min]
    and [idepth_max]: the interval held on entry is not restored. *)
Theorem traceOn_invalid_interval_kept G frame KRKi Kt aff p l lo hi :
  lastTraceStatus p <> IPS_OOB ->
  trace_line G KRKi Kt p = inr l ->
  (gn_bestEnergy (gn_refine G frame KRKi aff p l)
   <? energyTH p * setting_trace_extraSlackOnTH G) = true ->
  new_interval Kt l (gn_bestU (gn_refine G frame KRKi aff p l))
                    (gn_bestV (gn_refine G frame KRKi aff p l)) = (lo, hi) ->
  negb (isfinite lo) || negb (isfinite hi) || (hi <? zero) = true ->
  let r := traceOn G frame KRKi Kt aff p in
  fst r = IPS_OUTLIER /\ idepth_min (snd r) = lo /\ idepth_max (snd r) = hi.
Proof.
  intros Hst Hl He Hi Hbad. cbv zeta.
  rewrite (traceOn_reaches_finish _ _ _ _ _ _ _ Hst Hl).
  unfold trace_finish.
  change (energyTH (with_quality G frame KRKi aff p l)) with (energyTH p).
  rewrite He, Hi. simpl. unfold interval_invalid. rewrite Hbad. simpl. auto.
Qed.

Lemma traceOn_invalid_interval_kept_witness :
  let fr := Scene.flat (of_int 50) zero zero Scene.tx in
  let p := Scene.point_at 100 100 Scene.Zero22 zero NAN IPS_UNINITIALIZED in
  let r := traceOn Scene.G0 fr Scene.Id33 Scene.tx Scene.aff0 p in
  idepth_min p = zero /\
  fst r = IPS_OUTLIER /\ idepth_min (snd r) = NAN /\ idepth_max (snd r) = NAN.
Proof.
  cbv zeta. split; [reflexivity|].
  destruct (trace_line Scene.G0 Scene.Id33 Scene.tx
              (Scene.point_at 100 100 Scene.Zero22 zero NAN IPS_UNINITIALIZED)) as [r|l] eqn:Hl;
    [vm_compute in Hl; discriminate|].
  refine (traceOn_invalid_interval_kept Scene.G0 (Scene.flat (of_int 50) zero zero Scene.tx)
            Scene.Id33 Scene.tx Scene.aff0
            (Scene.point_at 100 100 Scene.Zero22 zero NAN IPS_UNINITIALIZED) l NAN NAN
            _ Hl _ _ _).
  - discriminate.
  - vm_compute in Hl. injection Hl as <-. vm_compute. reflexivity.
  - vm_compute in Hl. injection Hl as <-. vm_compute. reflexivity.
  - reflexivity.
Defined.

(** The quality after a call: untouched on every early exit, updated by
    the rule of the source once the discrete search has run. *)
Lemma traceOn_quality G frame KRKi Kt aff p :
  quality (snd (traceOn G frame KRKi Kt aff p)) = quality p \/
  exists l, trace_line G KRKi Kt p = inr l /\
            quality (snd (traceOn G frame KRKi Kt aff p))
            = quality_update (quality p) (newQuality_of G frame KRKi aff p l)
                (numSteps_of G (tl_dist l)).
Proof.
  unfold traceOn.
  destruct (status_eqb (lastTraceStatus p) IPS_OOB); [now left|].
  destruct (trace_line G KRKi Kt p) as [r|l] eqn:Hl.
  - left. revert Hl. unfold trace_line.
    destruct (in_image G (uMin_of KRKi Kt p) (vMin_of KRKi Kt p)); cbn [negb];
      [|intros [= <-]; reflexivity].
    destruct (trace_endpoint G KRKi Kt p) as [r'|[[dist uMax] vMax]] eqn:He.
    + intros [= <-]. revert He. unfold trace_endpoint.
      destruct (isfinite (idepth_max p)); repeat match goal with
        | |- context [if ?c then _ else _] => destruct c
        end; intros [= <-]; reflexivity.
    + repeat match goal with
        | |- context [if ?c then _ else _] => destruct c
        end; try discriminate; intros [= <-]; reflexivity.
  - right. exists l. split; [reflexivity|].
    unfold trace_finish.
    repeat match goal with
      | |- context [if ?c then _ else _] => destruct c
      | |- context [let '(_, _) := ?c in _] => destruct c
      end; reflexivity.
Qed.

(** ** Facts on signs *)

Lemma binary_round_aux_sign prec emax s m e l :
  sign_of (binary_round_aux prec emax s m e l) = None \/
  sign_of (binary_round_aux prec emax s m e l) = Some s.
Proof.
  unfold binary_round_aux.
  destruct (shr_fexp prec emax m e l) as [mrs' e'].
  destruct (shr_fexp prec emax _ e' loc_Exact) as [mrs'' e''].
  destruct (shr_m mrs''); simpl; auto.
  destruct (e'' <=? emax - prec)%Z; simpl; auto.
Qed.

Lemma binary_round_sign prec emax s m e :
  sign_of (binary_round prec emax s m e) = None \/
  sign_of (binary_round prec emax s m e) = Some s.
Proof.
  unfold binary_round. destruct (shl_align _ _ _). apply binary_round_aux_sign.
Qed.

Lemma nonneg_sign x : nonneg x = true <-> sign_of x = None \/ sign_of x = Some false.
Proof.
  destruct x as [[]|[]| |[] m e]; simpl; split; intros; auto; try discriminate;
    destruct H; discriminate.
Qed.

Lemma binary_normalize_nonneg prec emax z e :
  (0 <= z)%Z -> nonneg (binary_normalize prec emax z e false) = true.
Proof.
  intros Hz. destruct z as [|m|m]; simpl; try reflexivity; [|lia].
  apply nonneg_sign. apply binary_round_sign.
Qed.

Lemma mul_sign (a b : float) :
  sign_of (a * b) = None \/
  exists sa sb, sign_of a = Some sa /\ sign_of b = Some sb /\ sign_of (a * b) = Some (xorb sa sb).
Proof.
  destruct a as [sa|sa| |sa ma ea], b as [sb|sb| |sb mb eb]; simpl; auto;
    try solve [right; exists sa, sb; auto].
  destruct (binary_round_aux_sign prec emax (xorb sa sb) (Zpos (ma * mb)) (ea + eb) loc_Exact)
    as [H|H]; [left|right; exists sa, sb]; auto.
Qed.

Lemma mul_nonneg (a b : float) :
  nonneg a = true -> nonneg b = true -> nonneg (a * b) = true.
Proof.
  intros Ha Hb. apply nonneg_sign.
  destruct (mul_sign a b) as [H|(sa & sb & Hsa & Hsb & H)]; [now left|].
  apply nonneg_sign in Ha, Hb. rewrite Hsa in Ha. rewrite Hsb in Hb.
  destruct Ha as [Ha|[= ->]]; [discriminate|].
  destruct Hb as [Hb|[= ->]]; [discriminate|]. now right.
Qed.

Lemma mul_self_nonneg (a : float) : nonneg (a * a) = true.
Proof.
  apply nonneg_sign.
  destruct (mul_sign a a) as [H|(sa & sb & Hsa & Hsb & H)]; [now left|].
  rewrite Hsa in Hsb. injection Hsb as <-. rewrite xorb_nilpotent in H. now right.
Qed.

(** [(h * r) * r] has the sign of [h]. *)
Lemma mul_mul_nonneg (h r : float) : nonneg h = true -> nonneg (h * r * r) = true.
Proof.
  intros Hh. apply nonneg_sign.
  destruct (mul_sign (h * r) r) as [H|(s1 & sr & H1 & Hr & H)]; [now left|].
  destruct (mul_sign h r) as [H2|(sh & sr' & Hsh & Hsr' & H2)]; [congruence|].
  rewrite Hsr' in Hr. injection Hr as ->.
  rewrite H2 in H1. injection H1 as <-.
  apply nonneg_sign in Hh. rewrite Hsh in Hh. destruct Hh as [Hh|[= ->]]; [discriminate|].
  rewrite H. destruct sr; now right.
Qed.

Lemma add_nonneg (a b : float) :
  nonneg a = true -> nonneg b = true -> nonneg (a + b) = true.
Proof.
  destruct a as [[]|[]| |[] ma ea], b as [[]|[]| |[] mb eb]; simpl; intros; try discriminate;
    try reflexivity.
  apply nonneg_sign. apply binary_round_sign.
Qed.

Lemma div_nonneg (a b : float) :
  nonneg a = true -> nonneg b = true -> nonneg (a / b) = true.
Proof.
  destruct a as [[]|[]| |[] ma ea], b as [[]|[]| |[] mb eb]; simpl; intros; try discriminate;
    try reflexivity.
  destruct (SFdiv_core_binary prec emax (Z.pos ma) ea (Z.pos mb) eb) as [[mz ez] lz].
  apply nonneg_sign. apply binary_round_aux_sign.
Qed.

Lemma sqrtf_nonneg (a : float) : nonneg a = true -> nonneg (sqrtf a) = true.
Proof.
  destruct a as [[]|[]| |[] ma ea]; simpl; intros; try discriminate; try reflexivity.
  destruct (SFsqrt_core_binary prec emax (Z.pos ma) ea) as [[mz ez] lz].
  apply nonneg_sign. apply binary_round_aux_sign.
Qed.

Lemma fabsf_nonneg (a : float) : nonneg (fabsf a) = true.
Proof. destruct a; reflexivity. Qed.

Lemma nonneg_not_ltb_zero (x : float) : nonneg x = true -> (x <? zero) = false.
Proof. destruct x as [[]|[]| |[] m e]; simpl; intros; try discriminate; reflexivity. Qed.

Lemma gtb_zero_nonneg (x : float) : (x >? zero) = true -> nonneg x = true.
Proof. destruct x as [[]|[]| |[] m e]; simpl; intros; try discriminate; reflexivity. Qed.

(** A product with a factor that is not negative is below zero only
    when the other factor is. *)
Lemma mul_below_zero (a b : float) :
  nonneg b = true -> (a * b <? zero) = true -> (a <? zero) = true.
Proof.
  intros Hb Hr.
  destruct (a <? zero) eqn:Ha; [reflexivity|].
  assert (Hn : nonneg (a * b) = true \/ zero_or_nan (a * b) = true).
  { destruct a as [[]|[]| |[] ma ea]; try discriminate Ha.
    - right. destruct b as [sb|sb| |sb mb eb]; reflexivity.
    - left. apply mul_nonneg; [reflexivity|exact Hb].
    - left. apply mul_nonneg; [reflexivity|exact Hb].
    - left. reflexivity.
    - left. apply mul_nonneg; [reflexivity|exact Hb]. }
  destruct Hn as [Hn|Hn].
  - rewrite (nonneg_not_ltb_zero _ Hn) in Hr. discriminate.
  - destruct (a * b) as [[]|[]| |[] m e]; discriminate.
Qed.

(** Zeros through the operations. *)
Lemma zero_or_nan_mul_l (a b : float) : zero_or_nan a = true -> zero_or_nan (a * b) = true.
Proof.
  destruct a as [sa|sa| |sa ma ea]; try discriminate; intros _;
    destruct b as [sb|sb| |sb mb eb]; reflexivity.
Qed.

Lemma zero_or_nan_mul_r (a b : float) : zero_or_nan b = true -> zero_or_nan (a * b) = true.
Proof.
  destruct b as [sb|sb| |sb mb eb]; try discriminate; intros _;
    destruct a as [sa|sa| |sa ma ea]; reflexivity.
Qed.

Lemma zero_or_nan_sub (a b : float) :
  zero_or_nan a = true -> zero_or_nan b = true -> zero_or_nan (a - b) = true.
Proof.
  destruct a as [[]|sa| |sa ma ea]; try discriminate; intros _;
    destruct b as [[]|sb| |sb mb eb]; try discriminate; reflexivity.
Qed.

Lemma zero_or_nan_add (a b : float) :
  zero_or_nan a = true -> zero_or_nan b = true -> zero_or_nan (a + b) = true.
Proof.
  destruct a as [[]|sa| |sa ma ea]; try discriminate; intros _;
    destruct b as [[]|sb| |sb mb eb]; try discriminate; reflexivity.
Qed.

Lemma zero_or_nan_sqrtf (a : float) : zero_or_nan a = true -> zero_or_nan (sqrtf a) = true.
Proof. destruct a as [sa|sa| |sa ma ea]; try discriminate; reflexivity. Qed.

Lemma zero_or_nan_not_above (x : float) : zero_or_nan x = true -> (x >? zero) = false.
Proof. destruct x as [[]|[]| |[] m e]; try discriminate; reflexivity. Qed.

Lemma is_zero_zero_or_nan (x : float) : is_zero x = true -> zero_or_nan x = true.
Proof. destruct x; try discriminate; reflexivity. Qed.

Lemma is_zero_isfinite (x : float) : is_zero x = true -> isfinite x = true.
Proof. destruct x; try discriminate; reflexivity. Qed.

Lemma is_zero_mul_l (a b : float) :
  is_zero a = true -> isfinite b = true -> is_zero (a * b) = true.
Proof.
  destruct a as [sa|sa| |sa ma ea]; try discriminate; intros _;
    destruct b as [sb|sb| |sb mb eb]; try discriminate; reflexivity.
Qed.

Lemma is_zero_mul_r (a b : float) :
  isfinite a = true -> is_zero b = true -> is_zero (a * b) = true.
Proof.
  intros Ha Hb. destruct b as [sb|sb| |sb mb eb]; try discriminate;
    destruct a as [sa|sa| |sa ma ea]; try discriminate; reflexivity.
Qed.

Lemma is_zero_sub (a b : float) :
  is_zero a = true -> is_zero b = true -> is_zero (a - b) = true.
Proof.
  destruct a as [[]|sa| |sa ma ea]; try discriminate; intros _;
    destruct b as [[]|sb| |sb mb eb]; try discriminate; reflexivity.
Qed.

Lemma is_zero_add (a b : float) :
  is_zero a = true -> is_zero b = true -> is_zero (a + b) = true.
Proof.
  destruct a as [[]|sa| |sa ma ea]; try discriminate; intros _;
    destruct b as [[]|sb| |sb mb eb]; try discriminate; reflexivity.
Qed.

Lemma is_zero_sqrtf (a : float) : is_zero a = true -> is_zero (sqrtf a) = true.
Proof. destruct a as [sa|sa| |sa ma ea]; try discriminate; reflexivity. Qed.

(** ** Facts on the residual functions *)

Section ResidualFacts.

Variable projectPoint_K : float -> float -> float -> Mat33f -> Vec3f -> bool * float * float.
Variable projectPoint :
  float -> float -> float -> Z -> Z -> CalibHessian -> Mat33f -> Vec3f ->
  ProjOut -> bool * ProjOut.
Variable derive_idepth :
  Vec3f -> float -> float -> Z -> Z -> float -> float -> float -> float.

(** The loop of [calcResidual] leaves the objects as they are. *)
Lemma calcResidual_loop_reads HCalib G idepth idxs :
  forall energyLeft s,
    snd (calcResidual_loop projectPoint_K HCalib G idepth idxs energyLeft s) = s.
Proof.
  induction idxs as [|i rest IH]; intros energyLeft s; [reflexivity|].
  cbn [calcResidual_loop]. unfold bind, this, the_tmpRes.
  destruct (projectPoint_K _ _ idepth _ _) as [[ok Ku] Kv].
  destruct ok; cbn [negb]; [|reflexivity].
  destruct (isfinite _); cbn [negb]; [|reflexivity].
  apply IH.
Qed.

Lemma calcResidual_reads HCalib G outlierTHSlack idepth s :
  snd (calcResidual projectPoint_K HCalib G outlierTHSlack idepth s) = s.
Proof.
  unfold calcResidual, bind, this.
  pose proof (calcResidual_loop_reads HCalib G idepth (seq 0 patternNum) zero s) as H.
  destruct (calcResidual_loop projectPoint_K HCalib G idepth (seq 0 patternNum) zero s)
    as [r s']. cbn [snd] in H. subst s'.
  destruct r; reflexivity.
Qed.

Lemma calcResidual_loop_fails HCalib G p tmpRes idepth i :
  offset_projection_fails projectPoint_K p tmpRes idepth i ->
  forall idxs energyLeft,
    In i idxs ->
    fst (calcResidual_loop projectPoint_K HCalib G idepth idxs energyLeft (p, tmpRes)) = None.
Proof.
  intros Hfail. induction idxs as [|j rest IH]; intros energyLeft Hin; [contradiction|].
  cbn [calcResidual_loop]. unfold bind, this, the_tmpRes. cbn [fst snd].
  destruct (projectPoint_K _ _ idepth _ _) as [[ok Ku] Kv] eqn:Hp.
  destruct ok; cbn [negb]; [|reflexivity].
  destruct (isfinite (v3x (getInterpolatedElement33 (target tmpRes) Ku Kv))); cbn [negb];
    [|reflexivity].
  destruct Hin as [->|Hin].
  - unfold offset_projection_fails in Hfail. rewrite Hp in Hfail. discriminate.
  - apply IH. exact Hin.
Qed.

(** C6.  If the projection of the centre plus some pattern offset
    fails, [calcResidual] returns the penalty [1e10], whatever the other
    offsets do. *)
Theorem calcResidual_projection_failure HCalib G outlierTHSlack p tmpRes idepth i :
  (i < patternNum)%nat ->
  offset_projection_fails projectPoint_K p tmpRes idepth i ->
  fst (calcResidual projectPoint_K HCalib G outlierTHSlack idepth (p, tmpRes))
  = of_int 10000000000.
Proof.
  intros Hi Hfail. unfold calcResidual, bind, this.
  pose proof (calcResidual_loop_fails HCalib G p tmpRes idepth i Hfail
                (seq 0 patternNum) zero) as H.
  destruct (calcResidual_loop projectPoint_K HCalib G idepth (seq 0 patternNum) zero
              (p, tmpRes)) as [r s'].
  cbn [fst] in H. rewrite H; [reflexivity|]. apply in_seq. lia.
Qed.

(** C8.  [calcResidual] is a function of its inputs and writes nothing:
    two successive calls with the same arguments on the same objects
    return the same energy, and after each of them the point and the
    candidate residual are what they were before. *)
Theorem calcResidual_deterministic_pure HCalib G outlierTHSlack idepth (s : Objects) :
  let r1 := calcResidual projectPoint_K HCalib G outlierTHSlack idepth s in
  let r2 := calcResidual projectPoint_K HCalib G outlierTHSlack idepth (snd r1) in
  fst r1 = fst r2 /\ snd r1 = s /\ snd r2 = s.
Proof.
  cbv zeta.
  pose proof (calcResidual_reads HCalib G outlierTHSlack idepth s) as H1.
  rewrite H1. auto.
Qed.

(** The value of [getdPixdd] is not negative when the rescale factor
    the projection wrote is not. *)
Lemma getdPixdd_nonneg HCalib p tmpRes idepth :
  nonneg (po_drescale (getdPixdd_projection projectPoint HCalib p tmpRes idepth)) = true ->
  nonneg (fst (getdPixdd projectPoint HCalib idepth (p, tmpRes))) = true.
Proof.
  intros Hd. unfold getdPixdd, bind, this, the_tmpRes, ret. cbn [fst snd].
  apply mul_nonneg.
  - exact Hd.
  - apply sqrtf_nonneg. apply add_nonneg; apply mul_self_nonneg.
Qed.

(** The value of [getdPixdd] is below zero only when the rescale factor
    the projection wrote is. *)
Lemma getdPixdd_below_zero HCalib p tmpRes idepth :
  (fst (getdPixdd projectPoint HCalib idepth (p, tmpRes)) <? zero) = true ->
  (po_drescale (getdPixdd_projection projectPoint HCalib p tmpRes idepth) <? zero) = true.
Proof.
  unfold getdPixdd, bind, this, the_tmpRes, ret. cbn [fst snd].
  apply mul_below_zero.
  apply sqrtf_nonneg. apply add_nonneg; apply mul_self_nonneg.
Qed.

(** With a zero translation the value of [getdPixdd] is a zero or NaN,
    whatever the projection writes. *)
Lemma getdPixdd_at_rest HCalib p tmpRes idepth :
  at_rest (PRE_tTll (precalc_of p tmpRes)) = true ->
  zero_or_nan (fst (getdPixdd projectPoint HCalib idepth (p, tmpRes))) = true.
Proof.
  unfold at_rest. intros Ht.
  apply andb_true_iff in Ht as [Ht Hz]. apply andb_true_iff in Ht as [Hx Hy].
  apply is_zero_zero_or_nan in Hx, Hy, Hz.
  unfold getdPixdd, bind, this, the_tmpRes, ret. cbn [fst snd].
  apply zero_or_nan_mul_r, zero_or_nan_sqrtf.
  apply zero_or_nan_add; apply zero_or_nan_mul_l, zero_or_nan_mul_l, zero_or_nan_sub;
    try assumption; apply zero_or_nan_mul_l; assumption.
Qed.

(** It is a zero when, in addition, the numbers the projection wrote and
    the focal lengths are finite. *)
Lemma getdPixdd_at_rest_zero HCalib p tmpRes idepth :
  let out := getdPixdd_projection projectPoint HCalib p tmpRes idepth in
  at_rest (PRE_tTll (precalc_of p tmpRes)) = true ->
  isfinite (po_drescale out) && isfinite (po_u out) && isfinite (po_v out)
  && isfinite (fxl HCalib) && isfinite (fyl HCalib) = true ->
  is_zero (fst (getdPixdd projectPoint HCalib idepth (p, tmpRes))) = true.
Proof.
  cbv zeta. unfold at_rest. intros Ht Hf.
  apply andb_true_iff in Ht as [Ht Hz]. apply andb_true_iff in Ht as [Hx Hy].
  apply andb_true_iff in Hf as [Hf Hfy]. apply andb_true_iff in Hf as [Hf Hfx].
  apply andb_true_iff in Hf as [Hf Hv]. apply andb_true_iff in Hf as [Hd Hu].
  unfold getdPixdd, bind, this, the_tmpRes, ret. cbn [fst snd].
  assert (Hdx : is_zero ((v3x (PRE_tTll (precalc_of p tmpRes))
                          - v3z (PRE_tTll (precalc_of p tmpRes))
                            * po_u (getdPixdd_projection projectPoint HCalib p tmpRes idepth))
                         * fxl HCalib) = true).
  { apply is_zero_mul_l; [|exact Hfx]. apply is_zero_sub; [exact Hx|].
    apply is_zero_mul_l; assumption. }
  assert (Hdy : is_zero ((v3y (PRE_tTll (precalc_of p tmpRes))
                          - v3z (PRE_tTll (precalc_of p tmpRes))
                            * po_v (getdPixdd_projection projectPoint HCalib p tmpRes idepth))
                         * fyl HCalib) = true).
  { apply is_zero_mul_l; [|exact Hfy]. apply is_zero_sub; [exact Hy|].
    apply is_zero_mul_l; assumption. }
  apply is_zero_mul_r; [exact Hd|]. apply is_zero_sqrtf.
  apply is_zero_add; (apply is_zero_mul_l; [|apply is_zero_isfinite]); assumption.
Qed.

(** C9, amended.  Every call of [getdPixdd] leaves the point and the
    candidate residual as they are and returns one scalar,
    [drescale * sqrt(dxdd^2 + dydd^2)], with [drescale], [u] and [v] as
    the projection wrote them, whether or not it succeeded.  The scalar
    is not below zero when [drescale] is positive, and it is below zero
    only when [drescale] is.  When the translation is zero the scalar is
    not positive for any rescale factor: it is a zero or NaN, and a zero
    as soon as the numbers that enter it are finite. *)
Theorem getdPixdd_not_negative HCalib p tmpRes idepth :
  let t := PRE_tTll (precalc_of p tmpRes) in
  let out := getdPixdd_projection projectPoint HCalib p tmpRes idepth in
  let dxdd := (v3x t - v3z t * po_u out) * fxl HCalib in
  let dydd := (v3y t - v3z t * po_v out) * fyl HCalib in
  let r := getdPixdd projectPoint HCalib idepth (p, tmpRes) in
  snd r = (p, tmpRes) /\
  fst r = po_drescale out * sqrtf (dxdd * dxdd + dydd * dydd) /\
  ((po_drescale out >? zero) = true -> (fst r <? zero) = false) /\
  ((fst r <? zero) = true -> (po_drescale out <? zero) = true) /\
  (at_rest t = true ->
   zero_or_nan (fst r) = true /\ (fst r >? zero) = false /\
   (isfinite (po_drescale out) && isfinite (po_u out) && isfinite (po_v out)
    && isfinite (fxl HCalib) && isfinite (fyl HCalib) = true ->
    is_zero (fst r) = true)).
Proof.
  cbv zeta. split; [reflexivity|]. split; [reflexivity|]. split; [|split].
  - intros Hd. apply nonneg_not_ltb_zero, getdPixdd_nonneg, gtb_zero_nonneg. exact Hd.
  - apply getdPixdd_below_zero.
  - intros Ht. pose proof (getdPixdd_at_rest HCalib p tmpRes idepth Ht) as Hz.
    split; [exact Hz|]. split; [apply zero_or_nan_not_above; exact Hz|].
    apply getdPixdd_at_rest_zero. exact Ht.
Qed.

(** The loop of [linearizeResidual] over a split index list. *)
Lemma linearize_loop_app HCalib G p tmpRes idepth l1 l2 acc :
  linearize_loop projectPoint derive_idepth HCalib G p tmpRes idepth (l1 ++ l2) acc
  = match linearize_loop projectPoint derive_idepth HCalib G p tmpRes idepth l1 acc with
    | inl a => inl a
    | inr a => linearize_loop projectPoint derive_idepth HCalib G p tmpRes idepth l2 a
    end.
Proof.
  revert acc. induction l1 as [|i l1 IH]; intros acc; simpl; [reflexivity|].
  destruct (projectPoint _ _ _ _ _ _ _ _ _) as [ok out].
  destruct ok; simpl; [|reflexivity].
  destruct (isfinite _); simpl; [|reflexivity].
  apply IH.
Qed.

Lemma linearize_loop_ok HCalib G p tmpRes idepth l :
  (forall i, In i l -> offset_ok projectPoint HCalib p tmpRes idepth i = true) ->
  forall acc, exists a,
    linearize_loop projectPoint derive_idepth HCalib G p tmpRes idepth l acc = inr a.
Proof.
  induction l as [|i l IH]; intros Hok acc; simpl; [eauto|].
  pose proof (Hok i (or_introl eq_refl)) as Hi. unfold offset_ok in Hi.
  destruct (projectPoint _ _ _ _ _ _ _ _ _) as [ok out].
  apply andb_true_iff in Hi as [-> ->]. simpl.
  apply IH. intros j Hj. apply Hok. now right.
Qed.

Lemma linearize_loop_stops HCalib G p tmpRes idepth i rest acc :
  offset_ok projectPoint HCalib p tmpRes idepth i = false ->
  linearize_loop projectPoint derive_idepth HCalib G p tmpRes idepth (i :: rest) acc = inl acc.
Proof.
  intros Hi. unfold offset_ok in Hi. simpl.
  destruct (projectPoint _ _ _ _ _ _ _ _ _) as [ok out].
  destruct ok; simpl in *; [|reflexivity]. rewrite Hi. reflexivity.
Qed.

(** C5, amended.  When the first offset that does not go through (failed
    projection or non-finite sample) is offset [k], [linearizeResidual]
    marks the pending state out-of-bounds and returns the stored energy;
    the stored state and both stored energies are untouched.  [Hdd] and
    [bd] are not rolled back: they are what the loop accumulated over the
    offsets before [k].  When [k] is the first offset this is their value
    on entry; when it is a later one they can differ from it. *)
Theorem linearizeResidual_failure HCalib G outlierTHSlack p tmpRes Hdd bd idepth k :
  state_state tmpRes <> ResState_OOB ->
  (k < patternNum)%nat ->
  (forall i, (i < k)%nat -> offset_ok projectPoint HCalib p tmpRes idepth i = true) ->
  offset_ok projectPoint HCalib p tmpRes idepth k = false ->
  let r := linearizeResidual projectPoint derive_idepth HCalib G outlierTHSlack p tmpRes
             Hdd bd idepth in
  lr_ret r = state_energy tmpRes /\
  lr_tmpRes r = set_NewState tmpRes ResState_OOB /\
  (exists acc,
      linearize_loop projectPoint derive_idepth HCalib G p tmpRes idepth (seq 0 k)
        {| la_energyLeft := zero; la_Hdd := Hdd; la_bd := bd |} = inr acc /\
      lr_Hdd r = la_Hdd acc /\ lr_bd r = la_bd acc) /\
  (k = 0%nat -> lr_Hdd r = Hdd /\ lr_bd r = bd).
Proof.
  intros Hst Hk Hbefore Hfail. cbv zeta.
  assert (Hsplit : seq 0 patternNum = seq 0 k ++ k :: seq (S k) (patternNum - S k)).
  { replace patternNum with (k + S (patternNum - S k))%nat at 1 by lia.
    rewrite seq_app. reflexivity. }
  destruct (linearize_loop_ok HCalib G p tmpRes idepth (seq 0 k)) with
    (acc := {| la_energyLeft := zero; la_Hdd := Hdd; la_bd := bd |}) as [a Ha].
  { intros i Hi. apply Hbefore. apply in_seq in Hi. lia. }
  assert (Hloop : linearize_loop projectPoint derive_idepth HCalib G p tmpRes idepth
                    (seq 0 patternNum) {| la_energyLeft := zero; la_Hdd := Hdd; la_bd := bd |}
                  = inl a).
  { rewrite Hsplit, linearize_loop_app, Ha. apply linearize_loop_stops. exact Hfail. }
  unfold linearizeResidual. rewrite Hloop.
  assert (Hzero : k = 0%nat -> la_Hdd a = Hdd /\ la_bd a = bd).
  { intros ->. simpl in Ha. injection Ha as <-. auto. }
  destruct (state_state tmpRes) eqn:Hs; try contradiction; simpl;
    (split; [reflexivity|]; split; [reflexivity|]; split; [exists a; auto | exact Hzero]).
Qed.

End ResidualFacts.

Lemma calcResidual_projection_failure_witness :
  let tmpRes := Scene.tmpRes0 (Scene.flat (of_int 51) one zero Scene.tx) in
  (3 < patternNum)%nat /\
  offset_projection_fails Scene.pinhole_K Scene.border_point tmpRes zero 3 /\
  fst (calcResidual Scene.pinhole_K Scene.calib0 Scene.G0 one zero (Scene.border_point, tmpRes))
  = of_int 10000000000.
Proof.
  cbv zeta.
  split; [unfold patternNum; lia|].
  split; [vm_compute; reflexivity|].
  apply (calcResidual_projection_failure Scene.pinhole_K Scene.calib0 Scene.G0 one
           Scene.border_point _ zero 3).
  - unfold patternNum; lia.
  - vm_compute; reflexivity.
Defined.

(** C5, as stated, fails.  For a point near the border the first three
    offsets go through and the fourth projects out of the valid region:
    the call marks the pending state out-of-bounds and returns the stored
    energy, but [Hdd] and [bd], both 0 on entry, come back as 3. *)
Lemma linearizeResidual_partial_update :
  let fr := Scene.flat (of_int 51) one zero Scene.tx in
  let tmpRes := Scene.tmpRes0 fr in
  let r := linearizeResidual Scene.pinhole Scene.derive_idepth0 Scene.calib0 Scene.G0 one
             Scene.border_point tmpRes zero zero zero in
  offset_ok Scene.pinhole Scene.calib0 Scene.border_point tmpRes zero 3 = false /\
  state_NewState (lr_tmpRes r) = ResState_OOB /\
  lr_ret r = state_energy tmpRes /\
  lr_Hdd r = of_int 3 /\ lr_bd r = of_int 3 /\
  lr_Hdd r <> zero /\ lr_bd r <> zero.
Proof. vm_compute. repeat split; try reflexivity; discriminate. Qed.

Lemma linearizeResidual_failure_witness :
  let fr := Scene.flat (of_int 51) one zero Scene.tx in
  let tmpRes := Scene.tmpRes0 fr in
  let r := linearizeResidual Scene.pinhole Scene.derive_idepth0 Scene.calib0 Scene.G0 one
             Scene.border_point tmpRes zero zero zero in
  lr_ret r = state_energy tmpRes /\
  lr_tmpRes r = set_NewState tmpRes ResState_OOB /\
  (exists acc,
      linearize_loop Scene.pinhole Scene.derive_idepth0 Scene.calib0 Scene.G0 Scene.border_point
        tmpRes zero (seq 0 3) {| la_energyLeft := zero; la_Hdd := zero; la_bd := zero |} = inr acc /\
      lr_Hdd r = la_Hdd acc /\ lr_bd r = la_bd acc) /\
  (3%nat = 0%nat -> lr_Hdd r = zero /\ lr_bd r = zero).
Proof.
  cbv zeta.
  apply (linearizeResidual_failure Scene.pinhole Scene.derive_idepth0 Scene.calib0 Scene.G0 one
           Scene.border_point (Scene.tmpRes0 (Scene.flat (of_int 51) one zero Scene.tx))
           zero zero zero 3).
  - discriminate.
  - unfold patternNum; lia.
  - intros i Hi. destruct i as [|[|[|i]]]; [vm_compute; reflexivity .. | lia].
  - vm_compute; reflexivity.
Defined.

(** C9, as stated, fails, in two ways.  At rest: when host and target
    have the same pose the translation is zero and [getdPixdd] returns 0,
    which is not positive, although the projection succeeds with rescale
    factor 1; and at zero translation the value is not positive whatever
    the projection helper does.  Behind the camera: when the target
    camera has moved past the point the projection fails and writes the
    rescale factor -1; [getdPixdd] does not look at the failure and
    returns a number below zero. *)
Lemma getdPixdd_not_positive :
  let still := Scene.tmpRes0 (Scene.flat (of_int 50) zero zero Scene.t0) in
  let passed := Scene.tmpRes0 (Scene.flat (of_int 50) zero zero Scene.t_passed) in
  let start := {| po_drescale := uninit; po_u := zero; po_v := zero; po_Ku := uninit;
                  po_Kv := uninit; po_KliP := V3 uninit uninit uninit;
                  po_new_idepth := uninit |} in
  (fst (Scene.pinhole (u Scene.still_point) (v Scene.still_point) one 0 0 Scene.calib0
          (PRE_RTll (precalc_of Scene.still_point still))
          (PRE_tTll (precalc_of Scene.still_point still)) start)
   = true /\
   po_drescale (getdPixdd_projection Scene.pinhole Scene.calib0 Scene.still_point still one)
   = one /\
   fst (getdPixdd Scene.pinhole Scene.calib0 one (Scene.still_point, still)) = zero /\
   (fst (getdPixdd Scene.pinhole Scene.calib0 one (Scene.still_point, still)) >? zero)
   = false) /\
  (forall pp idepth,
      (fst (getdPixdd pp Scene.calib0 idepth (Scene.still_point, still)) >? zero) = false) /\
  (fst (Scene.pinhole (u Scene.passed_point) (v Scene.passed_point) one 0 0 Scene.calib0
          (PRE_RTll (precalc_of Scene.passed_point passed))
          (PRE_tTll (precalc_of Scene.passed_point passed)) start)
   = false /\
   po_drescale (getdPixdd_projection Scene.pinhole Scene.calib0 Scene.passed_point passed one)
   = of_int (-1) /\
   (fst (getdPixdd Scene.pinhole Scene.calib0 one (Scene.passed_point, passed)) <? zero)
   = true /\
   (fst (getdPixdd Scene.pinhole Scene.calib0 one (Scene.passed_point, passed)) >? zero)
   = false).
Proof.
  cbv zeta. split; [|split].
  - vm_compute. repeat split; reflexivity.
  - intros pp idepth. apply zero_or_nan_not_above.
    apply getdPixdd_at_rest. reflexivity.
  - vm_compute. repeat split; reflexivity.
Qed.

Lemma getdPixdd_not_negative_witness :
  let tmpRes := Scene.tmpRes0 (Scene.flat (of_int 50) zero zero Scene.tx) in
  let still := Scene.tmpRes0 (Scene.flat (of_int 50) zero zero Scene.t0) in
  let passed := Scene.tmpRes0 (Scene.flat (of_int 50) zero zero Scene.t_passed) in
  ((po_drescale (getdPixdd_projection Scene.pinhole Scene.calib0 Scene.fresh_point tmpRes one)
    >? zero) = true /\
   (fst (getdPixdd Scene.pinhole Scene.calib0 one (Scene.fresh_point, tmpRes)) <? zero)
   = false /\
   snd (getdPixdd Scene.pinhole Scene.calib0 one (Scene.fresh_point, tmpRes))
   = (Scene.fresh_point, tmpRes)) /\
  ((fst (getdPixdd Scene.pinhole Scene.calib0 one (Scene.passed_point, passed)) <? zero)
   = true /\
   (po_drescale (getdPixdd_projection Scene.pinhole Scene.calib0 Scene.passed_point passed one)
    <? zero) = true /\
   snd (getdPixdd Scene.pinhole Scene.calib0 one (Scene.passed_point, passed))
   = (Scene.passed_point, passed)) /\
  (at_rest (PRE_tTll (precalc_of Scene.still_point still)) = true /\
   is_zero (fst (getdPixdd Scene.pinhole Scene.calib0 one (Scene.still_point, still))) = true).
Proof.
  cbv zeta.
  assert (Hpos : (po_drescale (getdPixdd_projection Scene.pinhole Scene.calib0
                                 Scene.fresh_point
                                 (Scene.tmpRes0 (Scene.flat (of_int 50) zero zero Scene.tx)) one)
                  >? zero) = true) by (vm_compute; reflexivity).
  assert (Hneg : (fst (getdPixdd Scene.pinhole Scene.calib0 one
                         (Scene.passed_point,
                          Scene.tmpRes0 (Scene.flat (of_int 50) zero zero Scene.t_passed)))
                  <? zero) = true) by (vm_compute; reflexivity).
  assert (Hrest : at_rest (PRE_tTll (precalc_of Scene.still_point
                     (Scene.tmpRes0 (Scene.flat (of_int 50) zero zero Scene.t0)))) = true)
    by (vm_compute; reflexivity).
  split; [|split].
  - destruct (getdPixdd_not_negative Scene.pinhole Scene.calib0 Scene.fresh_point
                (Scene.tmpRes0 (Scene.flat (of_int 50) zero zero Scene.tx)) one)
      as (Hs & _ & Hp & _).
    split; [exact Hpos|]. split; [exact (Hp Hpos)|exact Hs].
  - destruct (getdPixdd_not_negative Scene.pinhole Scene.calib0 Scene.passed_point
                (Scene.tmpRes0 (Scene.flat (of_int 50) zero zero Scene.t_passed)) one)
      as (Hs & _ & _ & Hn & _).
    split; [exact Hneg|]. split; [exact (Hn Hneg)|exact Hs].
  - destruct (getdPixdd_not_negative Scene.pinhole Scene.calib0 Scene.still_point
                (Scene.tmpRes0 (Scene.flat (of_int 50) zero zero Scene.t0)) one)
      as (_ & _ & _ & _ & Hz).
    split; [exact Hrest|].
    destruct (Hz Hrest) as (_ & _ & Hfin). apply Hfin. vm_compute; reflexivity.
Defined.

(** ** Facts on rounding to binary32

    The standard library specifies the operations but proves nothing on
    them; what the statements on [traceOn] need is proved here: the
    result of an operation on canonical numbers is canonical, and the
    quotient of a number by a larger one is at most 2. *)

Lemma digits2_pos_size (p : positive) : digits2_pos p = Pos.size p.
Proof. induction p; simpl; congruence. Qed.

Lemma Zdigits2_log2 (m : Z) : (0 < m)%Z -> Zdigits2 m = (Z.log2 m + 1)%Z.
Proof.
  destruct m as [|p|p]; try lia. intros _. simpl.
  rewrite digits2_pos_size. destruct p; simpl; lia.
Qed.

Lemma Zdigits2_nonneg (m : Z) : (0 <= Zdigits2 m)%Z.
Proof. destruct m; simpl; lia. Qed.

Lemma Zdigits2_pos (m : Z) : (0 < m)%Z -> (0 < Zdigits2 m)%Z.
Proof. destruct m; simpl; lia. Qed.

Lemma Zdigits2_bounds (m : Z) :
  (0 < m)%Z -> (2 ^ (Zdigits2 m - 1) <= m < 2 ^ Zdigits2 m)%Z.
Proof.
  intros Hm. rewrite (Zdigits2_log2 m Hm).
  replace (Z.log2 m + 1 - 1)%Z with (Z.log2 m) by lia.
  replace (Z.log2 m + 1)%Z with (Z.succ (Z.log2 m)) by lia.
  apply Z.log2_spec. exact Hm.
Qed.

Lemma Zdigits2_unique (m k : Z) :
  (2 ^ (k - 1) <= m < 2 ^ k)%Z -> (0 < k)%Z -> Zdigits2 m = k.
Proof.
  intros H Hk.
  assert (Hm : (0 < m)%Z) by (pose proof (Z.pow_pos_nonneg 2 (k - 1)); lia).
  rewrite (Zdigits2_log2 m Hm).
  rewrite (Z.log2_unique m (k - 1)); [lia | lia |].
  replace (Z.succ (k - 1)) with k by lia. exact H.
Qed.

Lemma Zdigits2_le (a b : Z) : (0 < a <= b)%Z -> (Zdigits2 a <= Zdigits2 b)%Z.
Proof.
  intros H. rewrite !Zdigits2_log2 by lia.
  pose proof (Z.log2_le_mono a b). lia.
Qed.

(** Digits of a quotient by a power of two. *)
Lemma Zdigits2_div_pow2 (m n : Z) :
  (0 < m)%Z -> (0 <= n)%Z -> (0 < m / 2 ^ n)%Z ->
  Zdigits2 (m / 2 ^ n) = (Zdigits2 m - n)%Z.
Proof.
  intros Hm Hn Hq.
  rewrite (Zdigits2_log2 m Hm), (Zdigits2_log2 _ Hq).
  rewrite <- Z.shiftr_div_pow2 by lia.
  rewrite Z.log2_shiftr by lia.
  assert (2 ^ n <= m)%Z.
  { destruct (Z.le_gt_cases (2 ^ n) m) as [H|H]; [exact H|].
    rewrite Z.div_small in Hq by lia. lia. }
  assert (n <= Z.log2 m)%Z by (apply Z.log2_le_pow2; lia).
  lia.
Qed.

Lemma Zdigits2_mul_pow2 (m n : Z) :
  (0 < m)%Z -> (0 <= n)%Z -> Zdigits2 (m * 2 ^ n) = (Zdigits2 m + n)%Z.
Proof.
  intros Hm Hn.
  assert (0 < 2 ^ n)%Z by (apply Z.pow_pos_nonneg; lia).
  rewrite (Zdigits2_log2 m Hm), Zdigits2_log2 by nia.
  rewrite <- Z.shiftl_mul_pow2 by lia.
  rewrite Z.log2_shiftl by lia. lia.
Qed.

Lemma shr_1_m (mrs : shr_record) :
  (0 <= shr_m mrs)%Z -> shr_m (shr_1 mrs) = (shr_m mrs / 2)%Z.
Proof.
  destruct mrs as [m r s]. simpl. intros Hm.
  destruct m as [|[p|p|]|p]; simpl; try lia; try reflexivity.
  - rewrite Pos2Z.inj_xI.
    apply (Z.div_unique_pos _ 2 _ 1); lia.
  - rewrite Pos2Z.inj_xO.
    apply (Z.div_unique_pos _ 2 _ 0); lia.
Qed.

Lemma pow2_double (p : positive) : (2 ^ Zpos p~0 = 2 ^ Zpos p * 2 ^ Zpos p)%Z.
Proof. rewrite Pos2Z.inj_xO, <- Z.pow_add_r by lia. f_equal. lia. Qed.

Lemma pow2_double_succ (p : positive) : (2 ^ Zpos p~1 = 2 * (2 ^ Zpos p * 2 ^ Zpos p))%Z.
Proof.
  rewrite Pos2Z.inj_xI.
  replace (2 * Zpos p + 1)%Z with (1 + (Zpos p + Zpos p))%Z by lia.
  rewrite !Z.pow_add_r by lia. reflexivity.
Qed.

Lemma iter_pos_shr_1_m (p : positive) (mrs : shr_record) :
  (0 <= shr_m mrs)%Z ->
  shr_m (iter_pos shr_1 p mrs) = (shr_m mrs / 2 ^ Zpos p)%Z.
Proof.
  revert mrs. induction p as [p IH|p IH|]; intros mrs Hm; simpl iter_pos.
  - assert (Hp : (0 < 2 ^ Zpos p)%Z) by (apply Z.pow_pos_nonneg; lia).
    assert (H1 : (0 <= shr_m (shr_1 mrs))%Z)
      by (rewrite shr_1_m by lia; apply Z.div_pos; lia).
    assert (H2 : (0 <= shr_m (iter_pos shr_1 p (shr_1 mrs)))%Z)
      by (rewrite IH by lia; apply Z.div_pos; lia).
    rewrite IH, IH, shr_1_m by lia.
    rewrite !Z.div_div by lia.
    rewrite pow2_double_succ. reflexivity.
  - assert (Hp : (0 < 2 ^ Zpos p)%Z) by (apply Z.pow_pos_nonneg; lia).
    assert (H2 : (0 <= shr_m (iter_pos shr_1 p mrs))%Z)
      by (rewrite IH by lia; apply Z.div_pos; lia).
    rewrite IH, IH by lia.
    rewrite !Z.div_div by lia.
    rewrite pow2_double. reflexivity.
  - apply shr_1_m. exact Hm.
Qed.

Lemma shr_record_of_loc_m (m : Z) (l : location) : shr_m (shr_record_of_loc m l) = m.
Proof. destruct l as [|[]]; reflexivity. Qed.

Lemma loc_of_shr_record_of_loc (m : Z) (l : location) :
  loc_of_shr_record (shr_record_of_loc m l) = l.
Proof. destruct l as [|[]]; reflexivity. Qed.

(** The two cases of [shr_fexp]: a right shift down to the exponent
    [fexp (digits + e)], or nothing when the exponent is already there. *)
Lemma shr_fexp_shift (m e : Z) (l : location) :
  (0 <= m)%Z ->
  (e < fexp prec emax (Zdigits2 m + e))%Z ->
  shr_m (fst (shr_fexp prec emax m e l))
  = (m / 2 ^ (fexp prec emax (Zdigits2 m + e) - e))%Z /\
  snd (shr_fexp prec emax m e l) = fexp prec emax (Zdigits2 m + e).
Proof.
  intros Hm Hn. unfold shr_fexp, shr.
  destruct (fexp prec emax (Zdigits2 m + e) - e)%Z as [|n|n] eqn:Hd; try lia.
  simpl. rewrite iter_pos_shr_1_m by (rewrite shr_record_of_loc_m; exact Hm).
  rewrite shr_record_of_loc_m. split; [reflexivity | lia].
Qed.

Lemma shr_fexp_noshift (m e : Z) (l : location) :
  (fexp prec emax (Zdigits2 m + e) <= e)%Z ->
  shr_fexp prec emax m e l = (shr_record_of_loc m l, e).
Proof.
  intros Hn. unfold shr_fexp, shr.
  destruct (fexp prec emax (Zdigits2 m + e) - e)%Z as [|n|n] eqn:Hd; try lia; reflexivity.
Qed.

Lemma round_nearest_even_cases (m : Z) (l : location) :
  round_nearest_even m l = m \/ round_nearest_even m l = (m + 1)%Z.
Proof.
  destruct l as [|[]]; simpl; auto. destruct (Z.even m); auto.
Qed.

Lemma fexp_eq (e : Z) : fexp prec emax e = Z.max (e - 24) (-149).
Proof. reflexivity. Qed.

(** A number is in shape for rounding when its exponent is not above the
    canonical exponent of its magnitude: rounding then only shifts right. *)
Lemma shr_fexp_first (m e : Z) (l : location) :
  (0 < m)%Z ->
  (e <= fexp prec emax (Zdigits2 m + e))%Z ->
  let r := shr_fexp prec emax m e l in
  (0 <= shr_m (fst r))%Z /\
  snd r = fexp prec emax (Zdigits2 m + e) /\
  (0 < shr_m (fst r) -> Zdigits2 (shr_m (fst r)) + snd r = Zdigits2 m + e)%Z /\
  (shr_m (fst r) = 0%Z -> snd r = (-149)%Z).
Proof.
  intros Hm He. cbv zeta.
  destruct (Z.eq_dec e (fexp prec emax (Zdigits2 m + e))) as [Heq|Hne].
  - rewrite shr_fexp_noshift by lia. simpl. rewrite shr_record_of_loc_m.
    repeat split; try lia.
  - destruct (shr_fexp_shift m e l) as [H1 H2]; [lia | lia |].
    rewrite H1, H2.
    set (n := (fexp prec emax (Zdigits2 m + e) - e)%Z) in *.
    assert (Hn : (0 < n)%Z) by (unfold n; lia).
    assert (Hp : (0 < 2 ^ n)%Z) by (apply Z.pow_pos_nonneg; lia).
    repeat split.
    + apply Z.div_pos; lia.
    + intros Hq. rewrite Zdigits2_div_pow2 by lia. unfold n. lia.
    + intros Hq.
      assert (Hlt : (m < 2 ^ n)%Z).
      { destruct (Z.lt_ge_cases m (2 ^ n)) as [H|H]; [exact H|].
        assert (1 <= m / 2 ^ n)%Z by (apply Z.div_le_lower_bound; lia). lia. }
      pose proof (Zdigits2_bounds m Hm) as [Hlo _].
      assert (Zdigits2 m - 1 < n)%Z.
      { apply (Z.pow_lt_mono_r_iff 2); lia. }
      subst n. rewrite !fexp_eq in *. lia.
Qed.

Lemma shr_fexp_zero (e : Z) (l : location) :
  shr_m (fst (shr_fexp prec emax 0 e l)) = 0%Z.
Proof.
  destruct (Z.le_gt_cases (fexp prec emax (Zdigits2 0 + e)) e) as [H|H].
  - rewrite shr_fexp_noshift by exact H. simpl. apply shr_record_of_loc_m.
  - destruct (shr_fexp_shift 0 e l) as [H1 _]; [lia | lia |]. rewrite H1. apply Z.div_0_l.
    apply Z.pow_nonzero; lia.
Qed.

Lemma shr_fexp_canonical (m e : Z) (l : location) :
  (0 < m)%Z ->
  (e <= fexp prec emax (Zdigits2 m + e))%Z ->
  let r := shr_fexp prec emax m e l in
  (0 <= shr_m (fst r))%Z /\
  (0 < shr_m (fst r) -> fexp prec emax (Zdigits2 (shr_m (fst r)) + snd r) = snd r)%Z.
Proof.
  intros Hm He. destruct (shr_fexp_first m e l Hm He) as (H0 & H1 & H2 & _).
  cbv zeta. split; [exact H0|]. intros Hq. rewrite (H2 Hq). symmetry. exact H1.
Qed.

(** What rounding returns for a positive number in shape is canonical
    and within the exponent range. *)
Lemma binary_round_aux_valid (s : bool) (m e : Z) (l : location) :
  (0 < m)%Z ->
  (e <= fexp prec emax (Zdigits2 m + e))%Z ->
  valid_binary prec emax (binary_round_aux prec emax s m e l) = true.
Proof.
  intros Hm He. unfold binary_round_aux.
  destruct (shr_fexp_first m e l Hm He) as (H0 & H1 & H2 & H3).
  destruct (shr_fexp prec emax m e l) as [mrs1 e1]. simpl in H0, H1, H2, H3.
  set (m1 := round_nearest_even (shr_m mrs1) (loc_of_shr_record mrs1)).
  assert (Hm1 : m1 = shr_m mrs1 \/ m1 = (shr_m mrs1 + 1)%Z)
    by apply round_nearest_even_cases.
  destruct (Z.eq_dec m1 0) as [Hz|Hnz].
  - clearbody m1. subst m1.
    pose proof (shr_fexp_zero e1 loc_Exact) as Hr.
    destruct (shr_fexp prec emax 0 e1 loc_Exact) as [mrs2 e2]. simpl in Hr.
    rewrite Hr. reflexivity.
  - assert (Hpos : (0 < m1)%Z) by lia.
    assert (Hshape : (e1 <= fexp prec emax (Zdigits2 m1 + e1))%Z).
    { destruct (Z.eq_dec (shr_m mrs1) 0) as [Hq|Hq].
      - rewrite (H3 Hq), fexp_eq. lia.
      - assert (Hq' : (0 < shr_m mrs1)%Z) by lia.
        pose proof (H2 Hq') as Hd.
        assert (Zdigits2 (shr_m mrs1) <= Zdigits2 m1)%Z by (apply Zdigits2_le; lia).
        rewrite fexp_eq in H1 |- *. lia. }
    destruct (shr_fexp_canonical m1 e1 loc_Exact Hpos Hshape) as [Hr0 Hr1].
    destruct (shr_fexp prec emax m1 e1 loc_Exact) as [mrs2 e2]. simpl in Hr0, Hr1.
    destruct (shr_m mrs2) as [|q|q] eqn:Hq; try reflexivity.
    destruct (e2 <=? emax - prec)%Z eqn:Hle; [|reflexivity].
    simpl. unfold bounded, canonical_mantissa.
    rewrite Hle. rewrite andb_true_r. apply Z.eqb_eq.
    apply (Hr1 ltac:(lia)).
Qed.

Lemma Pos_iter_xO (m d : positive) : Zpos (Pos.iter xO m d) = (Zpos m * 2 ^ Zpos d)%Z.
Proof.
  induction d as [|d IH] using Pos.peano_ind.
  - simpl. lia.
  - rewrite Pos.iter_succ, Pos2Z.inj_xO, IH, Pos2Z.inj_succ, Z.pow_succ_r by lia. lia.
Qed.

Lemma shl_align_spec (mx : positive) (ex ex' : Z) :
  (ex' < ex /\ Zpos (fst (shl_align mx ex ex')) = Zpos mx * 2 ^ (ex - ex')
   /\ snd (shl_align mx ex ex') = ex')%Z
  \/ (ex <= ex' /\ shl_align mx ex ex' = (mx, ex))%Z.
Proof.
  unfold shl_align. destruct (ex' - ex)%Z as [|d|d] eqn:Hd.
  - right. split; [lia | reflexivity].
  - right. split; [lia | reflexivity].
  - left. simpl. rewrite Pos_iter_xO. replace (ex - ex')%Z with (Zpos d) by lia.
    repeat split; lia.
Qed.

Lemma binary_round_valid (s : bool) (m : positive) (e : Z) :
  valid_binary prec emax (binary_round prec emax s m e) = true.
Proof.
  unfold binary_round.
  change (Zpos (digits2_pos m)) with (Zdigits2 (Zpos m)).
  destruct (shl_align_spec m e (fexp prec emax (Zdigits2 (Zpos m) + e)))
    as [(Hlt & Hm & He)|(Hle & Heq)].
  - destruct (shl_align m e _) as [mz ez]. cbn [fst snd] in Hm, He. subst ez.
    apply binary_round_aux_valid; [lia|].
    rewrite Hm, Zdigits2_mul_pow2 by lia.
    replace (Zdigits2 (Zpos m) + (e - fexp prec emax (Zdigits2 (Zpos m) + e))
             + fexp prec emax (Zdigits2 (Zpos m) + e))%Z
      with (Zdigits2 (Zpos m) + e)%Z by lia.
    lia.
  - rewrite Heq. apply binary_round_aux_valid; lia.
Qed.

Lemma binary_normalize_valid (m e : Z) (szero : bool) :
  valid_binary prec emax (binary_normalize prec emax m e szero) = true.
Proof. destruct m; simpl; auto using binary_round_valid. Qed.

Lemma add_valid (a b : float) : valid a = true -> valid b = true -> valid (a + b) = true.
Proof.
  unfold valid.
  destruct a as [sa|sa| |sa ma ea], b as [sb|sb| |sb mb eb]; intros Ha Hb;
    try exact Ha; try exact Hb; try reflexivity;
    try (destruct sa, sb; reflexivity).
  apply binary_normalize_valid.
Qed.

Lemma sub_valid (a b : float) : valid a = true -> valid b = true -> valid (a - b) = true.
Proof.
  unfold valid.
  destruct a as [sa|sa| |sa ma ea], b as [sb|sb| |sb mb eb]; intros Ha Hb;
    try exact Ha; try exact Hb; try reflexivity;
    try (destruct sa, sb; reflexivity).
  apply binary_normalize_valid.
Qed.

(** A canonical pair: the mantissa has at most 24 digits, exactly 24
    above the smallest exponent. *)
Lemma bounded_inv (m : positive) (e : Z) :
  bounded prec emax m e = true ->
  (e = Z.max (Zdigits2 (Zpos m) + e - 24) (-149) /\ e <= 104)%Z.
Proof.
  unfold bounded, canonical_mantissa. intros H.
  apply andb_true_iff in H as [H1 H2].
  apply Z.eqb_eq in H1. apply Z.leb_le in H2.
  rewrite fexp_eq in H1. simpl Zdigits2. split; [lia | exact H2].
Qed.

Lemma Zdigits2_mul_ge (a b : Z) :
  (0 < a)%Z -> (0 < b)%Z -> (Zdigits2 a + Zdigits2 b - 1 <= Zdigits2 (a * b))%Z.
Proof.
  intros Ha Hb.
  pose proof (Zdigits2_bounds a Ha) as [Hla _].
  pose proof (Zdigits2_bounds b Hb) as [Hlb _].
  pose proof (Zdigits2_pos a Ha). pose proof (Zdigits2_pos b Hb).
  assert (Hab : (0 < a * b)%Z) by nia.
  rewrite (Zdigits2_log2 (a * b) Hab).
  assert (Zdigits2 a - 1 + (Zdigits2 b - 1) <= Z.log2 (a * b))%Z.
  { apply Z.log2_le_pow2; [exact Hab|].
    rewrite Z.pow_add_r by lia.
    apply Z.mul_le_mono_nonneg; try lia; apply Z.pow_nonneg; lia. }
  lia.
Qed.

Lemma mul_valid (a b : float) : valid a = true -> valid b = true -> valid (a * b) = true.
Proof.
  unfold valid.
  destruct a as [sa|sa| |sa ma ea], b as [sb|sb| |sb mb eb]; intros Ha Hb; try reflexivity.
  simpl in Ha, Hb. apply bounded_inv in Ha as [Ha _]. apply bounded_inv in Hb as [Hb _].
  unfold mul, SFmul. apply binary_round_aux_valid; [lia|].
  pose proof (Zdigits2_mul_ge (Zpos ma) (Zpos mb) ltac:(lia) ltac:(lia)) as Hd.
  pose proof (Zdigits2_pos (Zpos ma) ltac:(lia)).
  pose proof (Zdigits2_pos (Zpos mb) ltac:(lia)).
  change (Zpos (ma * mb)) with (Zpos ma * Zpos mb)%Z.
  rewrite fexp_eq. lia.
Qed.

(** Between canonical positive numbers, "not smaller" in the sense of
    [SFltb] is "not smaller" in value. *)
Lemma not_ltb_value (m1 : positive) (e1 : Z) (m2 : positive) (e2 : Z) :
  bounded prec emax m1 e1 = true ->
  bounded prec emax m2 e2 = true ->
  (S754_finite false m1 e1 <? S754_finite false m2 e2) = false ->
  (e2 <= e1 /\ Zpos m2 <= Zpos m1 * 2 ^ (e1 - e2))%Z.
Proof.
  intros H1 H2. apply bounded_inv in H1 as [H1 _]. apply bounded_inv in H2 as [H2 _].
  unfold ltb, SFltb, SFcompare.
  destruct (Z.compare_spec e1 e2) as [Heq|Hlt|Hgt]; try discriminate.
  - intros Hc. subst e2. rewrite Z.sub_diag. split; [lia|].
    change (Pos.compare_cont Eq m1 m2) with (Pos.compare m1 m2) in Hc.
    destruct (Pos.compare_spec m1 m2); try discriminate; lia.
  - intros _. split; [lia|].
    pose proof (Zdigits2_bounds (Zpos m1) ltac:(lia)) as [Hlo1 _].
    pose proof (Zdigits2_bounds (Zpos m2) ltac:(lia)) as [_ Hhi2].
    pose proof (Zdigits2_pos (Zpos m2) ltac:(lia)) as Hd2.
    assert (Hd1 : Zdigits2 (Zpos m1) = 24%Z) by lia.
    rewrite Hd1 in Hlo1.
    assert (Hle : (2 ^ Zdigits2 (Zpos m2) <= 2 ^ 24)%Z) by (apply Z.pow_le_mono_r; lia).
    assert (Hp : (2 ^ 1 <= 2 ^ (e1 - e2))%Z) by (apply Z.pow_le_mono_r; lia).
    change (2 ^ (24 - 1))%Z with 8388608%Z in Hlo1.
    change (2 ^ 24)%Z with 16777216%Z in Hle.
    change (2 ^ 1)%Z with 2%Z in Hp. nia.
Qed.

(** Rounding a number of value at most [2^k] leaves it at most [2^k]. *)
Lemma shr_fexp_le (m e : Z) (l : location) (k : Z) :
  (0 <= m <= 2 ^ (k - e))%Z -> (e <= k)%Z -> (-149 <= k)%Z ->
  let r := shr_fexp prec emax m e l in
  (0 <= shr_m (fst r) <= 2 ^ (k - snd r))%Z /\ (snd r <= k)%Z.
Proof.
  intros Hm He Hk. cbv zeta.
  destruct (Z.le_gt_cases (fexp prec emax (Zdigits2 m + e)) e) as [Hn|Hn].
  - rewrite shr_fexp_noshift by exact Hn. simpl. rewrite shr_record_of_loc_m. lia.
  - destruct (shr_fexp_shift m e l) as [H1 H2]; [lia | lia |].
    rewrite H1, H2.
    set (e1 := fexp prec emax (Zdigits2 m + e)) in *.
    assert (He1 : (e1 <= k)%Z).
    { destruct (Z.eq_dec m 0) as [->|Hnz].
      - subst e1. simpl Zdigits2. rewrite fexp_eq. lia.
      - pose proof (Zdigits2_bounds m ltac:(lia)) as [Hlo _].
        assert (Zdigits2 m - 1 <= k - e)%Z.
        { apply (Z.pow_le_mono_r_iff 2); lia. }
        subst e1. rewrite fexp_eq. lia. }
    assert (Hp : (0 < 2 ^ (e1 - e))%Z) by (apply Z.pow_pos_nonneg; lia).
    split; [|exact He1]. split.
    + apply Z.div_pos; lia.
    + apply Z.div_le_upper_bound; [exact Hp|].
      rewrite <- Z.pow_add_r by lia.
      replace (e1 - e + (k - e1))%Z with (k - e)%Z by lia. lia.
Qed.

(** Rounding a number of value at most 1 gives at most 2. *)
Lemma binary_round_aux_le_two (q e : Z) (l : location) :
  (0 <= q <= 2 ^ (- e))%Z -> (e <= 0)%Z ->
  match binary_round_aux prec emax false q e l with
  | S754_zero s => s = false
  | S754_finite s m' e' => s = false /\ (e' <= 1 /\ Zpos m' <= 2 ^ (1 - e'))%Z
  | _ => False
  end.
Proof.
  intros Hq He. unfold binary_round_aux.
  destruct (shr_fexp_le q e l 0) as [[H0 H1] H2]; [rewrite Z.sub_0_l; lia | lia | lia |].
  destruct (shr_fexp prec emax q e l) as [mrs1 e1]. cbn [fst snd] in H0, H1, H2.
  set (m1 := round_nearest_even (shr_m mrs1) (loc_of_shr_record mrs1)).
  assert (Hm1 : m1 = shr_m mrs1 \/ m1 = (shr_m mrs1 + 1)%Z)
    by apply round_nearest_even_cases.
  assert (Hb : (0 <= m1 <= 2 ^ (1 - e1))%Z).
  { replace (1 - e1)%Z with (1 + (0 - e1))%Z by lia.
    rewrite Z.pow_add_r by lia. change (2 ^ 1)%Z with 2%Z.
    assert (0 < 2 ^ (0 - e1))%Z by (apply Z.pow_pos_nonneg; lia). lia. }
  destruct (shr_fexp_le m1 e1 loc_Exact 1) as [[G0 G1] G2]; [exact Hb | lia | lia |].
  destruct (shr_fexp prec emax m1 e1 loc_Exact) as [mrs2 e2]. cbn [fst snd] in G0, G1, G2.
  destruct (shr_m mrs2) as [|m'|m'] eqn:Hm'; [reflexivity | | lia].
  replace (e2 <=? emax - prec)%Z with true; [auto|].
  symmetry. apply Z.leb_le. change (emax - prec)%Z with 104%Z. lia.
Qed.

Lemma of_int_2 : of_int 2 = S754_finite false 8388608 (-22).
Proof. reflexivity. Qed.

(** [2 - h] is not negative when [h] is at most 2. *)
Lemma two_sub_nonneg (m : positive) (e : Z) :
  (e <= 1)%Z -> (Zpos m <= 2 ^ (1 - e))%Z ->
  nonneg (of_int 2 - S754_finite false m e) = true.
Proof.
  intros He Hm. rewrite of_int_2. unfold sub, SFsub.
  apply binary_normalize_nonneg. simpl cond_Zopp.
  set (ez := Z.min (-22) e).
  assert (Hez1 : (ez <= -22)%Z) by (unfold ez; lia).
  assert (Hez2 : (ez <= e)%Z) by (unfold ez; lia).
  assert (H2 : Zpos (fst (shl_align 8388608 (-22) ez)) = (2 ^ (1 - ez))%Z).
  { destruct (shl_align_spec 8388608 (-22) ez) as [(_ & H & _)|(Hle & Heq)].
    - rewrite H. change 8388608%Z with (2 ^ 23)%Z. rewrite <- Z.pow_add_r by lia.
      f_equal. lia.
    - rewrite Heq. simpl fst. replace ez with (-22)%Z by lia. reflexivity. }
  assert (Hm' : (Zpos (fst (shl_align m e ez)) <= 2 ^ (1 - ez))%Z).
  { assert (Hp : (0 < 2 ^ (e - ez))%Z) by (apply Z.pow_pos_nonneg; lia).
    assert (Hx : (Zpos m * 2 ^ (e - ez) <= 2 ^ (1 - ez))%Z).
    { replace (1 - ez)%Z with ((1 - e) + (e - ez))%Z by lia.
      rewrite Z.pow_add_r by lia. apply Z.mul_le_mono_nonneg_r; lia. }
    destruct (shl_align_spec m e ez) as [(_ & H & _)|(Hle & Heq)].
    - rewrite H. exact Hx.
    - rewrite Heq. simpl fst. replace (e - ez)%Z with 0%Z in Hx by lia.
      rewrite Z.pow_0_r, Z.mul_1_r in Hx. exact Hx. }
  lia.
Qed.

(** The quotient of a canonical positive number by one that is not
    smaller is at most 2: subtracting it from 2 gives no negative number. *)
Lemma two_sub_div_nonneg (mt : positive) (et : Z) (mr : positive) (er : Z) :
  bounded prec emax mt et = true ->
  bounded prec emax mr er = true ->
  (S754_finite false mr er <? S754_finite false mt et) = false ->
  nonneg (of_int 2 - S754_finite false mt et / S754_finite false mr er) = true.
Proof.
  intros Ht Hr Hc.
  destruct (not_ltb_value mr er mt et Hr Ht Hc) as [He Hv].
  unfold div, SFdiv, SFdiv_core_binary. simpl xorb.
  set (e' := Z.min (fexp prec emax (Zdigits2 (Zpos mt) + et - (Zdigits2 (Zpos mr) + er)))
                   (et - er)).
  assert (He' : (e' <= et - er)%Z) by (unfold e'; lia).
  set (s := (et - er - e')%Z).
  assert (Hs : (0 <= s)%Z) by (unfold s; lia).
  set (m' := match s with Z.pos _ => Z.shiftl (Zpos mt) s | 0%Z => Zpos mt | Z.neg _ => 0%Z end).
  assert (Hm' : m' = (Zpos mt * 2 ^ s)%Z).
  { unfold m'. destruct s as [|p|p] eqn:Hsp; try lia.
    apply Z.shiftl_mul_pow2. lia. }
  assert (Hps : (0 < 2 ^ s)%Z) by (apply Z.pow_pos_nonneg; lia).
  assert (Hq : (0 <= m' / Zpos mr <= 2 ^ (- e'))%Z).
  { split.
    - apply Z.div_pos; lia.
    - apply Z.div_le_upper_bound; [lia|].
      rewrite Hm'. replace (- e')%Z with ((er - et) + s)%Z by (unfold s; lia).
      rewrite Z.pow_add_r by lia.
      rewrite Z.mul_assoc. apply Z.mul_le_mono_nonneg_r; lia. }
  unfold Z.div in Hq.
  destruct (Z.div_eucl m' (Zpos mr)) as [q r]. simpl fst in Hq.
  pose proof (binary_round_aux_le_two q e' (new_location (Zpos mr) r) Hq ltac:(lia)) as Hb.
  destruct (binary_round_aux prec emax false q e' (new_location (Zpos mr) r))
    as [sz| | |sz mz ez]; try contradiction.
  - subst sz. reflexivity.
  - destruct Hb as (-> & Hez & Hmz). apply two_sub_nonneg; assumption.
Qed.

(** ** The energies of the discrete search are not negative *)

Lemma SFadd_nonneg (pr em : Z) (a b : spec_float) :
  nonneg a = true -> nonneg b = true -> nonneg (SFadd pr em a b) = true.
Proof.
  destruct a as [[]|[]| |[] ma ea], b as [[]|[]| |[] mb eb]; simpl; intros; try discriminate;
    try reflexivity.
  apply nonneg_sign. apply binary_round_sign.
Qed.

Lemma to_double_nonneg (x : float) : nonneg x = true -> nonneg (to_double x) = true.
Proof.
  destruct x as [[]|[]| |[] m e]; simpl; intros; try discriminate; try reflexivity.
  apply nonneg_sign. apply binary_round_sign.
Qed.

Lemma of_double_nonneg (x : spec_float) : nonneg x = true -> nonneg (of_double x) = true.
Proof.
  destruct x as [[]|[]| |[] m e]; simpl; intros; try discriminate; try reflexivity.
  apply nonneg_sign. apply binary_round_sign.
Qed.

Lemma fadd_dbl_nonneg (x : float) :
  nonneg x = true -> nonneg (fadd_dbl x d_1e5) = true.
Proof.
  intros Hx. unfold fadd_dbl. apply of_double_nonneg. apply SFadd_nonneg.
  - apply to_double_nonneg. exact Hx.
  - reflexivity.
Qed.

Lemma fabsf_valid (x : float) : valid x = true -> valid (fabsf x) = true.
Proof. destruct x; simpl; auto. Qed.

(** The Huber weight [h] of a canonical residual: [h] and [2 - h] are
    not negative. *)
Lemma huber_weight_signs (G : Globals) (r : float) :
  huber_valid G -> valid r = true ->
  nonneg (huber_weight G r) = true /\ nonneg (of_int 2 - huber_weight G r) = true.
Proof.
  intros [Hv Hpos] Hr. unfold huber_weight.
  destruct (fabsf r <? setting_huberTH G) eqn:Hlt; [split; reflexivity|].
  destruct (setting_huberTH G) as [st|st| |st mt et] eqn:HTH; try discriminate Hpos.
  - (* infinite threshold *)
    destruct st; [discriminate Hpos|].
    destruct r as [sr|sr| |sr mr er]; try discriminate Hlt; split; reflexivity.
  - destruct st; [discriminate Hpos|].
    destruct r as [sr|sr| |sr mr er]; try discriminate Hlt; try (split; reflexivity).
    simpl fabsf in *. split.
    + apply div_nonneg; reflexivity.
    + apply two_sub_div_nonneg; assumption.
Qed.

Lemma huber_energy_nonneg (G : Globals) (r : float) :
  huber_valid G -> valid r = true -> nonneg (huber_energy G r) = true.
Proof.
  intros HG Hr. destruct (huber_weight_signs G r HG Hr) as [H1 H2].
  unfold huber_energy. apply mul_nonneg; [|exact H2].
  apply mul_mul_nonneg. exact H1.
Qed.

Lemma fold_left_invariant {A B : Type} (P : A -> Prop) (f : A -> B -> A) (l : list B) (a : A) :
  (forall x b, P x -> P (f x b)) -> P a -> P (fold_left f l a).
Proof.
  intros Hf. revert a. induction l as [|b l IH]; intros a Ha; simpl; auto.
Qed.

Lemma step_energy_nonneg G frame KRKi aff p ptx pty :
  huber_valid G ->
  (forall x y, valid (getInterpolatedElement31 frame x y) = true) ->
  valid (v2x aff) = true -> valid (v2y aff) = true ->
  colors_valid p ->
  nonneg (step_energy G frame KRKi aff p ptx pty) = true.
Proof.
  intros HG Himg Ha Hb Hc. unfold step_energy.
  apply (fold_left_invariant (fun e => nonneg e = true)); [|reflexivity].
  intros energy i He.
  destruct (isfinite (getInterpolatedElement31 frame _ _)); cbn [negb].
  - apply add_nonneg; [exact He|]. apply huber_energy_nonneg; [exact HG|].
    apply sub_valid; [apply Himg|].
    apply add_valid; [|exact Hb]. apply mul_valid; [exact Ha | apply Hc].
  - apply fadd_dbl_nonneg. exact He.
Qed.

Lemma nth_nonneg (l : list float) (i : nat) :
  Forall (fun e => nonneg e = true) l -> nonneg (nth_f l i) = true.
Proof.
  intros H. unfold nth_f. revert i. induction H as [|e l He _ IH]; intros [|i]; simpl; auto.
Qed.

Lemma discrete_search_nonneg G frame KRKi aff p l :
  huber_valid G ->
  (forall x y, valid (getInterpolatedElement31 frame x y) = true) ->
  valid (v2x aff) = true -> valid (v2y aff) = true ->
  colors_valid p ->
  nonneg (ss_bestEnergy (discrete_search G frame KRKi aff p l)) = true /\
  Forall (fun e => nonneg e = true) (ss_errors (discrete_search G frame KRKi aff p l)).
Proof.
  intros HG Himg Ha Hb Hc. unfold discrete_search.
  apply (fold_left_invariant
           (fun s => nonneg (ss_bestEnergy s) = true /\
                     Forall (fun e => nonneg e = true) (ss_errors s))).
  - intros s i [H1 H2]. unfold search_step. cbn [ss_bestEnergy ss_errors].
    pose proof (step_energy_nonneg G frame KRKi aff p (ss_ptx s) (ss_pty s) HG Himg Ha Hb Hc)
      as He.
    split.
    + destruct (_ <? _); assumption.
    + apply Forall_app. split; [exact H2 | constructor; [exact He | constructor]].
  - split; [reflexivity | constructor].
Qed.

Lemma secondBest_nonneg G bestIdx errors numSteps :
  Forall (fun e => nonneg e = true) errors ->
  nonneg (secondBest_of G bestIdx errors numSteps) = true.
Proof.
  intros H. unfold secondBest_of.
  apply (fold_left_invariant (fun e => nonneg e = true)); [|reflexivity].
  intros sb i Hsb. destruct (_ && _); [apply nth_nonneg; exact H | exact Hsb].
Qed.

Lemma newQuality_nonneg G frame KRKi aff p l :
  huber_valid G ->
  (forall x y, valid (getInterpolatedElement31 frame x y) = true) ->
  valid (v2x aff) = true -> valid (v2y aff) = true ->
  colors_valid p ->
  nonneg (newQuality_of G frame KRKi aff p l) = true.
Proof.
  intros HG Himg Ha Hb Hc.
  destruct (discrete_search_nonneg G frame KRKi aff p l HG Himg Ha Hb Hc) as [H1 H2].
  unfold newQuality_of. apply div_nonneg; [|exact H1].
  apply secondBest_nonneg. exact H2.
Qed.

(** ** The quality across calls *)

(** [traceOn] never writes the fingerprint. *)
Lemma traceOn_color G frame KRKi Kt aff p :
  color (snd (traceOn G frame KRKi Kt aff p)) = color p.
Proof.
  unfold traceOn.
  destruct (status_eqb (lastTraceStatus p) IPS_OOB); [reflexivity|].
  destruct (trace_line G KRKi Kt p) as [r|l] eqn:Hl.
  - revert Hl. unfold trace_line.
    destruct (in_image G (uMin_of KRKi Kt p) (vMin_of KRKi Kt p)); cbn [negb];
      [|intros [= <-]; reflexivity].
    destruct (trace_endpoint G KRKi Kt p) as [r'|[[dist uMax] vMax]] eqn:He.
    + intros [= <-]. revert He. unfold trace_endpoint.
      destruct (isfinite (idepth_max p)); repeat match goal with
        | |- context [if ?c then _ else _] => destruct c
        end; intros [= <-]; reflexivity.
    + repeat match goal with
        | |- context [if ?c then _ else _] => destruct c
        end; try discriminate; intros [= <-]; reflexivity.
  - unfold trace_finish.
    repeat match goal with
      | |- context [if ?c then _ else _] => destruct c
      | |- context [let '(_, _) := ?c in _] => destruct c
      end; reflexivity.
Qed.

(** Once the discrete search has run, the quality is the one the rule of
    the source gives, whatever exit the call then takes. *)
Lemma traceOn_quality_reached G frame KRKi Kt aff p l :
  lastTraceStatus p <> IPS_OOB ->
  trace_line G KRKi Kt p = inr l ->
  quality (snd (traceOn G frame KRKi Kt aff p))
  = quality_update (quality p) (newQuality_of G frame KRKi aff p l) (numSteps_of G (tl_dist l)).
Proof.
  intros Hst Hl. rewrite (traceOn_reaches_finish _ _ _ _ _ _ _ Hst Hl).
  unfold trace_finish.
  repeat match goal with
    | |- context [if ?c then _ else _] => destruct c
    | |- context [let '(_, _) := ?c in _] => destruct c
    end; reflexivity.
Qed.

(** One call keeps the quality from being negative. *)
Lemma trace_call_quality_nonneg G c p :
  huber_valid G -> colors_valid p -> call_valid c ->
  (quality p <? zero) = false ->
  (quality (snd (trace_call G c p)) <? zero) = false.
Proof.
  intros HG Hc (Himg & Ha & Hb) Hq. unfold trace_call.
  destruct (traceOn_quality G (tc_frame c) (tc_KRKi c) (tc_Kt c) (tc_affine c) p)
    as [->|(l & _ & ->)]; [exact Hq|].
  unfold quality_update. destruct (_ || _); [|exact Hq].
  apply nonneg_not_ltb_zero. apply newQuality_nonneg; assumption.
Qed.

Lemma trace_run_invariant G calls p :
  huber_valid G -> colors_valid p -> Forall call_valid calls ->
  (quality p <? zero) = false ->
  colors_valid (trace_run G calls p) /\ (quality (trace_run G calls p) <? zero) = false.
Proof.
  intros HG Hc Hcalls. revert p Hc.
  induction Hcalls as [|c calls Hv _ IH]; intros p Hc Hq; [split; assumption|].
  unfold trace_run. simpl. apply IH.
  - unfold colors_valid, trace_call. rewrite traceOn_color. exact Hc.
  - apply trace_call_quality_nonneg; assumption.
Qed.

(** C7.  Take a point whose quality is not negative (the constructor
    sets it to 10000) and any sequence of [traceOn] calls on it, then one
    more call.  The quality is not negative (never below zero; it is NaN
    when both energies of the ratio are 0) before that call nor after it,
    and the call either leaves the quality as it was or replaces it by the
    new ratio second-best / best; it replaces it only when the new ratio
    is lower than the stored quality or the number of discrete steps of
    that call exceeds 10, and in these two cases it does replace it, by a
    higher ratio too, once the call has come to the discrete search.  (The
    data are canonical binary32 numbers and the Huber threshold is
    positive.) *)
Theorem traceOn_quality_rule G calls c p :
  huber_valid G -> colors_valid p ->
  (quality p <? zero) = false ->
  Forall call_valid calls -> call_valid c ->
  let p1 := trace_run G calls p in
  let p2 := snd (trace_call G c p1) in
  (quality p1 <? zero) = false /\
  (quality p2 <? zero) = false /\
  (quality p2 = quality p1 \/
   exists l,
     trace_line G (tc_KRKi c) (tc_Kt c) p1 = inr l /\
     quality p2 = newQuality_of G (tc_frame c) (tc_KRKi c) (tc_affine c) p1 l /\
     ((newQuality_of G (tc_frame c) (tc_KRKi c) (tc_affine c) p1 l <? quality p1) = true \/
      (numSteps_of G (tl_dist l) > 10)%Z)) /\
  (forall l,
     lastTraceStatus p1 <> IPS_OOB ->
     trace_line G (tc_KRKi c) (tc_Kt c) p1 = inr l ->
     (newQuality_of G (tc_frame c) (tc_KRKi c) (tc_affine c) p1 l <? quality p1) = true \/
     (numSteps_of G (tl_dist l) > 10)%Z ->
     quality p2 = newQuality_of G (tc_frame c) (tc_KRKi c) (tc_affine c) p1 l).
Proof.
  intros HG Hc Hq Hcalls Hcv. cbv zeta.
  destruct (trace_run_invariant G calls p HG Hc Hcalls Hq) as [Hc1 Hq1].
  split; [exact Hq1|].
  split; [apply trace_call_quality_nonneg; assumption|].
  unfold trace_call. split.
  - destruct (traceOn_quality G (tc_frame c) (tc_KRKi c) (tc_Kt c) (tc_affine c)
                (trace_run G calls p)) as [H|(l & Hl & H)]; [now left|].
    rewrite H. unfold quality_update.
    destruct (newQuality_of G (tc_frame c) (tc_KRKi c) (tc_affine c) (trace_run G calls p) l
              <? quality (trace_run G calls p)) eqn:Hlt; cbn [orb].
    + right. exists l. auto.
    + destruct (numSteps_of G (tl_dist l) >? 10)%Z eqn:Hn.
      * right. exists l. split; [exact Hl|]. split; [reflexivity|]. right.
        apply Z.gtb_lt in Hn. lia.
      * now left.
  - intros l Hst Hl Hcond.
    rewrite (traceOn_quality_reached _ _ _ _ _ _ _ Hst Hl). unfold quality_update.
    destruct Hcond as [->|Hn]; [reflexivity|].
    replace (numSteps_of G (tl_dist l) >? 10)%Z with true
      by (symmetry; apply Z.gtb_lt; lia).
    rewrite orb_true_r. reflexivity.
Qed.

Lemma scene_colors_valid : colors_valid Scene.fresh_point.
Proof.
  intros i. do 8 (destruct i as [|i]; [reflexivity|]). destruct i; reflexivity.
Qed.

Lemma ramp_call_valid : call_valid ramp_call.
Proof.
  split; [|split; reflexivity].
  intros x y. simpl. unfold ramp_intensity.
  destruct (valid x) eqn:Hx; [exact Hx | reflexivity].
Qed.

Lemma traceOn_quality_rule_witness :
  huber_valid Scene.G0 /\ colors_valid Scene.fresh_point /\
  (quality Scene.fresh_point <? zero) = false /\
  Forall call_valid [ramp_call] /\ call_valid ramp_call /\
  let p1 := trace_run Scene.G0 [ramp_call] Scene.fresh_point in
  let p2 := snd (trace_call Scene.G0 ramp_call p1) in
  (quality p1 <? zero) = false /\
  (quality p2 <? zero) = false /\
  (quality p2 = quality p1 \/
   exists l,
     trace_line Scene.G0 (tc_KRKi ramp_call) (tc_Kt ramp_call) p1 = inr l /\
     quality p2 = newQuality_of Scene.G0 (tc_frame ramp_call) (tc_KRKi ramp_call)
                    (tc_affine ramp_call) p1 l /\
     ((newQuality_of Scene.G0 (tc_frame ramp_call) (tc_KRKi ramp_call)
         (tc_affine ramp_call) p1 l <? quality p1) = true \/
      (numSteps_of Scene.G0 (tl_dist l) > 10)%Z)) /\
  (forall l,
     lastTraceStatus p1 <> IPS_OOB ->
     trace_line Scene.G0 (tc_KRKi ramp_call) (tc_Kt ramp_call) p1 = inr l ->
     (newQuality_of Scene.G0 (tc_frame ramp_call) (tc_KRKi ramp_call)
        (tc_affine ramp_call) p1 l <? quality p1) = true \/
     (numSteps_of Scene.G0 (tl_dist l) > 10)%Z ->
     quality p2 = newQuality_of Scene.G0 (tc_frame ramp_call) (tc_KRKi ramp_call)
                    (tc_affine ramp_call) p1 l).
Proof.
  assert (HG : huber_valid Scene.G0) by (split; reflexivity).
  assert (Hq : (quality Scene.fresh_point <? zero) = false) by reflexivity.
  assert (Hcalls : Forall call_valid [ramp_call])
    by (constructor; [exact ramp_call_valid | constructor]).
  split; [exact HG|]. split; [exact scene_colors_valid|]. split; [exact Hq|].
  split; [exact Hcalls|]. split; [exact ramp_call_valid|].
  exact (traceOn_quality_rule Scene.G0 [ramp_call] ramp_call Scene.fresh_point
           HG scene_colors_valid Hq Hcalls ramp_call_valid).
Defined.

(** ** The constructor *)

Lemma set_nth_length {A : Type} (l : list A) (i : nat) (x : A) :
  length (set_nth l i x) = length l.
Proof.
  revert i. induction l as [|h t IH]; intros [|i]; simpl; auto.
Qed.

Lemma set_nth_same {A : Type} (l : list A) (i : nat) (x d : A) :
  (i < length l)%nat -> nth i (set_nth l i x) d = x.
Proof.
  revert i. induction l as [|h t IH]; intros [|i] Hi; simpl in *; try lia; auto.
  apply IH. lia.
Qed.

Lemma set_nth_other {A : Type} (l : list A) (i j : nat) (x d : A) :
  i <> j -> nth j (set_nth l i x) d = nth j l d.
Proof.
  revert i j. induction l as [|h t IH]; intros [|i] [|j] Hij; simpl; auto; try lia.
Qed.

Section ConstructorFacts.

Variable getInterpolatedElement33BiLin : FrameHessian -> float -> float -> Vec3f.
Variable PS : PointSettings.

(** A sample that is not finite stops the loop. *)
Lemma ctor_loop_stops host_ u_ v_ i :
  isfinite (v3x (ctor_sample getInterpolatedElement33BiLin host_ u_ v_ i)) = false ->
  forall idxs acc, In i idxs ->
    exists acc', ctor_loop getInterpolatedElement33BiLin PS host_ u_ v_ idxs acc = inl acc'.
Proof.
  intros Hi. induction idxs as [|j rest IH]; intros acc Hin; [contradiction|].
  cbn [ctor_loop].
  destruct (isfinite (v3x (ctor_sample getInterpolatedElement33BiLin host_ u_ v_ j))) eqn:Hj;
    cbn [negb]; [|eauto].
  destruct Hin as [->|Hin]; [congruence|]. apply IH. exact Hin.
Qed.

(** What a complete run of the loop over the indices [a .. a+n-1] has
    written: those entries, and nothing else. *)
Lemma ctor_loop_done host_ u_ v_ n :
  forall a acc acc',
    (a + n <= length (ca_color acc))%nat ->
    (a + n <= length (ca_weights acc))%nat ->
    ctor_loop getInterpolatedElement33BiLin PS host_ u_ v_ (seq a n) acc = inr acc' ->
    length (ca_color acc') = length (ca_color acc) /\
    length (ca_weights acc') = length (ca_weights acc) /\
    (forall i, (a <= i < a + n)%nat ->
       let ptc := ctor_sample getInterpolatedElement33BiLin host_ u_ v_ i in
       isfinite (v3x ptc) = true /\
       nth_f (ca_color acc') i = v3x ptc /\
       nth_f (ca_weights acc') i = ctor_weight PS (v3y ptc) (v3z ptc)) /\
    (forall i, (i < a)%nat ->
       nth_f (ca_color acc') i = nth_f (ca_color acc) i /\
       nth_f (ca_weights acc') i = nth_f (ca_weights acc) i).
Proof.
  induction n as [|n IH]; intros a acc acc' Hc Hw.
  - cbn [seq ctor_loop]. intros [= <-]. repeat split; intros; lia.
  - cbn [seq ctor_loop].
    destruct (isfinite (v3x (ctor_sample getInterpolatedElement33BiLin host_ u_ v_ a))) eqn:Ha;
      cbn [negb]; [|discriminate].
    intros Hl. apply IH in Hl; cbn [ca_color ca_weights] in *;
      try (rewrite set_nth_length; lia).
    destruct Hl as (L1 & L2 & Hin & Hout).
    rewrite set_nth_length in L1, L2.
    split; [exact L1|]. split; [exact L2|]. split.
    + intros i Hi. cbv zeta. destruct (Nat.eq_dec i a) as [->|Hne].
      * destruct (Hout a ltac:(lia)) as [H1 H2]. rewrite H1, H2.
        unfold nth_f. rewrite !set_nth_same by lia. auto.
      * apply Hin. lia.
    + intros i Hi. destruct (Hout i ltac:(lia)) as [H1 H2]. rewrite H1, H2.
      unfold nth_f. rewrite !set_nth_other by lia. auto.
Qed.

Lemma ctor_loop_completes host_ u_ v_ idxs :
  (forall i, In i idxs ->
     isfinite (v3x (ctor_sample getInterpolatedElement33BiLin host_ u_ v_ i)) = true) ->
  forall acc, exists acc',
    ctor_loop getInterpolatedElement33BiLin PS host_ u_ v_ idxs acc = inr acc'.
Proof.
  induction idxs as [|i rest IH]; intros Hall acc; cbn [ctor_loop]; [eauto|].
  rewrite (Hall i (or_introl eq_refl)). cbn [negb].
  apply IH. intros j Hj. apply Hall. now right.
Qed.

(** X1.  If one of the eight samples of the fingerprint is not finite,
    the constructor leaves [energyTH] at NaN; the interval is
    [0, NaN] and the status is "uninitialized" as on every path. *)
Theorem ctor_aborts u_ v_ host_ type i :
  (i < patternNum)%nat ->
  isfinite (v3x (ctor_sample getInterpolatedElement33BiLin host_ (of_int u_) (of_int v_) i))
  = false ->
  let p := ImmaturePoint_ctor getInterpolatedElement33BiLin PS u_ v_ host_ type in
  energyTH p = NAN /\ isfinite (energyTH p) = false /\
  idepth_min p = zero /\ idepth_max p = NAN /\ lastTraceStatus p = IPS_UNINITIALIZED.
Proof.
  intros Hi Hbad. cbv zeta. unfold ImmaturePoint_ctor.
  destruct (ctor_loop_stops host_ (of_int u_) (of_int v_) i Hbad (seq 0 patternNum) ctor_start)
    as [acc' ->]; [apply in_seq; lia|].
  repeat split.
Qed.

(** X2.  If the eight samples are finite, the constructor stores them as
    the fingerprint (eight finite colours) with their weights, sets the
    energy threshold to [patternNum * outlierTH * weight^2], the quality
    to 10000, the interval to [0, NaN] and the status to
    "uninitialized". *)
Theorem ctor_completes u_ v_ host_ type :
  (forall i, (i < patternNum)%nat ->
     isfinite (v3x (ctor_sample getInterpolatedElement33BiLin host_ (of_int u_) (of_int v_) i))
     = true) ->
  let p := ImmaturePoint_ctor getInterpolatedElement33BiLin PS u_ v_ host_ type in
  length (color p) = patternNum /\ length (weights p) = patternNum /\
  (forall i, (i < patternNum)%nat ->
     let ptc := ctor_sample getInterpolatedElement33BiLin host_ (of_int u_) (of_int v_) i in
     nth_f (color p) i = v3x ptc /\ isfinite (nth_f (color p) i) = true /\
     nth_f (weights p) i = ctor_weight PS (v3y ptc) (v3z ptc)) /\
  energyTH p = of_int 8 * setting_outlierTH PS
               * (setting_overallEnergyTHWeight PS * setting_overallEnergyTHWeight PS) /\
  quality p = of_int 10000 /\
  idepth_min p = zero /\ idepth_max p = NAN /\ lastTraceStatus p = IPS_UNINITIALIZED.
Proof.
  intros Hall. cbv zeta. unfold ImmaturePoint_ctor.
  destruct (ctor_loop_completes host_ (of_int u_) (of_int v_) (seq 0 patternNum)) with
    (acc := ctor_start) as [acc' Hl].
  { intros i Hi. apply Hall. apply in_seq in Hi. lia. }
  rewrite Hl. cbn [color weights energyTH quality idepth_min idepth_max lastTraceStatus].
  apply ctor_loop_done in Hl;
    [|unfold ctor_start; cbn [ca_color ca_weights]; rewrite repeat_length; lia ..].
  destruct Hl as (L1 & L2 & Hin & _).
  split; [rewrite L1; reflexivity|]. split; [rewrite L2; reflexivity|].
  split; [|repeat split].
  intros i Hi. destruct (Hin i ltac:(lia)) as (H1 & H2 & H3).
  cbv zeta. rewrite H2, H3. auto.
Qed.

End ConstructorFacts.

(** ** Every exit of [traceOn] *)

Lemma trace_endpoint_exits G KRKi Kt p r :
  trace_endpoint G KRKi Kt p = inl r ->
  r = fail_with p IPS_OOB \/
  (isfinite (idepth_max p) = true /\
   exists uv d, r = (IPS_SKIPPED, set_trace p uv d IPS_SKIPPED) /\
                (d <? setting_trace_slackInterval G) = true).
Proof.
  unfold trace_endpoint.
  destruct (isfinite (idepth_max p)) eqn:Hfin.
  - destruct (in_image G (uMax_of KRKi Kt p) (vMax_of KRKi Kt p)); cbn [negb].
    + destruct (endpoint_dist KRKi Kt p <? setting_trace_slackInterval G) eqn:Hd;
        [|discriminate].
      intros [= <-]. right. split; [reflexivity|]. eauto.
    + intros [= <-]. now left.
  - match goal with |- context [negb ?b] => destruct b end; cbn [negb].
    + discriminate.
    + intros [= <-]. now left.
Qed.

Lemma trace_line_exits G KRKi Kt p r :
  trace_line G KRKi Kt p = inl r ->
  r = fail_with p IPS_OOB \/
  (isfinite (idepth_max p) = true /\
   exists uv d, r = (IPS_SKIPPED, set_trace p uv d IPS_SKIPPED) /\
                (d <? setting_trace_slackInterval G) = true) \/
  (isfinite (idepth_max p) = true /\
   exists uv d, r = (IPS_BADCONDITION, set_trace p uv d IPS_BADCONDITION)).
Proof.
  unfold trace_line.
  destruct (in_image G (uMin_of KRKi Kt p) (vMin_of KRKi Kt p)); cbn [negb];
    [|intros [= <-]; now left].
  destruct (trace_endpoint G KRKi Kt p) as [r'|[[dist uMax] vMax]] eqn:He.
  - intros [= <-]. destruct (trace_endpoint_exits _ _ _ _ _ He) as [->|H]; auto.
  - destruct (scale_ok KRKi Kt p); cbn [negb]; [|intros [= <-]; now left].
    match goal with |- context [if ?c && isfinite (idepth_max p) then _ else _] =>
      destruct c end; cbn [andb].
    + destruct (isfinite (idepth_max p)) eqn:Hfin.
      * intros [= <-]. right. right. split; [reflexivity|]. eauto.
      * match goal with |- context [if dist >? ?m then _ else _] => destruct (dist >? m) end;
          match goal with |- context [if ?c then inl _ else inr _] => destruct c end;
          try discriminate; intros [= <-]; now left.
    + match goal with |- context [if dist >? ?m then _ else _] => destruct (dist >? m) end;
        match goal with |- context [if ?c then inl _ else inr _] => destruct c end;
        try discriminate; intros [= <-]; now left.
Qed.

Lemma trace_finish_exits G Kt q l g :
  (trace_finish G Kt q l g = fail_with q IPS_OOB /\ lastTraceStatus q = IPS_OUTLIER) \/
  trace_finish G Kt q l g = fail_with q IPS_OUTLIER \/
  (exists lo hi, trace_finish G Kt q l g = fail_with (set_idepth q lo hi) IPS_OUTLIER) \/
  (exists lo hi uv d,
      trace_finish G Kt q l g = (IPS_GOOD, set_trace (set_idepth q lo hi) uv d IPS_GOOD) /\
      (gn_bestEnergy g <? energyTH q * setting_trace_extraSlackOnTH G) = true).
Proof.
  unfold trace_finish.
  destruct (gn_bestEnergy g <? energyTH q * setting_trace_extraSlackOnTH G); cbn [negb].
  - destruct (new_interval Kt l (gn_bestU g) (gn_bestV g)) as [lo hi].
    destruct (interval_invalid lo hi).
    + right. right. left. eauto.
    + right. right. right. exists lo, hi. eauto.
  - destruct (status_eqb (lastTraceStatus q) IPS_OUTLIER) eqn:Hs.
    + left. apply status_eqb_eq in Hs. auto.
    + right. now left.
Qed.

(** The exits of a call, with the point each of them leaves. *)
Lemma traceOn_exits G frame KRKi Kt aff p :
  let r := traceOn G frame KRKi Kt aff p in
  (lastTraceStatus p = IPS_OOB /\ r = (IPS_OOB, p)) \/
  (lastTraceStatus p <> IPS_OOB /\
   (r = fail_with p IPS_OOB \/
    (isfinite (idepth_max p) = true /\
     exists uv d, r = (IPS_SKIPPED, set_trace p uv d IPS_SKIPPED) /\
                  (d <? setting_trace_slackInterval G) = true) \/
    (isfinite (idepth_max p) = true /\
     exists uv d, r = (IPS_BADCONDITION, set_trace p uv d IPS_BADCONDITION)) \/
    (exists l, trace_line G KRKi Kt p = inr l /\
               r = trace_finish G Kt (with_quality G frame KRKi aff p l) l
                     (gn_refine G frame KRKi aff p l)))).
Proof.
  cbv zeta. unfold traceOn.
  destruct (status_eqb (lastTraceStatus p) IPS_OOB) eqn:Hs.
  - left. apply status_eqb_eq in Hs. rewrite Hs. auto.
  - right. split; [intros H; rewrite H in Hs; discriminate|].
    destruct (trace_line G KRKi Kt p) as [r|l] eqn:Hl.
    + destruct (trace_line_exits _ _ _ _ _ Hl) as [H|[H|H]]; auto.
    + right. right. right. eauto.
Qed.

(** The tactic that goes through the exits of a call [r]: each goal gets
    [r] replaced by the pair the exit returns. *)
Ltac trace_exits G frame KRKi Kt aff p :=
  let l := fresh "l" in
  let Hl := fresh "Hl" in
  let Hst := fresh "Hst" in
  let Hfin := fresh "Hfin" in
  let Hd := fresh "Hd" in
  let He := fresh "He" in
  let uv := fresh "uv" in
  let d := fresh "d" in
  let lo := fresh "lo" in
  let hi := fresh "hi" in
  destruct (traceOn_exits G frame KRKi Kt aff p)
    as [[Hst ->]|[Hst [->|[(Hfin & uv & d & -> & Hd)|[(Hfin & uv & d & ->)|(l & Hl & ->)]]]]];
  [ | | | |
    destruct (trace_finish_exits G Kt (with_quality G frame KRKi aff p l) l
                (gn_refine G frame KRKi aff p l))
      as [[-> Hd]|[->|[(lo & hi & ->)|(lo & hi & uv & d & -> & He)]]] ].

Lemma traceOn_stores_status G frame KRKi Kt aff p :
  lastTraceStatus (snd (traceOn G frame KRKi Kt aff p)) = fst (traceOn G frame KRKi Kt aff p).
Proof.
  trace_exits G frame KRKi Kt aff p; cbn [fst snd fail_with set_trace lastTraceStatus]; auto.
Qed.

(** X5.  The status a call returns is the status it stores in the point,
    and it is never "uninitialized". *)
Theorem traceOn_status_stored G frame KRKi Kt aff p :
  lastTraceStatus (snd (traceOn G frame KRKi Kt aff p)) = fst (traceOn G frame KRKi Kt aff p) /\
  fst (traceOn G frame KRKi Kt aff p) <> IPS_UNINITIALIZED.
Proof.
  trace_exits G frame KRKi Kt aff p; cbn [fst snd fail_with set_trace lastTraceStatus];
    (split; [auto|discriminate]).
Qed.

(** What a call never writes: the position, the fingerprint and its
    weights, the gradient matrix, the energy threshold, the host, the
    type and the ground-truth depth. *)
Lemma traceOn_frame G frame KRKi Kt aff p :
  let q := snd (traceOn G frame KRKi Kt aff p) in
  u q = u p /\ v q = v p /\ color q = color p /\ weights q = weights p /\
  gradH q = gradH p /\ energyTH q = energyTH p /\ host q = host p /\
  my_type q = my_type p /\ idepth_GT q = idepth_GT p.
Proof.
  cbv zeta. trace_exits G frame KRKi Kt aff p; repeat split.
Qed.

Lemma trace_run_energyTH G calls p : energyTH (trace_run G calls p) = energyTH p.
Proof.
  revert p. induction calls as [|c calls IH]; intros p; [reflexivity|].
  unfold trace_run. cbn [fold_left]. fold (trace_run G calls (snd (trace_call G c p))).
  rewrite IH. unfold trace_call.
  apply (traceOn_frame G (tc_frame c) (tc_KRKi c) (tc_Kt c) (tc_affine c) p).
Qed.

(** X6.  Across any sequence of calls the point keeps its position, its
    fingerprint and weights, its gradient matrix, its energy threshold,
    its host, its type and its ground-truth depth: [traceOn] writes only
    the interval, the quality and the three "last trace" fields. *)
Theorem trace_run_frame G calls p :
  let q := trace_run G calls p in
  u q = u p /\ v q = v p /\ color q = color p /\ weights q = weights p /\
  gradH q = gradH p /\ energyTH q = energyTH p /\ host q = host p /\
  my_type q = my_type p /\ idepth_GT q = idepth_GT p.
Proof.
  cbv zeta. revert p. induction calls as [|c calls IH]; intros p; [repeat split|].
  unfold trace_run. cbn [fold_left].
  destruct (IH (snd (trace_call G c p)))
    as (H1 & H2 & H3 & H4 & H5 & H6 & H7 & H8 & H9).
  destruct (traceOn_frame G (tc_frame c) (tc_KRKi c) (tc_Kt c) (tc_affine c) p)
    as (F1 & F2 & F3 & F4 & F5 & F6 & F7 & F8 & F9).
  unfold trace_run in *. unfold trace_call in *.
  repeat split; congruence.
Qed.

(** X7.  Out-of-bounds is absorbing: once a call has returned it, every
    later call returns it again and no later sequence of calls changes
    the point. *)
Theorem traceOn_oob_absorbing G c p calls c' :
  fst (trace_call G c p) = IPS_OOB ->
  trace_run G calls (snd (trace_call G c p)) = snd (trace_call G c p) /\
  fst (trace_call G c' (trace_run G calls (snd (trace_call G c p)))) = IPS_OOB.
Proof.
  intros Hoob.
  assert (Hst : lastTraceStatus (snd (trace_call G c p)) = IPS_OOB).
  { unfold trace_call in *.
    pose proof (traceOn_stores_status G (tc_frame c) (tc_KRKi c) (tc_Kt c) (tc_affine c) p)
      as H. congruence. }
  assert (Hstep : forall c0 q, lastTraceStatus q = IPS_OOB -> trace_call G c0 q = (IPS_OOB, q)).
  { intros c0 q Hq. unfold trace_call, traceOn. rewrite Hq. reflexivity. }
  assert (Hrun : forall cs q, lastTraceStatus q = IPS_OOB -> trace_run G cs q = q).
  { induction cs as [|c0 cs IH]; intros q Hq; [reflexivity|].
    unfold trace_run. cbn [fold_left]. rewrite (Hstep c0 q Hq). cbn [snd].
    apply IH. exact Hq. }
  rewrite (Hrun calls _ Hst). split; [reflexivity|].
  rewrite (Hstep c' _ Hst). reflexivity.
Qed.

(** X8.  The interval changes only in a call that returns "good" or
    "outlier": after any other result [idepth_min] and [idepth_max] are
    the ones on entry. *)
Theorem traceOn_interval_kept G frame KRKi Kt aff p :
  fst (traceOn G frame KRKi Kt aff p) <> IPS_GOOD ->
  fst (traceOn G frame KRKi Kt aff p) <> IPS_OUTLIER ->
  idepth_min (snd (traceOn G frame KRKi Kt aff p)) = idepth_min p /\
  idepth_max (snd (traceOn G frame KRKi Kt aff p)) = idepth_max p.
Proof.
  trace_exits G frame KRKi Kt aff p; cbn [fst snd fail_with]; intros H1 H2;
    try contradiction; split; reflexivity.
Qed.

(** X9.  When a call on a point that is not yet out-of-bounds returns
    "out-of-bounds" or "outlier", it has reset the last traced position
    to (-1, -1) and the last pixel interval to 0. *)
Theorem traceOn_failure_resets G frame KRKi Kt aff p :
  lastTraceStatus p <> IPS_OOB ->
  fst (traceOn G frame KRKi Kt aff p) = IPS_OOB \/
  fst (traceOn G frame KRKi Kt aff p) = IPS_OUTLIER ->
  lastTraceUV (snd (traceOn G frame KRKi Kt aff p)) = V2 (of_int (-1)) (of_int (-1)) /\
  lastTracePixelInterval (snd (traceOn G frame KRKi Kt aff p)) = zero.
Proof.
  intros Hp.
  trace_exits G frame KRKi Kt aff p; cbn [fst snd fail_with]; intros [H|H];
    try discriminate; try contradiction; split; reflexivity.
Qed.

(** X10.  "Skipped" and "bad condition" are returned only for a point
    whose [idepth_max] is finite, and "skipped" stores a pixel interval
    below the slack interval. *)
Theorem traceOn_skip_needs_bound G frame KRKi Kt aff p :
  (fst (traceOn G frame KRKi Kt aff p) = IPS_SKIPPED \/
   fst (traceOn G frame KRKi Kt aff p) = IPS_BADCONDITION ->
   isfinite (idepth_max p) = true) /\
  (fst (traceOn G frame KRKi Kt aff p) = IPS_SKIPPED ->
   (lastTracePixelInterval (snd (traceOn G frame KRKi Kt aff p))
    <? setting_trace_slackInterval G) = true).
Proof.
  trace_exits G frame KRKi Kt aff p; cbn [fst snd fail_with]; split;
    try (intros [H|H]; try discriminate; assumption);
    try (intros H; try discriminate; assumption).
Qed.

(** X11.  A point whose energy threshold is NaN (what the constructor
    leaves when a sample is not finite) never gets "good", in no sequence
    of calls: the energy test cannot pass. *)
Theorem traceOn_nan_threshold_never_good G calls c p :
  energyTH p = NAN ->
  fst (trace_call G c (trace_run G calls p)) <> IPS_GOOD.
Proof.
  intros Hth.
  pose proof (trace_run_energyTH G calls p) as Hq.
  rewrite Hth in Hq. unfold trace_call.
  set (q := trace_run G calls p) in *.
  trace_exits G (tc_frame c) (tc_KRKi c) (tc_Kt c) (tc_affine c) q;
    cbn [fst]; try discriminate; try congruence.
  revert He. change (energyTH (with_quality G (tc_frame c) (tc_KRKi c) (tc_affine c) q l))
    with (energyTH q). rewrite Hq.
  destruct (gn_bestEnergy _) as [s|s| |s m e]; discriminate.
Qed.

(** ** The discrete search *)

Lemma ltb_irrefl (a : float) : (a <? a) = false.
Proof.
  destruct (a <? a) eqn:H; [|reflexivity]. pose proof (ltb_asym _ _ H). congruence.
Qed.

Lemma SFcompare_finite_lt (s1 s2 : bool) (m1 m2 : positive) (e1 e2 : Z) :
  SFcompare (S754_finite s1 m1 e1) (S754_finite s2 m2 e2) = Some Lt <->
  match s1, s2 with
  | true, false => True
  | false, true => False
  | false, false => (e1 < e2 \/ (e1 = e2 /\ Zpos m1 < Zpos m2))%Z
  | true, true => (e2 < e1 \/ (e1 = e2 /\ Zpos m2 < Zpos m1))%Z
  end.
Proof.
  unfold SFcompare.
  change (PosDef.Pos.compare_cont Eq m1 m2) with (Pos.compare m1 m2).
  destruct s1, s2; try (split; [intros; exact I | reflexivity]);
    try (split; [discriminate | contradiction]);
    destruct (Z.compare_spec e1 e2); destruct (Pos.compare_spec m1 m2); simpl;
    split; intros H'; try discriminate; try reflexivity; try lia;
    try (subst; lia); try (destruct H' as [H'|[H1 H2]]; subst; lia).
Qed.

Lemma ltb_trans (a b c : float) :
  (a <? b) = true -> (b <? c) = true -> (a <? c) = true.
Proof.
  unfold ltb, SFltb.
  destruct (SFcompare a b) as [[]|] eqn:Hab; try discriminate.
  destruct (SFcompare b c) as [[]|] eqn:Hbc; try discriminate.
  intros _ _.
  destruct a as [sa|sa| |sa ma ea], b as [sb|sb| |sb mb eb], c as [sc|sc| |sc mc ec];
    try discriminate;
    try (destruct sa, sb; discriminate); try (destruct sb, sc; discriminate);
    try (destruct sa; discriminate); try (destruct sb; discriminate);
    try (destruct sc; discriminate);
    try (destruct sa, sb, sc; simpl in *; try discriminate; reflexivity).
  apply SFcompare_finite_lt in Hab, Hbc.
  replace (SFcompare (S754_finite sa ma ea) (S754_finite sc mc ec)) with (Some Lt);
    [reflexivity|].
  symmetry. apply SFcompare_finite_lt.
  destruct sa, sb, sc; try contradiction; try exact I; lia.
Qed.

(** Replacing the best value by a smaller one keeps what was not below
    the old one not below the new one. *)
Lemma not_below_smaller (x e best : float) :
  (x <? best) = false -> (e <? best) = true -> (x <? e) = false.
Proof.
  intros Hx He. destruct (x <? e) eqn:Hxe; [|reflexivity].
  rewrite (ltb_trans _ _ _ Hxe He) in Hx. discriminate.
Qed.

Lemma fold_left_seq_invariant {A : Type} (P : nat -> A -> Prop) (f : A -> nat -> A) (n : nat) :
  forall a s,
    P a s ->
    (forall i x, (a <= i < a + n)%nat -> P i x -> P (S i) (f x i)) ->
    P (a + n)%nat (fold_left f (seq a n) s).
Proof.
  induction n as [|n IH]; intros a s Hs Hstep; cbn [seq fold_left].
  - rewrite Nat.add_0_r. exact Hs.
  - replace (a + S n)%nat with (S a + n)%nat by lia.
    apply IH.
    + apply Hstep; [lia | exact Hs].
    + intros i x Hi. apply Hstep. lia.
Qed.

Lemma nth_f_app_old (l : list float) (e : float) (i : nat) :
  (i < length l)%nat -> nth_f (l ++ [e]) i = nth_f l i.
Proof. intros H. unfold nth_f. apply app_nth1. exact H. Qed.

Lemma nth_f_app_new (l : list float) (e : float) : nth_f (l ++ [e]) (length l) = e.
Proof. unfold nth_f. rewrite app_nth2 by lia. rewrite Nat.sub_diag. reflexivity. Qed.

Lemma search_step_inv G frame KRKi aff p dx dy k s :
  search_inv k s -> search_inv (S k) (search_step G frame KRKi aff p dx dy s k).
Proof.
  intros (Hlen & Hmin & Hstart & Hidx). unfold search_step, search_inv.
  cbn [ss_errors ss_bestEnergy ss_bestIdx].
  set (e := step_energy G frame KRKi aff p (ss_ptx s) (ss_pty s)).
  split; [rewrite length_app; cbn [length]; lia|].
  destruct (e <? ss_bestEnergy s) eqn:Hlt.
  - split; [|split].
    + intros i Hi. destruct (Nat.eq_dec i k) as [->|Hne].
      * rewrite <- Hlen, nth_f_app_new. apply ltb_irrefl.
      * rewrite nth_f_app_old by lia.
        apply (not_below_smaller _ _ _ (Hmin i ltac:(lia)) Hlt).
    + apply (not_below_smaller _ _ _ Hstart Hlt).
    + right. split; [lia|]. rewrite Nat2Z.id, <- Hlen. apply nth_f_app_new.
  - split; [|split].
    + intros i Hi. destruct (Nat.eq_dec i k) as [->|Hne].
      * rewrite <- Hlen, nth_f_app_new. exact Hlt.
      * rewrite nth_f_app_old by lia. apply Hmin. lia.
    + exact Hstart.
    + destruct Hidx as [H|[H1 H2]]; [left; exact H|].
      right. split; [lia|]. rewrite nth_f_app_old by lia. exact H2.
Qed.

Lemma discrete_search_inv G frame KRKi aff p l :
  search_inv (Z.to_nat (numSteps_of G (tl_dist l))) (discrete_search G frame KRKi aff p l).
Proof.
  unfold discrete_search.
  apply (fold_left_seq_invariant search_inv _ (Z.to_nat (numSteps_of G (tl_dist l))) 0).
  - unfold search_inv. cbn [ss_errors ss_bestEnergy ss_bestIdx length].
    split; [reflexivity|]. split; [intros i Hi; lia|].
    split; [apply ltb_irrefl | left; auto].
  - intros i x _ Hx. apply search_step_inv. exact Hx.
Qed.

Lemma numSteps_of_le G dist : (numSteps_of G dist <= 99)%Z.
Proof.
  unfold numSteps_of. destruct (Z.leb_spec 100 (to_int (f_1_9999 + dist / setting_trace_stepsize G)));
    lia.
Qed.

(** X12.  The discrete search makes at most 99 steps, stores exactly one
    energy per step (so the 100 entries of [errors] are never overrun),
    and [bestIdx] is -1 or the index of a step made. *)
Theorem discrete_search_bounds G frame KRKi aff p l :
  let s := discrete_search G frame KRKi aff p l in
  let n := numSteps_of G (tl_dist l) in
  (n <= 99)%Z /\
  length (ss_errors s) = Z.to_nat n /\ (length (ss_errors s) < 100)%nat /\
  (ss_bestIdx s = (-1)%Z \/ (0 <= ss_bestIdx s < n)%Z).
Proof.
  cbv zeta. pose proof (numSteps_of_le G (tl_dist l)) as Hn.
  destruct (discrete_search_inv G frame KRKi aff p l) as (Hlen & _ & _ & Hidx).
  split; [exact Hn|]. split; [exact Hlen|]. split; [lia|].
  destruct Hidx as [[H _]|[H _]]; [left; exact H | right; lia].
Qed.

(** X13.  The discrete search returns a minimum: no step energy is below
    [bestEnergy], which is either the start value 1e10 (no step was below
    it, [bestIdx] is -1) or the energy of the step [bestIdx]. *)
Theorem discrete_search_minimum G frame KRKi aff p l :
  let s := discrete_search G frame KRKi aff p l in
  (forall i, (i < Z.to_nat (numSteps_of G (tl_dist l)))%nat ->
     (nth_f (ss_errors s) i <? ss_bestEnergy s) = false) /\
  ((ss_bestIdx s = (-1)%Z /\ ss_bestEnergy s = of_int 10000000000) \/
   ((0 <= ss_bestIdx s)%Z /\
    nth_f (ss_errors s) (Z.to_nat (ss_bestIdx s)) = ss_bestEnergy s)).
Proof.
  cbv zeta.
  destruct (discrete_search_inv G frame KRKi aff p l) as (_ & Hmin & _ & Hidx).
  split; [exact Hmin|].
  destruct Hidx as [H|[H1 H2]]; [left; exact H | right; split; [lia | exact H2]].
Qed.

Lemma secondBest_inv G bestIdx errors numSteps :
  second_inv G bestIdx errors (Z.to_nat numSteps) (secondBest_of G bestIdx errors numSteps).
Proof.
  unfold secondBest_of.
  apply (fold_left_seq_invariant (second_inv G bestIdx errors) _ (Z.to_nat numSteps) 0).
  - split; [now left|]. split; [apply ltb_irrefl | intros i Hi; lia].
  - intros i sb _ (Hsb & Hstart & Hmin). unfold second_inv.
    fold (outside_radius G bestIdx i).
    destruct (outside_radius G bestIdx i) eqn:Hout; cbn [andb].
    + destruct (nth_f errors i <? sb) eqn:Hlt.
      * split; [right; exists i; auto|]. split.
        -- apply (not_below_smaller _ _ _ Hstart Hlt).
        -- intros j Hj Hoj. destruct (Nat.eq_dec j i) as [->|Hne]; [apply ltb_irrefl|].
           apply (not_below_smaller _ _ _ (Hmin j ltac:(lia) Hoj) Hlt).
      * split; [|split; [exact Hstart|]].
        -- destruct Hsb as [H|(j & Hj & Hoj & H)]; [now left|].
           right. exists j. auto.
        -- intros j Hj Hoj. destruct (Nat.eq_dec j i) as [->|Hne]; [exact Hlt|].
           apply Hmin; [lia | exact Hoj].
    + split; [|split; [exact Hstart|]].
      * destruct Hsb as [H|(j & Hj & Hoj & H)]; [now left|].
        right. exists j. auto.
      * intros j Hj Hoj. destruct (Nat.eq_dec j i) as [->|Hne]; [congruence|].
        apply Hmin; [lia | exact Hoj].
Qed.

(** X14.  The second-best energy is the start value 1e10 or the energy
    of a step outside the radius around [bestIdx]; no step outside the
    radius has an energy below it, and it is never below the best
    energy. *)
Theorem secondBest_runner_up G frame KRKi aff p l :
  let s := discrete_search G frame KRKi aff p l in
  let n := numSteps_of G (tl_dist l) in
  let sb := secondBest_of G (ss_bestIdx s) (ss_errors s) n in
  (sb = of_int 10000000000 \/
   exists i, (i < Z.to_nat n)%nat /\ outside_radius G (ss_bestIdx s) i = true /\
             sb = nth_f (ss_errors s) i) /\
  (forall i, (i < Z.to_nat n)%nat -> outside_radius G (ss_bestIdx s) i = true ->
             (nth_f (ss_errors s) i <? sb) = false) /\
  (sb <? ss_bestEnergy s) = false.
Proof.
  cbv zeta.
  destruct (discrete_search_inv G frame KRKi aff p l) as (_ & Hmin & Hstart & _).
  destruct (secondBest_inv G (ss_bestIdx (discrete_search G frame KRKi aff p l))
              (ss_errors (discrete_search G frame KRKi aff p l))
              (numSteps_of G (tl_dist l))) as (Hsb & _ & Hout).
  split; [exact Hsb|]. split; [exact Hout|].
  destruct Hsb as [->|(i & Hi & _ & ->)]; [exact Hstart | apply Hmin; exact Hi].
Qed.

(** ** Energies and the Hessian term of the residual functions *)

(** One weighted Huber term [w*w*hw*r*r*(2-hw)] is not negative. *)
Lemma weighted_term_nonneg (G : Globals) (w r : float) :
  huber_valid G -> valid r = true ->
  nonneg (w * w * huber_weight G r * r * r * (of_int 2 - huber_weight G r)) = true.
Proof.
  intros HG Hr. destruct (huber_weight_signs G r HG Hr) as [H1 H2].
  apply mul_nonneg; [|exact H2].
  apply mul_mul_nonneg. apply mul_nonneg; [apply mul_self_nonneg | exact H1].
Qed.

Lemma residual_valid p tmpRes hit i :
  residual_inputs_valid p tmpRes -> valid hit = true ->
  valid (hit - (v2x (PRE_aff_mode (precalc_of p tmpRes)) * nth_f (color p) i
                + v2y (PRE_aff_mode (precalc_of p tmpRes)))) = true.
Proof.
  intros (_ & Ha & Hb & Hc) Hh.
  apply sub_valid; [exact Hh|]. apply add_valid; [|exact Hb].
  apply mul_valid; [exact Ha | apply Hc].
Qed.

Section ResidualEnergyFacts.

Variable projectPoint_K : float -> float -> float -> Mat33f -> Vec3f -> bool * float * float.
Variable projectPoint :
  float -> float -> float -> Z -> Z -> CalibHessian -> Mat33f -> Vec3f ->
  ProjOut -> bool * ProjOut.
Variable derive_idepth :
  Vec3f -> float -> float -> Z -> Z -> float -> float -> float -> float.

Lemma calcResidual_loop_nonneg HCalib G p tmpRes idepth idxs :
  huber_valid G -> residual_inputs_valid p tmpRes ->
  forall energyLeft e,
    nonneg energyLeft = true ->
    fst (calcResidual_loop projectPoint_K HCalib G idepth idxs energyLeft (p, tmpRes)) = Some e ->
    nonneg e = true.
Proof.
  intros HG Hv. induction idxs as [|i rest IH]; intros energyLeft e He.
  - cbn. intros [= <-]. exact He.
  - cbn [calcResidual_loop]. unfold bind, this, the_tmpRes. cbn [fst snd].
    destruct (projectPoint_K _ _ idepth _ _) as [[ok Ku] Kv].
    destruct ok; cbn [negb]; [|discriminate].
    destruct (isfinite (v3x (getInterpolatedElement33 (target tmpRes) Ku Kv))); cbn [negb];
      [|discriminate].
    apply IH. apply add_nonneg; [exact He|].
    apply weighted_term_nonneg; [exact HG|].
    apply residual_valid; [exact Hv | apply Hv].
Qed.

(** X15.  [calcResidual] returns the penalty 1e10 or an energy that is
    not above the cap [energyTH * outlierTHSlack]; when that cap is not
    negative (and the data are canonical numbers, the Huber threshold
    positive) the value returned is not negative. *)
Theorem calcResidual_range HCalib G outlierTHSlack p tmpRes idepth :
  huber_valid G -> residual_inputs_valid p tmpRes ->
  (energyTH p * outlierTHSlack <? zero) = false ->
  let e := fst (calcResidual projectPoint_K HCalib G outlierTHSlack idepth (p, tmpRes)) in
  (e = of_int 10000000000 \/ (e >? energyTH p * outlierTHSlack) = false) /\
  (e <? zero) = false.
Proof.
  intros HG Hv Hcap. cbv zeta. unfold calcResidual, bind, this.
  pose proof (calcResidual_loop_reads projectPoint_K HCalib G idepth (seq 0 patternNum) zero
                (p, tmpRes)) as Hs.
  pose proof (calcResidual_loop_nonneg HCalib G p tmpRes idepth (seq 0 patternNum) HG Hv zero)
    as Hn.
  destruct (calcResidual_loop projectPoint_K HCalib G idepth (seq 0 patternNum) zero
              (p, tmpRes)) as [[e|] s']; cbn [fst snd] in *; subst s'; cbn [fst ret].
  - specialize (Hn e eq_refl eq_refl).
    destruct (e >? energyTH p * outlierTHSlack) eqn:Hgt.
    + split; [right; apply ltb_irrefl | exact Hcap].
    + split; [right; exact Hgt | apply nonneg_not_ltb_zero; exact Hn].
  - split; [now left | reflexivity].
Qed.

Lemma linearize_loop_nonneg HCalib G p tmpRes idepth idxs :
  huber_valid G -> residual_inputs_valid p tmpRes ->
  forall acc,
    nonneg (la_energyLeft acc) = true -> nonneg (la_Hdd acc) = true ->
    match linearize_loop projectPoint derive_idepth HCalib G p tmpRes idepth idxs acc with
    | inl a | inr a => nonneg (la_energyLeft a) = true /\ nonneg (la_Hdd a) = true
    end.
Proof.
  intros HG Hv. induction idxs as [|i rest IH]; intros acc He Hh; cbn [linearize_loop]; [auto|].
  destruct (projectPoint _ _ _ _ _ _ _ _ _) as [ok out].
  destruct ok; cbn [negb]; [|auto].
  destruct (isfinite (v3x (getInterpolatedElement33 (target tmpRes) (po_Ku out) (po_Kv out))));
    cbn [negb]; [|auto].
  apply IH; cbn [la_energyLeft la_Hdd].
  - apply add_nonneg; [exact He|].
    apply weighted_term_nonneg; [exact HG|]. apply residual_valid; [exact Hv | apply Hv].
  - apply add_nonneg; [exact Hh|]. apply mul_mul_nonneg.
    apply mul_nonneg; [|apply mul_self_nonneg].
    apply (huber_weight_signs G _ HG). apply residual_valid; [exact Hv | apply Hv].
Qed.

(** X16.  [linearizeResidual] keeps the Hessian term from being
    negative: if [Hdd] is not negative on entry it is not negative on
    exit, on every path; and when the cap [energyTH * outlierTHSlack] is
    not negative, a call that does not end out-of-bounds returns an
    energy that is not negative and not above the cap. *)
Theorem linearizeResidual_signs HCalib G outlierTHSlack p tmpRes Hdd bd idepth :
  huber_valid G -> residual_inputs_valid p tmpRes ->
  nonneg Hdd = true ->
  (energyTH p * outlierTHSlack <? zero) = false ->
  let r := linearizeResidual projectPoint derive_idepth HCalib G outlierTHSlack p tmpRes
             Hdd bd idepth in
  (lr_Hdd r <? zero) = false /\
  (state_NewState (lr_tmpRes r) <> ResState_OOB ->
   exists e : float,
     lr_ret r = to_double e /\ (e <? zero) = false /\
     (e >? energyTH p * outlierTHSlack) = false).
Proof.
  intros HG Hv Hh Hcap. cbv zeta. unfold linearizeResidual.
  pose proof (linearize_loop_nonneg HCalib G p tmpRes idepth (seq 0 patternNum) HG Hv
                {| la_energyLeft := zero; la_Hdd := Hdd; la_bd := bd |} eq_refl Hh) as Hl.
  destruct (state_state tmpRes);
    try (cbn [lr_Hdd lr_tmpRes lr_ret set_NewState state_NewState];
         split; [apply nonneg_not_ltb_zero; exact Hh | intros H; contradiction]);
    (destruct (linearize_loop projectPoint derive_idepth HCalib G p tmpRes idepth
                 (seq 0 patternNum) {| la_energyLeft := zero; la_Hdd := Hdd; la_bd := bd |})
       as [a|a]; destruct Hl as [He Ha];
     cbn [lr_Hdd lr_tmpRes lr_ret set_NewState set_New state_NewState];
     (split; [apply nonneg_not_ltb_zero; exact Ha|]);
     [intros H; contradiction|]; intros _;
     destruct (la_energyLeft a >? energyTH p * outlierTHSlack) eqn:Hgt;
     [exists (energyTH p * outlierTHSlack); split; [reflexivity|];
      split; [exact Hcap | apply ltb_irrefl]
     |exists (la_energyLeft a); split; [reflexivity|];
      split; [apply nonneg_not_ltb_zero; exact He | exact Hgt]]).
Qed.

(** X17.  What [linearizeResidual] does to the candidate residual: it
    never writes the committed state, the committed energy or the target;
    when it leaves the pending state out-of-bounds it has returned the
    committed energy and left the pending energy alone; otherwise the
    pending state is "in" or "outlier" and the value returned is the
    pending energy it stored.  A residual already out-of-bounds stays so,
    with [Hdd] and [bd] untouched. *)
Theorem linearizeResidual_outcomes HCalib G outlierTHSlack p tmpRes Hdd bd idepth :
  let r := linearizeResidual projectPoint derive_idepth HCalib G outlierTHSlack p tmpRes
             Hdd bd idepth in
  state_state (lr_tmpRes r) = state_state tmpRes /\
  state_energy (lr_tmpRes r) = state_energy tmpRes /\
  target (lr_tmpRes r) = target tmpRes /\
  (state_NewState (lr_tmpRes r) = ResState_OOB ->
   lr_ret r = state_energy tmpRes /\
   state_NewEnergy (lr_tmpRes r) = state_NewEnergy tmpRes) /\
  (state_NewState (lr_tmpRes r) <> ResState_OOB ->
   lr_ret r = state_NewEnergy (lr_tmpRes r)) /\
  (state_state tmpRes = ResState_OOB ->
   state_NewState (lr_tmpRes r) = ResState_OOB /\ lr_Hdd r = Hdd /\ lr_bd r = bd).
Proof.
  cbv zeta. unfold linearizeResidual.
  destruct (state_state tmpRes) eqn:Hs;
    try (cbn [lr_Hdd lr_bd lr_tmpRes lr_ret set_NewState state_NewState state_state
              state_energy state_NewEnergy target];
         repeat split; auto; intros; try contradiction; discriminate);
    (destruct (linearize_loop projectPoint derive_idepth HCalib G p tmpRes idepth
                 (seq 0 patternNum) {| la_energyLeft := zero; la_Hdd := Hdd; la_bd := bd |})
       as [a|a];
     cbn [lr_Hdd lr_bd lr_tmpRes lr_ret set_NewState set_New state_NewState state_state
          state_energy state_NewEnergy target];
     repeat split; auto; intros; try contradiction; try discriminate;
     destruct (la_energyLeft a >? energyTH p * outlierTHSlack); discriminate).
Qed.

End ResidualEnergyFacts.

(** ** The gradient matrix and the weights of a constructed point *)

Lemma mul_comm (a b : float) : a * b = b * a.
Proof.
  destruct a as [sa|sa| |sa ma ea], b as [sb|sb| |sb mb eb]; simpl;
    try reflexivity; try (rewrite xorb_comm; reflexivity).
  rewrite xorb_comm, Pos.mul_comm, Z.add_comm. reflexivity.
Qed.

Lemma outer_add_keeps (m : Mat22f) (gx gy : float) :
  v2y (m22_r0 m) = v2x (m22_r1 m) ->
  nonneg (v2x (m22_r0 m)) = true -> nonneg (v2y (m22_r1 m)) = true ->
  v2y (m22_r0 (outer_add m gx gy)) = v2x (m22_r1 (outer_add m gx gy)) /\
  nonneg (v2x (m22_r0 (outer_add m gx gy))) = true /\
  nonneg (v2y (m22_r1 (outer_add m gx gy))) = true.
Proof.
  intros Hs H0 H1. unfold outer_add. cbn [m22_r0 m22_r1 v2x v2y].
  split; [rewrite Hs, (mul_comm gx gy); reflexivity|].
  split; apply add_nonneg; auto using mul_self_nonneg.
Qed.

Section ConstructorMatrixFacts.

Variable getInterpolatedElement33BiLin : FrameHessian -> float -> float -> Vec3f.
Variable PS : PointSettings.

Lemma ctor_loop_gradH host_ u_ v_ idxs :
  forall acc,
    v2y (m22_r0 (ca_gradH acc)) = v2x (m22_r1 (ca_gradH acc)) ->
    nonneg (v2x (m22_r0 (ca_gradH acc))) = true ->
    nonneg (v2y (m22_r1 (ca_gradH acc))) = true ->
    match ctor_loop getInterpolatedElement33BiLin PS host_ u_ v_ idxs acc with
    | inl a | inr a =>
        v2y (m22_r0 (ca_gradH a)) = v2x (m22_r1 (ca_gradH a)) /\
        nonneg (v2x (m22_r0 (ca_gradH a))) = true /\
        nonneg (v2y (m22_r1 (ca_gradH a))) = true
    end.
Proof.
  induction idxs as [|i rest IH]; intros acc Hs H0 H1; cbn [ctor_loop]; [auto|].
  destruct (isfinite (v3x (ctor_sample getInterpolatedElement33BiLin host_ u_ v_ i)));
    cbn [negb]; [|cbn [ca_gradH]; auto].
  destruct (outer_add_keeps (ca_gradH acc)
              (v3y (ctor_sample getInterpolatedElement33BiLin host_ u_ v_ i))
              (v3z (ctor_sample getInterpolatedElement33BiLin host_ u_ v_ i)) Hs H0 H1)
    as (K1 & K2 & K3).
  apply IH; cbn [ca_gradH]; assumption.
Qed.

(** X3.  On every path the constructor leaves a symmetric gradient
    matrix whose diagonal is not negative; when the outlier sum component
    is positive and the eight samples are finite, none of the eight
    weights is negative. *)
Theorem ctor_matrix_weights u_ v_ host_ type :
  (setting_outlierTHSumComponent PS >? zero) = true ->
  let p := ImmaturePoint_ctor getInterpolatedElement33BiLin PS u_ v_ host_ type in
  v2y (m22_r0 (gradH p)) = v2x (m22_r1 (gradH p)) /\
  (v2x (m22_r0 (gradH p)) <? zero) = false /\
  (v2y (m22_r1 (gradH p)) <? zero) = false /\
  ((forall i, (i < patternNum)%nat ->
      isfinite (v3x (ctor_sample getInterpolatedElement33BiLin host_ (of_int u_) (of_int v_) i))
      = true) ->
   forall i, (i < patternNum)%nat -> (nth_f (weights p) i <? zero) = false).
Proof.
  intros Hc. cbv zeta. split; [|split; [|split]].
  1-3: unfold ImmaturePoint_ctor;
    pose proof (ctor_loop_gradH host_ (of_int u_) (of_int v_) (seq 0 patternNum) ctor_start
                  eq_refl eq_refl eq_refl) as H;
    destruct (ctor_loop getInterpolatedElement33BiLin PS host_ (of_int u_) (of_int v_)
                (seq 0 patternNum) ctor_start) as [a|a]; cbn [gradH];
    destruct H as (K1 & K2 & K3); auto using nonneg_not_ltb_zero.
  intros Hall i Hi.
  unfold ImmaturePoint_ctor.
  destruct (ctor_loop_completes getInterpolatedElement33BiLin PS host_ (of_int u_) (of_int v_)
              (seq 0 patternNum)) with (acc := ctor_start) as [acc' Hl].
  { intros j Hj. apply Hall. apply in_seq in Hj. lia. }
  rewrite Hl. cbn [weights].
  apply ctor_loop_done in Hl;
    [|unfold ctor_start; cbn [ca_color ca_weights]; rewrite repeat_length; lia ..].
  destruct Hl as (_ & _ & Hin & _).
  destruct (Hin i ltac:(lia)) as (_ & _ & ->).
  apply nonneg_not_ltb_zero. unfold ctor_weight.
  apply gtb_zero_nonneg in Hc.
  apply sqrtf_nonneg. apply div_nonneg; [exact Hc|].
  apply add_nonneg; [exact Hc|]. apply add_nonneg; apply mul_self_nonneg.
Qed.

(** X4.  A point the constructor has completed, traced through any
    sequence of calls, never has a negative quality (the samples of its
    host image and the data of the calls being canonical numbers, the
    Huber threshold positive). *)
Theorem ctor_then_trace_quality G u_ v_ host_ type calls :
  huber_valid G ->
  (forall x y, valid (v3x (getInterpolatedElement33BiLin host_ x y)) = true) ->
  (forall i, (i < patternNum)%nat ->
     isfinite (v3x (ctor_sample getInterpolatedElement33BiLin host_ (of_int u_) (of_int v_) i))
     = true) ->
  Forall call_valid calls ->
  (quality (trace_run G calls
              (ImmaturePoint_ctor getInterpolatedElement33BiLin PS u_ v_ host_ type))
   <? zero) = false.
Proof.
  intros HG Himg Hall Hcalls.
  apply trace_run_invariant; try assumption.
  - intros i. unfold ImmaturePoint_ctor.
    destruct (ctor_loop_completes getInterpolatedElement33BiLin PS host_ (of_int u_) (of_int v_)
                (seq 0 patternNum)) with (acc := ctor_start) as [acc' Hl].
    { intros j Hj. apply Hall. apply in_seq in Hj. lia. }
    rewrite Hl. cbn [color].
    apply ctor_loop_done in Hl;
      [|unfold ctor_start; cbn [ca_color ca_weights]; rewrite repeat_length; lia ..].
    destruct Hl as (L1 & _ & Hin & _).
    destruct (Nat.lt_ge_cases i patternNum) as [Hi|Hi].
    + destruct (Hin i ltac:(lia)) as (_ & -> & _). apply Himg.
    + unfold nth_f. rewrite nth_overflow; [reflexivity|].
      rewrite L1. unfold ctor_start. cbn [ca_color]. rewrite repeat_length. exact Hi.
  - unfold ImmaturePoint_ctor.
    destruct (ctor_loop_completes getInterpolatedElement33BiLin PS host_ (of_int u_) (of_int v_)
                (seq 0 patternNum)) with (acc := ctor_start) as [acc' Hl].
    { intros j Hj. apply Hall. apply in_seq in Hj. lia. }
    rewrite Hl. reflexivity.
Qed.

(** X18.  A point whose construction was aborted by a sample that is
    not finite never gets "good" from [traceOn], whatever the calls. *)
Theorem ctor_aborted_never_good G u_ v_ host_ type i calls c :
  (i < patternNum)%nat ->
  isfinite (v3x (ctor_sample getInterpolatedElement33BiLin host_ (of_int u_) (of_int v_) i))
  = false ->
  fst (trace_call G c
         (trace_run G calls
            (ImmaturePoint_ctor getInterpolatedElement33BiLin PS u_ v_ host_ type)))
  <> IPS_GOOD.
Proof.
  intros Hi Hbad.
  assert (Hth : energyTH (ImmaturePoint_ctor getInterpolatedElement33BiLin PS u_ v_ host_ type)
                = NAN).
  { unfold ImmaturePoint_ctor.
    destruct (ctor_loop_stops getInterpolatedElement33BiLin PS host_ (of_int u_) (of_int v_) i
                Hbad (seq 0 patternNum) ctor_start) as [acc' ->]; [apply in_seq; lia|].
    reflexivity. }
  pose proof (trace_run_energyTH G calls
                (ImmaturePoint_ctor getInterpolatedElement33BiLin PS u_ v_ host_ type)) as Hq.
  rewrite Hth in Hq. unfold trace_call.
  set (q := trace_run G calls _) in *.
  trace_exits G (tc_frame c) (tc_KRKi c) (tc_Kt c) (tc_affine c) q;
    cbn [fst]; try discriminate; try congruence.
  revert He. change (energyTH (with_quality G (tc_frame c) (tc_KRKi c) (tc_affine c) q l))
    with (energyTH q). rewrite Hq.
  destruct (gn_bestEnergy _) as [s|s| |s m e]; discriminate.
Qed.

End ConstructorMatrixFacts.

(** ** The statements above on the concrete scene *)

Lemma bordered_samples_finite :
  forall i, (i < patternNum)%nat ->
    isfinite (v3x (ctor_sample bordered_sampler host0 (of_int 100) (of_int 100) i)) = true.
Proof.
  intros i Hi. unfold patternNum in Hi.
  do 8 (destruct i as [|i]; [vm_compute; reflexivity|]). lia.
Qed.

Lemma bordered_sampler_valid :
  forall x y, valid (v3x (bordered_sampler host0 x y)) = true.
Proof.
  intros x y. unfold bordered_sampler. destruct (in_image Scene.G0 x y); reflexivity.
Qed.

Lemma scene_huber_valid : huber_valid Scene.G0.
Proof. split; reflexivity. Qed.

Lemma scene_residual_inputs_valid : residual_inputs_valid Scene.fresh_point tmpRes1.
Proof.
  split; [intros x y; reflexivity|]. split; [reflexivity|]. split; [reflexivity|].
  exact scene_colors_valid.
Qed.

Lemma ctor_aborts_witness :
  (3 < patternNum)%nat /\
  isfinite (v3x (ctor_sample bordered_sampler host0 (of_int 6) (of_int 100) 3)) = false /\
  let p := ImmaturePoint_ctor bordered_sampler S0 6 100 host0 one in
  energyTH p = NAN /\ isfinite (energyTH p) = false /\
  idepth_min p = zero /\ idepth_max p = NAN /\ lastTraceStatus p = IPS_UNINITIALIZED.
Proof.
  assert (H1 : (3 < patternNum)%nat) by (unfold patternNum; lia).
  assert (H2 : isfinite (v3x (ctor_sample bordered_sampler host0 (of_int 6) (of_int 100) 3))
               = false) by (vm_compute; reflexivity).
  split; [exact H1|]. split; [exact H2|].
  exact (ctor_aborts bordered_sampler S0 6 100 host0 one 3 H1 H2).
Defined.

Lemma ctor_completes_witness :
  let p := ImmaturePoint_ctor bordered_sampler S0 100 100 host0 one in
  length (color p) = patternNum /\ length (weights p) = patternNum /\
  (forall i, (i < patternNum)%nat ->
     let ptc := ctor_sample bordered_sampler host0 (of_int 100) (of_int 100) i in
     nth_f (color p) i = v3x ptc /\ isfinite (nth_f (color p) i) = true /\
     nth_f (weights p) i = ctor_weight S0 (v3y ptc) (v3z ptc)) /\
  energyTH p = of_int 8 * setting_outlierTH S0
               * (setting_overallEnergyTHWeight S0 * setting_overallEnergyTHWeight S0) /\
  quality p = of_int 10000 /\
  idepth_min p = zero /\ idepth_max p = NAN /\ lastTraceStatus p = IPS_UNINITIALIZED.
Proof.
  exact (ctor_completes bordered_sampler S0 100 100 host0 one bordered_samples_finite).
Defined.

Lemma ctor_matrix_weights_witness :
  (setting_outlierTHSumComponent S0 >? zero) = true /\
  let p := ImmaturePoint_ctor bordered_sampler S0 100 100 host0 one in
  v2y (m22_r0 (gradH p)) = v2x (m22_r1 (gradH p)) /\
  (v2x (m22_r0 (gradH p)) <? zero) = false /\
  (v2y (m22_r1 (gradH p)) <? zero) = false /\
  ((forall i, (i < patternNum)%nat ->
      isfinite (v3x (ctor_sample bordered_sampler host0 (of_int 100) (of_int 100) i)) = true) ->
   forall i, (i < patternNum)%nat -> (nth_f (weights p) i <? zero) = false).
Proof.
  split; [reflexivity|].
  exact (ctor_matrix_weights bordered_sampler S0 100 100 host0 one eq_refl).
Defined.

Lemma ctor_then_trace_quality_witness :
  (quality (trace_run Scene.G0 [ramp_call; ramp_call]
              (ImmaturePoint_ctor bordered_sampler S0 100 100 host0 one))
   <? zero) = false.
Proof.
  apply (ctor_then_trace_quality bordered_sampler S0 Scene.G0 100 100 host0 one
           [ramp_call; ramp_call] scene_huber_valid bordered_sampler_valid
           bordered_samples_finite).
  constructor; [exact ramp_call_valid|]. constructor; [exact ramp_call_valid|]. constructor.
Defined.

Lemma ctor_aborted_never_good_witness :
  fst (trace_call Scene.G0 ramp_call
         (trace_run Scene.G0 [ramp_call]
            (ImmaturePoint_ctor bordered_sampler S0 6 100 host0 one)))
  <> IPS_GOOD.
Proof.
  apply (ctor_aborted_never_good bordered_sampler S0 Scene.G0 6 100 host0 one 3).
  - unfold patternNum; lia.
  - vm_compute; reflexivity.
Defined.

Lemma traceOn_nan_threshold_never_good_witness :
  energyTH (ImmaturePoint_ctor bordered_sampler S0 6 100 host0 one) = NAN /\
  fst (trace_call Scene.G0 ramp_call
         (trace_run Scene.G0 [ramp_call]
            (ImmaturePoint_ctor bordered_sampler S0 6 100 host0 one)))
  <> IPS_GOOD.
Proof.
  assert (H : energyTH (ImmaturePoint_ctor bordered_sampler S0 6 100 host0 one) = NAN)
    by (vm_compute; reflexivity).
  split; [exact H|].
  exact (traceOn_nan_threshold_never_good Scene.G0 [ramp_call] ramp_call _ H).
Defined.

Lemma traceOn_oob_absorbing_witness :
  fst (trace_call Scene.G0 backward_call near_point) = IPS_OOB /\
  trace_run Scene.G0 [ramp_call; backward_call] (snd (trace_call Scene.G0 backward_call near_point))
  = snd (trace_call Scene.G0 backward_call near_point) /\
  fst (trace_call Scene.G0 ramp_call
         (trace_run Scene.G0 [ramp_call; backward_call]
            (snd (trace_call Scene.G0 backward_call near_point)))) = IPS_OOB.
Proof.
  assert (H : fst (trace_call Scene.G0 backward_call near_point) = IPS_OOB)
    by (vm_compute; reflexivity).
  split; [exact H|].
  exact (traceOn_oob_absorbing Scene.G0 backward_call near_point [ramp_call; backward_call]
           ramp_call H).
Defined.

Lemma traceOn_interval_kept_witness :
  fst (traceOn Scene.G0 (Scene.flat (of_int 50) zero zero Scene.tx) Scene.Id33
         Scene.Kt_backward Scene.aff0 tight_point) = IPS_SKIPPED /\
  idepth_min (snd (traceOn Scene.G0 (Scene.flat (of_int 50) zero zero Scene.tx) Scene.Id33
                     Scene.Kt_backward Scene.aff0 tight_point)) = idepth_min tight_point /\
  idepth_max (snd (traceOn Scene.G0 (Scene.flat (of_int 50) zero zero Scene.tx) Scene.Id33
                     Scene.Kt_backward Scene.aff0 tight_point)) = idepth_max tight_point.
Proof.
  assert (H : fst (traceOn Scene.G0 (Scene.flat (of_int 50) zero zero Scene.tx) Scene.Id33
                     Scene.Kt_backward Scene.aff0 tight_point) = IPS_SKIPPED)
    by (vm_compute; reflexivity).
  split; [exact H|].
  apply (traceOn_interval_kept Scene.G0 (Scene.flat (of_int 50) zero zero Scene.tx) Scene.Id33
           Scene.Kt_backward Scene.aff0 tight_point); rewrite H; discriminate.
Defined.

Lemma traceOn_failure_resets_witness :
  lastTraceStatus Scene.fresh_point <> IPS_OOB /\
  fst (traceOn Scene.G0 ramp Scene.Id33 Scene.tx Scene.aff0 Scene.fresh_point) = IPS_OUTLIER /\
  lastTraceUV (snd (traceOn Scene.G0 ramp Scene.Id33 Scene.tx Scene.aff0 Scene.fresh_point))
  = V2 (of_int (-1)) (of_int (-1)) /\
  lastTracePixelInterval
    (snd (traceOn Scene.G0 ramp Scene.Id33 Scene.tx Scene.aff0 Scene.fresh_point)) = zero.
Proof.
  assert (H0 : lastTraceStatus Scene.fresh_point <> IPS_OOB) by discriminate.
  assert (H : fst (traceOn Scene.G0 ramp Scene.Id33 Scene.tx Scene.aff0 Scene.fresh_point)
              = IPS_OUTLIER) by (vm_compute; reflexivity).
  split; [exact H0|]. split; [exact H|].
  exact (traceOn_failure_resets Scene.G0 ramp Scene.Id33 Scene.tx Scene.aff0 Scene.fresh_point
           H0 (or_intror H)).
Defined.

Lemma calcResidual_range_witness :
  let e := fst (calcResidual Scene.pinhole_K Scene.calib0 Scene.G0 one one
                  (Scene.fresh_point, tmpRes1)) in
  (e = of_int 10000000000 \/ (e >? energyTH Scene.fresh_point * one) = false) /\
  (e <? zero) = false.
Proof.
  apply (calcResidual_range Scene.pinhole_K Scene.calib0 Scene.G0 one Scene.fresh_point tmpRes1
           one scene_huber_valid scene_residual_inputs_valid).
  vm_compute; reflexivity.
Defined.

Lemma linearizeResidual_signs_witness :
  let r := linearizeResidual Scene.pinhole Scene.derive_idepth0 Scene.calib0 Scene.G0 one
             Scene.fresh_point tmpRes1 zero zero one in
  (lr_Hdd r <? zero) = false /\
  (state_NewState (lr_tmpRes r) <> ResState_OOB ->
   exists e : float,
     lr_ret r = to_double e /\ (e <? zero) = false /\
     (e >? energyTH Scene.fresh_point * one) = false).
Proof.
  apply (linearizeResidual_signs Scene.pinhole Scene.derive_idepth0 Scene.calib0 Scene.G0 one
           Scene.fresh_point tmpRes1 zero zero one scene_huber_valid
           scene_residual_inputs_valid).
  - reflexivity.
  - vm_compute; reflexivity.
Defined.

(** ** What the search is handed, and what "good" means *)

Lemma clamp_not_above (x c : float) :
  (c <? c) = false -> ((if x >? c then c else x) >? c) = false.
Proof.
  intros Hc. destruct (x >? c) eqn:H; [exact Hc | exact H].
Qed.

(** X19.  When the geometric part of [traceOn] hands a segment to the
    discrete search, the start pixel is inside the border region, the
    scale test has passed, the step direction is finite, the error bound
    is not above 10 pixels and the segment is not longer than the
    maximal search length. *)
Theorem trace_line_postconditions G KRKi Kt p l :
  trace_line G KRKi Kt p = inr l ->
  in_image G (tl_uMin l) (tl_vMin l) = true /\
  scale_ok KRKi Kt p = true /\
  isfinite (tl_dx l) = true /\ isfinite (tl_dy l) = true /\
  (tl_errorInPixel l >? of_int 10) = false /\
  (tl_dist l >? tl_maxPixSearch l) = false.
Proof.
  unfold trace_line.
  destruct (in_image G (uMin_of KRKi Kt p) (vMin_of KRKi Kt p)) eqn:Hin; cbn [negb];
    [|discriminate].
  destruct (trace_endpoint G KRKi Kt p) as [r'|[[dist uMax] vMax]]; [discriminate|].
  destruct (scale_ok KRKi Kt p); cbn [negb]; [|discriminate].
  match goal with |- context [if ?c && isfinite (idepth_max p) then _ else _] =>
    destruct (c && isfinite (idepth_max p)) end; [discriminate|].
  match goal with |- context [if dist >? ?m then _ else _] =>
    destruct (dist >? m) eqn:Hd end;
    match goal with |- context [if negb (isfinite ?a) || negb (isfinite ?b) then _ else _] =>
      destruct (isfinite a) eqn:Ha; destruct (isfinite b) eqn:Hb end;
    cbn [negb orb]; try (intros Hx; discriminate Hx); intros Hx;
    injection Hx as <-;
    cbn [tl_uMin tl_vMin tl_dx tl_dy tl_errorInPixel tl_dist tl_maxPixSearch];
    (split; [exact Hin|]); (split; [reflexivity|]);
    (split; [exact Ha|]); (split; [exact Hb|]);
    (split; [apply clamp_not_above; reflexivity|]);
    first [exact Hd | apply ltb_irrefl].
Qed.

(** X20.  A call returns "good" only after the whole search: the
    geometric part gave a segment, the refined energy is below
    [energyTH * setting_trace_extraSlackOnTH], the interval stored is the
    one computed from the refined position, the position stored is that
    position and the pixel interval stored is twice the error bound. *)
Theorem traceOn_good_means G frame KRKi Kt aff p :
  fst (traceOn G frame KRKi Kt aff p) = IPS_GOOD ->
  exists l,
    trace_line G KRKi Kt p = inr l /\
    let g := gn_refine G frame KRKi aff p l in
    let q := snd (traceOn G frame KRKi Kt aff p) in
    (gn_bestEnergy g <? energyTH p * setting_trace_extraSlackOnTH G) = true /\
    new_interval Kt l (gn_bestU g) (gn_bestV g) = (idepth_min q, idepth_max q) /\
    lastTraceUV q = V2 (gn_bestU g) (gn_bestV g) /\
    lastTracePixelInterval q = of_int 2 * tl_errorInPixel l.
Proof.
  destruct (traceOn_exits G frame KRKi Kt aff p)
    as [[Hst ->]|[Hst [->|[(Hfin & uv & d & -> & Hd)|[(Hfin & uv & d & ->)|(l & Hl & ->)]]]]];
    cbn [fst fail_with]; try discriminate.
  intros Hgood. exists l. split; [exact Hl|]. cbv zeta.
  revert Hgood. unfold trace_finish.
  change (energyTH (with_quality G frame KRKi aff p l)) with (energyTH p).
  destruct (gn_bestEnergy (gn_refine G frame KRKi aff p l)
            <? energyTH p * setting_trace_extraSlackOnTH G); cbn [negb].
  - destruct (new_interval Kt l (gn_bestU (gn_refine G frame KRKi aff p l))
                (gn_bestV (gn_refine G frame KRKi aff p l))) as [lo hi].
    destruct (interval_invalid lo hi); cbn [fst fail_with]; [discriminate|].
    intros _. repeat split.
  - destruct (status_eqb (lastTraceStatus (with_quality G frame KRKi aff p l)) IPS_OUTLIER);
      cbn [fst fail_with]; discriminate.
Qed.

Lemma trace_line_postconditions_witness :
  exists l,
    trace_line Scene.G0 Scene.Id33 Scene.tx Scene.fresh_point = inr l /\
    in_image Scene.G0 (tl_uMin l) (tl_vMin l) = true /\
    scale_ok Scene.Id33 Scene.tx Scene.fresh_point = true /\
    isfinite (tl_dx l) = true /\ isfinite (tl_dy l) = true /\
    (tl_errorInPixel l >? of_int 10) = false /\
    (tl_dist l >? tl_maxPixSearch l) = false.
Proof.
  destruct (trace_line Scene.G0 Scene.Id33 Scene.tx Scene.fresh_point) as [r|l] eqn:Hl;
    [vm_compute in Hl; discriminate|].
  exists l. split; [reflexivity|].
  exact (trace_line_postconditions Scene.G0 Scene.Id33 Scene.tx Scene.fresh_point l Hl).
Defined.

Lemma traceOn_good_means_witness :
  fst (traceOn Scene.G0 (Scene.flat (of_int 50) zero zero Scene.tx) Scene.Id33 Scene.tx
         Scene.aff0 Scene.fresh_point) = IPS_GOOD /\
  exists l,
    trace_line Scene.G0 Scene.Id33 Scene.tx Scene.fresh_point = inr l /\
    let g := gn_refine Scene.G0 (Scene.flat (of_int 50) zero zero Scene.tx) Scene.Id33
               Scene.aff0 Scene.fresh_point l in
    let q := snd (traceOn Scene.G0 (Scene.flat (of_int 50) zero zero Scene.tx) Scene.Id33
                    Scene.tx Scene.aff0 Scene.fresh_point) in
    (gn_bestEnergy g <? energyTH Scene.fresh_point * setting_trace_extraSlackOnTH Scene.G0)
    = true /\
    new_interval Scene.tx l (gn_bestU g) (gn_bestV g) = (idepth_min q, idepth_max q) /\
    lastTraceUV q = V2 (gn_bestU g) (gn_bestV g) /\
    lastTracePixelInterval q = of_int 2 * tl_errorInPixel l.
Proof.
  assert (H : fst (traceOn Scene.G0 (Scene.flat (of_int 50) zero zero Scene.tx) Scene.Id33
                     Scene.tx Scene.aff0 Scene.fresh_point) = IPS_GOOD)
    by (vm_compute; reflexivity).
  split; [exact H|].
  exact (traceOn_good_means Scene.G0 (Scene.flat (of_int 50) zero zero Scene.tx) Scene.Id33
           Scene.tx Scene.aff0 Scene.fresh_point H).
Defined.
